(** * The compand audio filter (libavfilter/af_compand.c)

    A shallow embedding of the filter's curve evaluator, envelope follower,
    delay line and setup routine, with the properties of its specification.

    Numbers are the C types of the source on an IEEE-754 platform with
    FLT_EVAL_METHOD = 0: [float] is binary32 and [double] is binary64, both
    carried by [spec_float], the reference model of the Standard Library, with
    round-to-nearest-even; [int] is a mathematical integer, and every theorem
    that needs it shows the values stay in range.  Arrays are lists; an access
    outside an array is undefined behaviour in C and is an explicit outcome
    here. *)

From Stdlib Require Import ZArith Lia Bool String Ascii SpecFloat.
From stdpp Require Import base list.

Local Open Scope Z_scope.

(** ** IEEE-754 arithmetic of the two C floating types *)

Module F32.
Definition prec : Z := 24.
Definition emax : Z := 128.
Definition valid (v : spec_float) : bool := valid_binary prec emax v.
Definition add := SFadd prec emax.
Definition sub := SFsub prec emax.
Definition mul := SFmul prec emax.
Definition div := SFdiv prec emax.
  (** [a < b], [a <= b], [a > b] of C: false as soon as one side is a NaN. *)
Definition ltb := SFltb.
Definition leb := SFleb.
Definition gtb (v w : spec_float) : bool := SFltb w v.
  (** Truth value of a float in a C condition: [v != 0]. *)
Definition nonzero (v : spec_float) : bool := negb (SFeqb v (S754_zero false)).
Definition zero : spec_float := S754_zero false.
Definition one : spec_float := S754_finite false 8388608 (-23).
Definition neg_one : spec_float := S754_finite true 8388608 (-23).
  (** Conversion of a wider value or of an integer: rounds to nearest even. *)
Definition round (v : spec_float) : spec_float :=
    match v with
    | S754_finite s m e => binary_round prec emax s m e
    | _ => v
    end.
Definition of_Z (n : Z) : spec_float := binary_normalize prec emax n 0 false.
End F32.

Module F64.
Definition prec : Z := 53.
Definition emax : Z := 1024.
Definition valid (v : spec_float) : bool := valid_binary prec emax v.
Definition add := SFadd prec emax.
Definition sub := SFsub prec emax.
Definition mul := SFmul prec emax.
Definition div := SFdiv prec emax.
Definition sqrt := SFsqrt prec emax.
Definition ltb := SFltb.
Definition leb := SFleb.
Definition gtb (v w : spec_float) : bool := SFltb w v.
Definition nonzero (v : spec_float) : bool := negb (SFeqb v (S754_zero false)).
Definition zero : spec_float := S754_zero false.
Definition of_Z (n : Z) : spec_float := binary_normalize prec emax n 0 false.
Definition one : spec_float := Eval cbv in of_Z 1.
  (** A [float] promoted to [double]: the same number, renormalised. *)
Definition of_f32 (v : spec_float) : spec_float :=
    match v with
    | S754_finite s m e => binary_round prec emax s m e
    | _ => v
    end.
  (** A [double] converted to [int]: truncation toward zero (C11 6.3.1.4);
      [None] where the integral part is not an [int], which is undefined. *)
Definition to_int (v : spec_float) : option Z :=
    match v with
    | S754_zero _ => Some 0
    | S754_finite s m e =>
        let q := if 0 <=? e then Z.shiftl (Zpos m) e else Z.shiftr (Zpos m) (- e) in
        let r := if s then - q else q in
        if (-2147483648 <=? r) && (r <=? 2147483647) then Some r else None
    | _ => None
    end.
  (** [M_LN10] of math.h, the double nearest to ln 10 (0x40026BB1BBB55516). *)
Definition M_LN10 : spec_float := S754_finite false 5184960683398422 (-51).
End F64.

Abbreviation float := spec_float (only parsing).
Abbreviation double := spec_float (only parsing).

(** [FFMIN] of libavutil/common.h: [((a) > (b) ? (b) : (a))]. *)
Definition FFMIN_d (a b : double) : double := if F64.gtb a b then b else a.
Definition FFMIN (a b : Z) : Z := if a >? b then b else a.

(** [av_clipf] of libavutil/common.h. *)
Definition av_clipf (v amin amax : float) : float :=
  if F32.gtb v amax then amax
  else if F32.ltb v amin then amin
  else v.

(** The functions of the C mathematics library the filter calls.  [sqrt] and
    [fabs] are exact in IEEE-754 and are [SFsqrt] and [SFabs]. *)
Record Libm : Type := {
  logf : float -> float;
  expf : float -> float;
  exp : double -> double;
  pow : double -> double -> double;
  atan2 : double -> double -> double;
  cos : double -> double;
  sin : double -> double
}.

(** ** Outcomes *)

(** The objects the C code can step outside of. *)
Inductive fault : Type :=
| SegmentsOverrun     (* s->segments[i] with i outside the array *)
| DelayBufferOverrun  (* dbuf[dindex] outside the delay frame *)
| FrameOverrun        (* src[i] or dst[i] outside a frame *)
| ChannelsOverrun     (* s->channels[i] outside the array *)
| NullString          (* sscanf on the NULL that strtok_r returned *)
| NullFunction        (* a call through s->compand before it is set *)
| UninitRead          (* a local read before it is assigned *)
| IntConversion.      (* a double whose integral part is not an int *)

Inductive averror : Type := EINVAL | ENOMEM | EOTHER (code : Z).

Inductive result (A : Type) : Type :=
| Ok (v : A)
| Error (e : averror)
| Undefined (f : fault).
Arguments Ok {A} v.
Arguments Error {A} e.
Arguments Undefined {A} f.

#[global] Instance result_ret : MRet result := @Ok.
#[global] Instance result_bind : MBind result := fun A B k r =>
  match r with
  | Ok v => k v
  | Error e => Error e
  | Undefined f => Undefined f
  end.

(** An array read: [arr[i]], undefined outside the array. *)
Definition read {A : Type} (f : fault) (arr : list A) (i : Z) : result A :=
  if i <? 0 then Undefined f
  else match arr !! Z.to_nat i with
       | Some v => Ok v
       | None => Undefined f
       end.

(** An array write: [arr[i] = v], undefined outside the array. *)
Definition write {A : Type} (f : fault) (arr : list A) (i : Z) (v : A) : result (list A) :=
  if (0 <=? i) && (i <? Z.of_nat (length arr)) then Ok (<[Z.to_nat i := v]> arr)
  else Undefined f.

(** ** The data of the filter *)

Record ChanParam : Type := {
  attack : float;
  decay : float;
  volume : float
}.

Module CompandSegment.
Record t : Type := mk { x : float; y : float; a : float; b : float }.
  (** An element of a zero-filled allocation ([av_mallocz_array]). *)
Definition zeroed : t := mk F32.zero F32.zero F32.zero F32.zero.
Definition set_x (v : float) (sg : t) : t := mk v (y sg) (a sg) (b sg).
Definition set_y (v : float) (sg : t) : t := mk (x sg) v (a sg) (b sg).
Definition set_a (v : float) (sg : t) : t := mk (x sg) (y sg) v (b sg).
Definition set_b (v : float) (sg : t) : t := mk (x sg) (y sg) (a sg) v.
End CompandSegment.
Abbreviation segment := CompandSegment.t.

(** The planar sample data of an [AVFrame]: one array per channel. *)
Record AVFrame : Type := {
  nb_samples : Z;
  extended_data : list (list float);
  frame_pts : Z
}.

(** The two functions [s->compand] can point to. *)
Inductive compand_fn : Type := compand_unset | use_compand_nodelay | use_compand_delay.

Record CompandContext : Type := {
  nb_channels : Z;
  attacks : string;
  decays : string;
  points : string;
  segments : list segment;
  channels : list ChanParam;
  in_min_lin : float;
  out_min_lin : float;
  curve_dB : double;
  gain_dB : double;
  initial_volume : double;
  delay : double;
  delay_frame : option AVFrame;
  delay_samples : Z;
  delay_count : Z;
  delay_index : Z;
  pts : Z;
  compand : compand_fn
}.

(** Assignments to one field of the context, [s->field = v]. *)
Definition set_nb_channels (v : Z) (s : CompandContext) : CompandContext :=
  {| nb_channels := v; attacks := attacks s; decays := decays s; points := points s;
     segments := segments s; channels := channels s; in_min_lin := in_min_lin s;
     out_min_lin := out_min_lin s; curve_dB := curve_dB s; gain_dB := gain_dB s;
     initial_volume := initial_volume s; delay := delay s;
     delay_frame := delay_frame s; delay_samples := delay_samples s;
     delay_count := delay_count s; delay_index := delay_index s; pts := pts s;
     compand := compand s |}.

Definition set_segments (v : list segment) (s : CompandContext) : CompandContext :=
  {| nb_channels := nb_channels s; attacks := attacks s; decays := decays s;
     points := points s; segments := v; channels := channels s;
     in_min_lin := in_min_lin s; out_min_lin := out_min_lin s;
     curve_dB := curve_dB s; gain_dB := gain_dB s;
     initial_volume := initial_volume s; delay := delay s;
     delay_frame := delay_frame s; delay_samples := delay_samples s;
     delay_count := delay_count s; delay_index := delay_index s; pts := pts s;
     compand := compand s |}.

Definition set_channels (v : list ChanParam) (s : CompandContext) : CompandContext :=
  {| nb_channels := nb_channels s; attacks := attacks s; decays := decays s;
     points := points s; segments := segments s; channels := v;
     in_min_lin := in_min_lin s; out_min_lin := out_min_lin s;
     curve_dB := curve_dB s; gain_dB := gain_dB s;
     initial_volume := initial_volume s; delay := delay s;
     delay_frame := delay_frame s; delay_samples := delay_samples s;
     delay_count := delay_count s; delay_index := delay_index s; pts := pts s;
     compand := compand s |}.

Definition set_in_min_lin (v : float) (s : CompandContext) : CompandContext :=
  {| nb_channels := nb_channels s; attacks := attacks s; decays := decays s;
     points := points s; segments := segments s; channels := channels s;
     in_min_lin := v; out_min_lin := out_min_lin s; curve_dB := curve_dB s;
     gain_dB := gain_dB s; initial_volume := initial_volume s; delay := delay s;
     delay_frame := delay_frame s; delay_samples := delay_samples s;
     delay_count := delay_count s; delay_index := delay_index s; pts := pts s;
     compand := compand s |}.

Definition set_out_min_lin (v : float) (s : CompandContext) : CompandContext :=
  {| nb_channels := nb_channels s; attacks := attacks s; decays := decays s;
     points := points s; segments := segments s; channels := channels s;
     in_min_lin := in_min_lin s; out_min_lin := v; curve_dB := curve_dB s;
     gain_dB := gain_dB s; initial_volume := initial_volume s; delay := delay s;
     delay_frame := delay_frame s; delay_samples := delay_samples s;
     delay_count := delay_count s; delay_index := delay_index s; pts := pts s;
     compand := compand s |}.

Definition set_delay_frame (v : option AVFrame) (s : CompandContext) : CompandContext :=
  {| nb_channels := nb_channels s; attacks := attacks s; decays := decays s;
     points := points s; segments := segments s; channels := channels s;
     in_min_lin := in_min_lin s; out_min_lin := out_min_lin s;
     curve_dB := curve_dB s; gain_dB := gain_dB s;
     initial_volume := initial_volume s; delay := delay s; delay_frame := v;
     delay_samples := delay_samples s; delay_count := delay_count s;
     delay_index := delay_index s; pts := pts s; compand := compand s |}.

Definition set_delay_samples (v : Z) (s : CompandContext) : CompandContext :=
  {| nb_channels := nb_channels s; attacks := attacks s; decays := decays s;
     points := points s; segments := segments s; channels := channels s;
     in_min_lin := in_min_lin s; out_min_lin := out_min_lin s;
     curve_dB := curve_dB s; gain_dB := gain_dB s;
     initial_volume := initial_volume s; delay := delay s;
     delay_frame := delay_frame s; delay_samples := v; delay_count := delay_count s;
     delay_index := delay_index s; pts := pts s; compand := compand s |}.

Definition set_delay_count (v : Z) (s : CompandContext) : CompandContext :=
  {| nb_channels := nb_channels s; attacks := attacks s; decays := decays s;
     points := points s; segments := segments s; channels := channels s;
     in_min_lin := in_min_lin s; out_min_lin := out_min_lin s;
     curve_dB := curve_dB s; gain_dB := gain_dB s;
     initial_volume := initial_volume s; delay := delay s;
     delay_frame := delay_frame s; delay_samples := delay_samples s;
     delay_count := v; delay_index := delay_index s; pts := pts s;
     compand := compand s |}.

Definition set_delay_index (v : Z) (s : CompandContext) : CompandContext :=
  {| nb_channels := nb_channels s; attacks := attacks s; decays := decays s;
     points := points s; segments := segments s; channels := channels s;
     in_min_lin := in_min_lin s; out_min_lin := out_min_lin s;
     curve_dB := curve_dB s; gain_dB := gain_dB s;
     initial_volume := initial_volume s; delay := delay s;
     delay_frame := delay_frame s; delay_samples := delay_samples s;
     delay_count := delay_count s; delay_index := v; pts := pts s;
     compand := compand s |}.

Definition set_pts (v : Z) (s : CompandContext) : CompandContext :=
  {| nb_channels := nb_channels s; attacks := attacks s; decays := decays s;
     points := points s; segments := segments s; channels := channels s;
     in_min_lin := in_min_lin s; out_min_lin := out_min_lin s;
     curve_dB := curve_dB s; gain_dB := gain_dB s;
     initial_volume := initial_volume s; delay := delay s;
     delay_frame := delay_frame s; delay_samples := delay_samples s;
     delay_count := delay_count s; delay_index := delay_index s; pts := v;
     compand := compand s |}.

Definition set_compand (v : compand_fn) (s : CompandContext) : CompandContext :=
  {| nb_channels := nb_channels s; attacks := attacks s; decays := decays s;
     points := points s; segments := segments s; channels := channels s;
     in_min_lin := in_min_lin s; out_min_lin := out_min_lin s;
     curve_dB := curve_dB s; gain_dB := gain_dB s;
     initial_volume := initial_volume s; delay := delay s;
     delay_frame := delay_frame s; delay_samples := delay_samples s;
     delay_count := delay_count s; delay_index := delay_index s; pts := pts s;
     compand := v |}.

(** ** The envelope follower and the curve evaluator *)

Definition update_volume (cp : ChanParam) (inp : float) : ChanParam :=
  let delta := F32.sub inp (volume cp) in
  if F32.gtb delta F32.zero
  then {| attack := attack cp; decay := decay cp;
          volume := F32.add (volume cp) (F32.mul delta (attack cp)) |}
  else {| attack := attack cp; decay := decay cp;
          volume := F32.add (volume cp) (F32.mul delta (decay cp)) |}.

(** The scan [for (i = 1;; i++) if (in_log <= s->segments[i + 1].x) break;].
    [rest] is the array from index [i + 1] on; the loop has no bound of its
    own, so when [rest] is exhausted the next read is past the array. *)
Fixpoint find_segment (rest : list segment) (in_log : float) (i : Z) : result Z :=
  match rest with
  | [] => Undefined SegmentsOverrun
  | sg :: rest' =>
      if F32.leb in_log (CompandSegment.x sg) then Ok i
      else find_segment rest' in_log (i + 1)
  end.

Section Evaluator.
Variable libm : Libm.

Definition get_volume (s : CompandContext) (in_lin : float) : result float :=
    if F32.ltb in_lin (in_min_lin s) then Ok (out_min_lin s)
    else
      let in_log := logf libm in_lin in
      i ← find_segment (drop 2 (segments s)) in_log 1;
      cs ← read SegmentsOverrun (segments s) i;
      let in_log := F32.sub in_log (CompandSegment.x cs) in
      let out_log :=
        F32.add (CompandSegment.y cs)
          (F32.mul in_log
             (F32.add (F32.mul (CompandSegment.a cs) in_log) (CompandSegment.b cs))) in
      Ok (expf libm out_log).
End Evaluator.

(** ** Loops *)

(** [for (i = lo; i < hi; i++) body], for a body that leaves [i] and [hi]
    alone: [n] iterations from [i] on. *)
Fixpoint for_range {St : Type} (n : nat) (i : Z) (body : Z -> St -> result St) (st : St)
  : result St :=
  match n with
  | O => Ok st
  | S n' => st' ← body i st; for_range n' (i + 1) body st'
  end.

Definition for_upto {St : Type} (lo hi : Z) (body : Z -> St -> result St) (st : St)
  : result St :=
  for_range (Z.to_nat (hi - lo)) lo body st.

Definition MOD (a b : Z) : Z := if a >=? b then a - b else a.

(** [ff_get_audio_buffer]: a frame of [n] samples of silence on each of the
    link's channels. *)
Definition ff_get_audio_buffer (nchan n : Z) : AVFrame :=
  {| nb_samples := n;
     extended_data := replicate (Z.to_nat nchan) (replicate (Z.to_nat n) F32.zero);
     frame_pts := 0 |}.

Definition set_plane (chan : Z) (plane : list float) (f : AVFrame) : result AVFrame :=
  planes ← write FrameOverrun (extended_data f) chan plane;
  Ok {| nb_samples := nb_samples f; extended_data := planes; frame_pts := frame_pts f |}.

(** ** Processing *)

Section Processing.
Variable libm : Libm.
  (** [av_rescale_q(n, (AVRational){ 1, sample_rate }, time_base)]: a count of
      samples in the time base of the link. *)
Variable av_rescale_q : Z -> Z.

  (** *** Without delay *)

  (** The body of the sample loop of [compand_nodelay]. *)
Definition nodelay_sample (s : CompandContext) (src : list float) (i : Z)
      (st : ChanParam * list float) : result (ChanParam * list float) :=
    let '(cp, dst) := st in
    v ← read FrameOverrun src i;
    let cp := update_volume cp (SFabs v) in
    g ← get_volume libm s (volume cp);
    dst ← write FrameOverrun dst i (av_clipf (F32.mul v g) F32.neg_one F32.one);
    Ok (cp, dst).

  (** The body of the channel loop of [compand_nodelay]. *)
Definition nodelay_channel (frame : AVFrame) (chan : Z)
      (st : CompandContext * AVFrame) : result (CompandContext * AVFrame) :=
    let '(s, out_frame) := st in
    src ← read FrameOverrun (extended_data frame) chan;
    dst ← read FrameOverrun (extended_data out_frame) chan;
    cp ← read ChannelsOverrun (channels s) chan;
    '(cp, dst) ← for_upto 0 (nb_samples frame) (nodelay_sample s src) (cp, dst);
    chans ← write ChannelsOverrun (channels s) chan cp;
    out_frame ← set_plane chan dst out_frame;
    Ok (set_channels chans s, out_frame).

  (** [writable] is [av_frame_is_writable(frame)]; [alloc_ok] tells whether
      the host can supply an output buffer. *)
Definition compand_nodelay (s : CompandContext) (frame : AVFrame)
      (writable alloc_ok : bool) : result (CompandContext * option AVFrame) :=
    out_frame ←
      (if writable then Ok frame
       else if alloc_ok
            then Ok {| nb_samples := nb_samples frame;
                       extended_data :=
                         extended_data (ff_get_audio_buffer (nb_channels s) (nb_samples frame));
                       frame_pts := frame_pts frame |}
            else Error ENOMEM);
    '(s, out_frame) ← for_upto 0 (nb_channels s) (nodelay_channel frame) (s, out_frame);
    Ok (s, Some out_frame).

  (** *** With delay *)

  (** The variables the sample loop of [compand_delay] works on: the locals
      [count], [dindex], [oindex] and [out_frame], the delay plane [dbuf] and
      the envelope [cp] of the channel, and [s->pts]. *)
Record delay_locals : Type := {
    l_count : Z;
    l_dindex : Z;
    l_oindex : Z;
    l_out_frame : option AVFrame;
    l_dbuf : list float;
    l_cp : ChanParam;
    l_pts : Z
  }.

  (** The body of the sample loop of [compand_delay], for sample [i] of
      channel [chan]. *)
Definition delay_sample (s : CompandContext) (frame : AVFrame) (alloc_ok : bool)
      (chan : Z) (src : list float) (i : Z) (st : delay_locals) : result delay_locals :=
    inp ← read FrameOverrun src i;
    let cp := update_volume (l_cp st) (SFabs inp) in
    '(count, oindex, out_frame, pts') ←
      (if l_count st >=? delay_samples s then
         '(out_frame, pts') ←
           match l_out_frame st with
           | Some f => Ok (f, l_pts st)
           | None =>
               if alloc_ok
               then Ok ({| nb_samples := nb_samples frame - i;
                           extended_data :=
                             extended_data
                               (ff_get_audio_buffer (nb_channels s) (nb_samples frame - i));
                           frame_pts := l_pts st |},
                        l_pts st + av_rescale_q (nb_samples frame - i))
               else Error ENOMEM
           end;
         dst ← read FrameOverrun (extended_data out_frame) chan;
         d ← read DelayBufferOverrun (l_dbuf st) (l_dindex st);
         g ← get_volume libm s (volume cp);
         dst ← write FrameOverrun dst (l_oindex st)
                 (av_clipf (F32.mul d g) F32.neg_one F32.one);
         out_frame ← set_plane chan dst out_frame;
         Ok (l_count st, l_oindex st + 1, Some out_frame, pts')
       else Ok (l_count st + 1, l_oindex st, l_out_frame st, l_pts st));
    dbuf ← write DelayBufferOverrun (l_dbuf st) (l_dindex st) inp;
    Ok {| l_count := count;
          l_dindex := MOD (l_dindex st + 1) (delay_samples s);
          l_oindex := oindex;
          l_out_frame := out_frame;
          l_dbuf := dbuf;
          l_cp := cp;
          l_pts := pts' |}.

  (** What the channel loop of [compand_delay] carries from one channel to
      the next: the context, and the locals [count], [dindex], [out_frame]. *)
Record delay_chan_state : Type := {
    c_ctx : CompandContext;
    c_count : Z;
    c_dindex : Z;
    c_out_frame : option AVFrame
  }.

  (** The body of the channel loop of [compand_delay]. *)
Definition delay_channel (frame : AVFrame) (alloc_ok : bool) (chan : Z)
      (st : delay_chan_state) : result delay_chan_state :=
    let s := c_ctx st in
    match delay_frame s with
    | None => Undefined DelayBufferOverrun
    | Some dframe =>
        src ← read FrameOverrun (extended_data frame) chan;
        dbuf ← read DelayBufferOverrun (extended_data dframe) chan;
        cp ← read ChannelsOverrun (channels s) chan;
        l ← for_upto 0 (nb_samples frame) (delay_sample s frame alloc_ok chan src)
              {| l_count := delay_count s; l_dindex := delay_index s; l_oindex := 0;
                 l_out_frame := c_out_frame st; l_dbuf := dbuf; l_cp := cp;
                 l_pts := pts s |};
        planes ← write DelayBufferOverrun (extended_data dframe) chan (l_dbuf l);
        chans ← write ChannelsOverrun (channels s) chan (l_cp l);
        Ok {| c_ctx :=
                set_pts (l_pts l)
                  (set_channels chans
                     (set_delay_frame
                        (Some {| nb_samples := nb_samples dframe;
                                 extended_data := planes;
                                 frame_pts := frame_pts dframe |}) s));
              c_count := l_count l;
              c_dindex := l_dindex l;
              c_out_frame := l_out_frame l |}
    end.

Definition compand_delay (s : CompandContext) (frame : AVFrame) (alloc_ok : bool)
      : result (CompandContext * option AVFrame) :=
    st ← for_upto 0 (nb_channels s) (delay_channel frame alloc_ok)
           {| c_ctx := s; c_count := 0; c_dindex := 0; c_out_frame := None |};
    Ok (set_delay_index (c_dindex st) (set_delay_count (c_count st) (c_ctx st)),
        c_out_frame st).

  (** *** Drain *)

  (** The body of the sample loop of [compand_drain]. *)
Definition drain_sample (s : CompandContext) (dbuf : list float) (cp : ChanParam)
      (i : Z) (st : Z * list float) : result (Z * list float) :=
    let '(dindex, dst) := st in
    d ← read DelayBufferOverrun dbuf dindex;
    g ← get_volume libm s (volume cp);
    dst ← write FrameOverrun dst i (av_clipf (F32.mul d g) F32.neg_one F32.one);
    Ok (MOD (dindex + 1) (delay_samples s), dst).

  (** The body of the channel loop of [compand_drain]; the local [dindex] is
      unassigned until the first channel has run. *)
Definition drain_channel (s : CompandContext) (chan : Z) (st : option Z * AVFrame)
      : result (option Z * AVFrame) :=
    let '(_, frame) := st in
    match delay_frame s with
    | None => Undefined DelayBufferOverrun
    | Some dframe =>
        dbuf ← read DelayBufferOverrun (extended_data dframe) chan;
        dst ← read FrameOverrun (extended_data frame) chan;
        cp ← read ChannelsOverrun (channels s) chan;
        '(dindex, dst) ← for_upto 0 (nb_samples frame) (drain_sample s dbuf cp)
                           (delay_index s, dst);
        frame ← set_plane chan dst frame;
        Ok (Some dindex, frame)
    end.

Definition compand_drain (s : CompandContext) (alloc_ok : bool)
      : result (CompandContext * option AVFrame) :=
    if alloc_ok then
      (* 2048 is to limit output frame size during drain *)
      let n := FFMIN 2048 (delay_count s) in
      let frame := {| nb_samples := n;
                      extended_data := extended_data (ff_get_audio_buffer (nb_channels s) n);
                      frame_pts := pts s |} in
      let s1 := set_pts (pts s + av_rescale_q (nb_samples frame)) s in
      '(dindex, frame) ← for_upto 0 (nb_channels s1) (drain_channel s1) (None, frame);
      match dindex with
      | None => Undefined UninitRead
      | Some dindex =>
          Ok (set_delay_index dindex
                (set_delay_count (delay_count s1 - nb_samples frame) s1),
              Some frame)
      end
    else Error ENOMEM.

  (** *** The pads *)

Definition filter_frame (s : CompandContext) (frame : AVFrame)
      (writable alloc_ok : bool) : result (CompandContext * option AVFrame) :=
    match compand s with
    | use_compand_nodelay => compand_nodelay s frame writable alloc_ok
    | use_compand_delay => compand_delay s frame alloc_ok
    | compand_unset => Undefined NullFunction
    end.

  (** [AVERROR_EOF] of libavutil/error.h: [FFERRTAG('E','O','F',' ')]. *)
Definition AVERROR_EOF : Z := -541478725.

  (** What a call of [request_frame] does: it hands on the code the upstream
      request returned, or it emits a frame of drained samples. *)
Inductive requested : Type :=
  | Upstream (ret : Z)
  | Drained (frame : option AVFrame).

  (** [ret] is what [ff_request_frame(ctx->inputs[0])] returned. *)
Definition request_frame (s : CompandContext) (ret : Z) (alloc_ok : bool)
      : result (CompandContext * requested) :=
    if (ret =? AVERROR_EOF) && negb (delay_count s =? 0) then
      '(s, frame) ← compand_drain s alloc_ok;
      Ok (s, Drained frame)
    else Ok (s, Upstream ret).

  (** *** A whole stream *)

Definition emitted (out : option AVFrame) : list AVFrame :=
    match out with Some f => [f] | None => [] end.

  (** The input frames go through [filter_frame] one after the other; the
      host has buffers, and the frames are not writable in place. *)
Fixpoint feed (s : CompandContext) (frames : list AVFrame)
      : result (CompandContext * list AVFrame) :=
    match frames with
    | [] => Ok (s, [])
    | f :: frames' =>
        '(s, out) ← filter_frame s f false true;
        '(s, outs) ← feed s frames';
        Ok (s, emitted out ++ outs)
    end.

  (** After the end of the input the host calls [request_frame] again and
      again, the upstream request returning [AVERROR_EOF] each time: [n]
      such calls, with the frames they emit and the code of the last. *)
Fixpoint requests_at_eof (n : nat) (s : CompandContext)
      : result (CompandContext * list AVFrame) :=
    match n with
    | O => Ok (s, [])
    | S n' =>
        '(s, r) ← request_frame s AVERROR_EOF true;
        match r with
        | Upstream _ => Ok (s, [])
        | Drained out =>
            '(s, outs) ← requests_at_eof n' s;
            Ok (s, emitted out ++ outs)
        end
    end.

Definition total_samples (frames : list AVFrame) : Z :=
    foldr (fun f n => nb_samples f + n) 0 frames.
End Processing.

(** ** Setup *)

(** [count_items]: one more than the number of ['|'] in the string. *)
Fixpoint count_items (item_str : string) : Z :=
  match item_str with
  | EmptyString => 1
  | String c rest =>
      if Ascii.eqb c "|" then count_items rest + 1 else count_items rest
  end.

(** [strtok_r(p, "|", &saveptr)].  It continues in [saveptr] when [p] is NULL,
    skips the delimiters in front, and returns NULL when nothing is left;
    otherwise the token runs up to the next delimiter, and [saveptr] is left
    behind that delimiter. *)
Fixpoint skip_delimiters (str : string) : string :=
  match str with
  | String c rest => if Ascii.eqb c "|" then skip_delimiters rest else str
  | EmptyString => EmptyString
  end.

Fixpoint split_token (str : string) : string * string :=
  match str with
  | EmptyString => (EmptyString, EmptyString)
  | String c rest =>
      if Ascii.eqb c "|" then (EmptyString, rest)
      else let '(tok, saveptr) := split_token rest in (String c tok, saveptr)
  end.

Definition strtok_r (p : option string) (saveptr : string) : option string * string :=
  let str := skip_delimiters (match p with Some str => str | None => saveptr end) in
  match str with
  | EmptyString => (None, EmptyString)
  | _ => let '(tok, saveptr) := split_token str in (Some tok, saveptr)
  end.

(** What the host supplies to [config_output]: whether its allocations
    succeed, the code [av_frame_get_buffer] returns, and the bytes the
    fresh delay buffer happens to hold (it is not cleared). *)
Record Host : Type := {
  arrays_ok : bool;
  delay_frame_ok : bool;
  get_buffer_err : Z;
  fresh_sample : Z -> nat -> float
}.

(** The tokeniser variables of the parsing loops. *)
Record tokens : Type := { tok_p : option string; tok_saveptr : string }.

Definition modify_segment (segs : list segment) (i : Z) (f : segment -> segment)
  : result (list segment) :=
  sg ← read SegmentsOverrun segs i;
  write SegmentsOverrun segs i (f sg).

Section Setup.
Variable libm : Libm.
  (** [sscanf(tstr, "%f", &v) == 1], with the value stored. *)
Variable sscanf_f : string -> option float.
  (** [sscanf(tstr, "%f/%f", &x, &y) == 2], with the values stored. *)
Variable sscanf_ff : string -> option (float * float).

  (** The body of the loop over the attack times (or, with the other field,
      over the decay times). *)
Definition parse_time (set : float -> ChanParam -> ChanParam)
      (get : ChanParam -> float) (i : Z) (st : tokens * Z * list ChanParam)
      : result (tokens * Z * list ChanParam) :=
    let '(tk, new_nb_items, chans) := st in
    let '(tstr, saveptr) := strtok_r (tok_p tk) (tok_saveptr tk) in
    match tstr with
    | None => Undefined NullString
    | Some tstr =>
        cp ← read ChannelsOverrun chans i;
        let '(cp, got) :=
          match sscanf_f tstr with
          | Some v => (set v cp, 1)
          | None => (cp, 0)
          end in
        chans ← write ChannelsOverrun chans i cp;
        if F32.ltb (get cp) F32.zero then Error EINVAL
        else Ok ({| tok_p := None; tok_saveptr := saveptr |}, new_nb_items + got, chans)
    end.

Definition set_attack (v : float) (cp : ChanParam) : ChanParam :=
    {| attack := v; decay := decay cp; volume := volume cp |}.
Definition set_decay (v : float) (cp : ChanParam) : ChanParam :=
    {| attack := attack cp; decay := v; volume := volume cp |}.
Definition set_volume (v : float) (cp : ChanParam) : ChanParam :=
    {| attack := attack cp; decay := decay cp; volume := v |}.

  (** The body of the loop over the points; [S(x)] is
      [s->segments[2 * ((x) + 1)]] here. *)
Definition parse_point (i : Z) (st : tokens * Z * list segment)
      : result (tokens * Z * list segment) :=
    let '(tk, new_nb_items, segs) := st in
    let '(tstr, saveptr) := strtok_r (tok_p tk) (tok_saveptr tk) in
    match tstr with
    | None => Undefined NullString
    | Some tstr =>
        match sscanf_ff tstr with
        | None => Error EINVAL
        | Some (px, py) =>
            segs ← modify_segment segs (2 * (i + 1))
                     (fun sg => CompandSegment.set_y py (CompandSegment.set_x px sg));
            descending ←
              (if i =? 0 then Ok false
               else
                 prev ← read SegmentsOverrun segs (2 * (i - 1 + 1));
                 cur ← read SegmentsOverrun segs (2 * (i + 1));
                 Ok (F32.gtb (CompandSegment.x prev) (CompandSegment.x cur)));
            if descending : bool then Error EINVAL
            else
              segs ← modify_segment segs (2 * (i + 1))
                       (fun sg => CompandSegment.set_y
                                    (F32.sub (CompandSegment.y sg) (CompandSegment.x sg)) sg);
              Ok ({| tok_p := None; tok_saveptr := saveptr |}, new_nb_items + 1, segs)
        end
    end.

  (** "Add 0,0 if necessary": [if (num == 0 || S(num - 1).x) num++;]. *)
Definition add_origin (num : Z) (segs : list segment) : result Z :=
    if num =? 0 then Ok (num + 1)
    else
      sg ← read SegmentsOverrun segs (2 * (num - 1 + 1));
      Ok (if F32.nonzero (CompandSegment.x sg) then num + 1 else num).

  (** "Add a tail off segment at the start"; from here on [S(x)] is
      [s->segments[2 * (x)]]. *)
Definition add_tail (curve : double) (segs : list segment) : result (list segment) :=
    s1 ← read SegmentsOverrun segs (2 * 1);
    segs ← modify_segment segs (2 * 0)
             (CompandSegment.set_x
                (F32.round (F64.sub (F64.of_f32 (CompandSegment.x s1))
                              (F64.mul (F64.of_Z 2) curve))));
    s1 ← read SegmentsOverrun segs (2 * 1);
    modify_segment segs (2 * 0) (CompandSegment.set_y (CompandSegment.y s1)).

  (** "Join adjacent colinear segments".  [k] is [num - i], which every
      iteration lowers by one: either [i] goes up, or [num] goes down and [i]
      stays.  The products are computed in [float] and only then widened. *)
Fixpoint join_colinear (k : nat) (i num : Z) (segs : list segment)
      : result (Z * list segment) :=
    match k with
    | O => Ok (num, segs)
    | S k' =>
        s0 ← read SegmentsOverrun segs (2 * (i - 0));
        s1 ← read SegmentsOverrun segs (2 * (i - 1));
        s2 ← read SegmentsOverrun segs (2 * (i - 2));
        let g1 := F64.of_f32
          (F32.mul (F32.sub (CompandSegment.y s1) (CompandSegment.y s2))
                   (F32.sub (CompandSegment.x s0) (CompandSegment.x s1))) in
        let g2 := F64.of_f32
          (F32.mul (F32.sub (CompandSegment.y s0) (CompandSegment.y s1))
                   (F32.sub (CompandSegment.x s1) (CompandSegment.x s2))) in
        (* here we purposefully lose precision so that we can compare floats *)
        if F64.nonzero (SFabs (F64.sub g1 g2)) then join_colinear k' (i + 1) num segs
        else
          let num := num - 1 in
          let i := i - 1 in
          segs ← for_upto i num
                   (fun j segs =>
                      nxt ← read SegmentsOverrun segs (2 * (j + 1));
                      write SegmentsOverrun segs (2 * j) nxt)
                   segs;
          join_colinear k' (i + 1) num segs
    end.

  (** [for (i = 0; !i || s->segments[i - 2].x; i += 2)]: the gain is added and
      the knots go from dB to natural logarithms, up to the first knot whose
      [x] is zero.  The loop has no bound of its own; [fuel] exceeds the
      number of iterations that fit in the array. *)
Fixpoint to_log_domain (fuel : nat) (gain : double) (i : Z) (segs : list segment)
      : result (list segment) :=
    continue ←
      (if i =? 0 then Ok true
       else sg ← read SegmentsOverrun segs (i - 2);
            Ok (F32.nonzero (CompandSegment.x sg)));
    if continue : bool then
      match fuel with
      | O => Undefined SegmentsOverrun
      | S fuel' =>
          let c := F64.div F64.M_LN10 (F64.of_Z 20) in
          segs ← modify_segment segs i
                   (fun sg => CompandSegment.set_y
                                (F32.round (F64.add (F64.of_f32 (CompandSegment.y sg)) gain)) sg);
          segs ← modify_segment segs i
                   (fun sg => CompandSegment.set_x
                                (F32.round (F64.mul (F64.of_f32 (CompandSegment.x sg)) c)) sg);
          segs ← modify_segment segs i
                   (fun sg => CompandSegment.set_y
                                (F32.round (F64.mul (F64.of_f32 (CompandSegment.y sg)) c)) sg);
          to_log_domain fuel' gain (i + 2) segs
      end
    else Ok segs.

  (** *** The soft knee *)

  (** [sqrt(pow(q.x - p.x, 2.) + pow(q.y - p.y, 2.))]: the length of the
      segment from knot [p] to knot [q]; the differences are [float]. *)
Definition segment_length (p q : segment) : double :=
    F64.sqrt
      (F64.add
         (pow libm (F64.of_f32 (F32.sub (CompandSegment.x q) (CompandSegment.x p)))
                   (F64.of_Z 2))
         (pow libm (F64.of_f32 (F32.sub (CompandSegment.y q) (CompandSegment.y p)))
                   (F64.of_Z 2))).

  (** [atan2(q.y - p.y, q.x - p.x)]: the direction of that segment. *)
Definition segment_angle (p q : segment) : double :=
    atan2 libm (F64.of_f32 (F32.sub (CompandSegment.y q) (CompandSegment.y p)))
               (F64.of_f32 (F32.sub (CompandSegment.x q) (CompandSegment.x p))).

  (** The two values of [r] in the body: [FFMIN(radius, len)] on the side of
      the previous knot [L(4)], and [FFMIN(radius, len / 2)] on the side of
      the next knot [L(0)]. *)
Definition entry_radius (radius : double) (l4 l2 : segment) : double :=
    FFMIN_d radius (segment_length l4 l2).

Definition exit_radius (radius : double) (l2 l0 : segment) : double :=
    FFMIN_d radius (F64.div (segment_length l2 l0) (F64.of_Z 2)).

  (** The body of the soft-knee loop on the knots [L(4)], [L(3)], [L(2)] and
      [L(0)]; it returns the new [L(4)], [L(3)] and [L(2)]. *)
Definition round_knee (radius : double) (l4 l3 l2 l0 : segment)
      : segment * segment * segment :=
    let slope (p q : segment) :=
      F32.div (F32.sub (CompandSegment.y q) (CompandSegment.y p))
              (F32.sub (CompandSegment.x q) (CompandSegment.x p)) in
    let l4 := CompandSegment.set_a F32.zero l4 in
    let l4 := CompandSegment.set_b (slope l4 l2) l4 in
    let l2 := CompandSegment.set_a F32.zero l2 in
    let l2 := CompandSegment.set_b (slope l2 l0) l2 in
    let theta := segment_angle l4 l2 in
    let r := entry_radius radius l4 l2 in
    let l3 := CompandSegment.set_x
                (F32.round (F64.sub (F64.of_f32 (CompandSegment.x l2))
                              (F64.mul r (cos libm theta)))) l3 in
    let l3 := CompandSegment.set_y
                (F32.round (F64.sub (F64.of_f32 (CompandSegment.y l2))
                              (F64.mul r (sin libm theta)))) l3 in
    let theta := segment_angle l2 l0 in
    let r := exit_radius radius l2 l0 in
    let x := F64.add (F64.of_f32 (CompandSegment.x l2)) (F64.mul r (cos libm theta)) in
    let y := F64.add (F64.of_f32 (CompandSegment.y l2)) (F64.mul r (sin libm theta)) in
    let cx := F64.div
                (F64.add (F64.of_f32 (F32.add (CompandSegment.x l3) (CompandSegment.x l2))) x)
                (F64.of_Z 3) in
    let cy := F64.div
                (F64.add (F64.of_f32 (F32.add (CompandSegment.y l3) (CompandSegment.y l2))) y)
                (F64.of_Z 3) in
    let l2 := CompandSegment.set_x (F32.round x) l2 in
    let l2 := CompandSegment.set_y (F32.round y) l2 in
    let in1 := F64.sub cx (F64.of_f32 (CompandSegment.x l3)) in
    let out1 := F64.sub cy (F64.of_f32 (CompandSegment.y l3)) in
    let in2 := F64.of_f32 (F32.sub (CompandSegment.x l2) (CompandSegment.x l3)) in
    let out2 := F64.of_f32 (F32.sub (CompandSegment.y l2) (CompandSegment.y l3)) in
    let l3 := CompandSegment.set_a
                (F32.round (F64.div (F64.sub (F64.div out2 in2) (F64.div out1 in1))
                              (F64.sub in2 in1))) l3 in
    let l3 := CompandSegment.set_b
                (F32.round (F64.sub (F64.div out1 in1)
                              (F64.mul (F64.of_f32 (CompandSegment.a l3)) in1))) l3 in
    (l4, l3, l2).

  (** [for (i = 4; s->segments[i - 2].x; i += 2)] with [L(x)] for
      [s->segments[i - (x)]], and [L(3).x = 0; L(3).y = L(2).y;] behind it. *)
Fixpoint soft_knee (fuel : nat) (radius : double) (i : Z) (segs : list segment)
      : result (list segment) :=
    l2 ← read SegmentsOverrun segs (i - 2);
    if F32.nonzero (CompandSegment.x l2) then
      match fuel with
      | O => Undefined SegmentsOverrun
      | S fuel' =>
          l4 ← read SegmentsOverrun segs (i - 4);
          l3 ← read SegmentsOverrun segs (i - 3);
          l0 ← read SegmentsOverrun segs (i - 0);
          let '(l4, l3, l2) := round_knee radius l4 l3 l2 l0 in
          segs ← write SegmentsOverrun segs (i - 4) l4;
          segs ← write SegmentsOverrun segs (i - 3) l3;
          segs ← write SegmentsOverrun segs (i - 2) l2;
          soft_knee fuel' radius (i + 2) segs
      end
    else
      segs ← modify_segment segs (i - 3) (CompandSegment.set_x F32.zero);
      modify_segment segs (i - 3) (CompandSegment.set_y (CompandSegment.y l2)).

  (** *** The envelope coefficients *)

  (** [1.0 - exp(-1.0 / (sample_rate * t))] when [t > 1.0 / sample_rate], and
      [1.0] otherwise; the product [sample_rate * t] is a [float]. *)
Definition coefficient (sample_rate : Z) (t : float) : float :=
    if F64.gtb (F64.of_f32 t) (F64.div F64.one (F64.of_Z sample_rate)) then
      F32.round
        (F64.sub F64.one
           (exp libm
              (F64.div (SFopp F64.one)
                 (F64.of_f32 (F32.mul (F32.of_Z sample_rate) t)))))
    else F32.one.

  (** The body of the loop over the channels at the end of the setup. *)
Definition init_channel (sample_rate : Z) (volume_dB : double) (i : Z)
      (chans : list ChanParam) : result (list ChanParam) :=
    cp ← read ChannelsOverrun chans i;
    let cp := set_attack (coefficient sample_rate (attack cp)) cp in
    let cp := set_decay (coefficient sample_rate (decay cp)) cp in
    let cp := set_volume
                (F32.round (pow libm (F64.of_Z 10) (F64.div volume_dB (F64.of_Z 20)))) cp in
    write ChannelsOverrun chans i cp.

  (** *** [config_output] *)

  (** The two loops over the attack and the decay times: the numbers of
      values read, the channels, and the tokeniser's [saveptr]. *)
Definition parse_times (s : CompandContext) (nchan : Z)
      : result (Z * Z * list ChanParam * string) :=
    let chans := replicate (Z.to_nat nchan) (Build_ChanParam F32.zero F32.zero F32.zero) in
    '(tk, nb_attacks, chans) ←
      for_upto 0 (count_items (attacks s)) (parse_time set_attack attack)
        ({| tok_p := Some (attacks s); tok_saveptr := EmptyString |}, 0, chans);
    '(tk, nb_decays, chans) ←
      for_upto 0 (count_items (decays s)) (parse_time set_decay decay)
        ({| tok_p := Some (decays s); tok_saveptr := tok_saveptr tk |}, 0, chans);
    Ok (nb_attacks, nb_decays, chans, tok_saveptr tk).

  (** The loop over the points, on the zero-filled array: [num] and the
      array. *)
Definition parse_points (s : CompandContext) (saveptr : string)
      : result (Z * list segment) :=
    let nb_points := count_items (points s) in
    let segs := replicate (Z.to_nat ((nb_points + 4) * 2)) CompandSegment.zeroed in
    '(tk, num, segs) ←
      for_upto 0 nb_points parse_point
        ({| tok_p := Some (points s); tok_saveptr := saveptr |}, 0, segs);
    Ok (num, segs).

  (** From "Add 0,0 if necessary" to the end of the soft knee. *)
Definition build_curve (s : CompandContext) (num : Z) (segs : list segment)
      : result (list segment) :=
    let radius := F64.div (F64.mul (curve_dB s) F64.M_LN10) (F64.of_Z 20) in
    num ← add_origin num segs;
    segs ← add_tail (curve_dB s) segs;
    let num := num + 1 in
    '(num, segs) ← join_colinear (Z.to_nat (num - 2)) 2 num segs;
    segs ← to_log_domain (S (length segs)) (gain_dB s) 0 segs;
    soft_knee (S (length segs)) radius 4 segs.

  (** [s->delay_samples = s->delay * sample_rate;] and what follows. *)
Definition setup_delay (host : Host) (s : CompandContext) (nchan sample_rate : Z)
      : result CompandContext :=
    match F64.to_int (F64.mul (delay s) (F64.of_Z sample_rate)) with
    | None => Undefined IntConversion
    | Some n =>
        let s := set_delay_samples n s in
        if n <=? 0 then Ok (set_compand use_compand_nodelay s)
        else if negb (delay_frame_ok host) then Error ENOMEM
        else if negb (get_buffer_err host =? 0) then Error (EOTHER (get_buffer_err host))
        else
          let planes :=
            map (fun chan => map (fresh_sample host chan) (seq 0 (Z.to_nat n)))
                (map Z.of_nat (seq 0 (Z.to_nat nchan))) in
          let s := set_delay_frame
                     (Some {| nb_samples := n; extended_data := planes; frame_pts := 0 |})
                     s in
          Ok (set_compand use_compand_delay s)
    end.

  (** The exits of the function that call [uninit] leave an error code and
      nothing else; on success the context is the configured one. *)
Definition config_output (host : Host) (s : CompandContext) (nchan sample_rate : Z)
      : result CompandContext :=
    let nb_attacks := count_items (attacks s) in
    let nb_decays := count_items (decays s) in
    if nchan <=? 0 then Error EINVAL
    else if (nb_attacks >? nchan) || (nb_decays >? nchan) then Error EINVAL
    else if negb (arrays_ok host) then Error ENOMEM
    else
      '(nb_attacks, nb_decays, chans, saveptr) ← parse_times s nchan;
      if negb (nb_attacks =? nb_decays) then Error EINVAL
      else
        '(num, segs) ← parse_points s saveptr;
        segs ← build_curve s num segs;
        first ← read SegmentsOverrun segs 1;
        chans ← for_upto 0 nchan (init_channel sample_rate (initial_volume s)) chans;
        let s := set_nb_channels nchan s in
        let s := set_delay_frame None s in
        let s := set_channels chans s in
        let s := set_segments segs s in
        let s := set_in_min_lin
                   (F32.round (exp libm (F64.of_f32 (CompandSegment.x first)))) s in
        let s := set_out_min_lin
                   (F32.round (exp libm (F64.of_f32 (CompandSegment.y first)))) s in
        setup_delay host s nchan sample_rate.
End Setup.

(** ** Reference instances

    The theorems below hold for every C library.  To run the filter on
    concrete inputs, [Reference] gives the library on the arguments where
    its value is exact and known (C11 Annex F), and NaN elsewhere, and reads
    plain decimal numerals the way [sscanf] does. *)

Module Reference.
Definition two64 : double := Eval cbv in F64.of_Z 2.
Definition two32 : float := Eval cbv in F32.of_Z 2.
  (** The float nearest to ln 2 (0x3F317218). *)
Definition ln2f : float := S754_finite false 11629080 (-24).

Definition is_pos (v : spec_float) : bool := SFltb (S754_zero false) v.

  (** log 1 = 0, exp 0 = 1, pow(v, 0) = 1, atan2(0, w) = 0 for w > 0,
      cos 0 = 1 and sin 0 = 0 are exact; so is pow(v, 2.) where the square
      of [v] is a double, and [logf(2.0f)] rounds to [ln2f]. *)
Definition libm : Libm := {|
    logf v := if SFeqb v F32.one then F32.zero
              else if SFeqb v two32 then ln2f else S754_nan;
    expf v := if SFeqb v F32.zero then F32.one else S754_nan;
    exp v := if SFeqb v F64.zero then F64.one else S754_nan;
    pow v w := if SFeqb w F64.zero then F64.one
               else if SFeqb w two64 then F64.mul v v else S754_nan;
    atan2 v w := if SFeqb v F64.zero && is_pos w then v else S754_nan;
    cos v := if SFeqb v F64.zero then F64.one else S754_nan;
    sin v := if SFeqb v F64.zero then v else S754_nan
  |}.

Definition digit (c : ascii) : option Z :=
    let n := Z.of_nat (nat_of_ascii c) in
    if (48 <=? n) && (n <=? 57) then Some (n - 48) else None.

  (** The digits in front of [str]: their value after [acc], how many there
      are, and what follows them. *)
Fixpoint digits (str : string) (acc : Z) (n : nat) : Z * nat * string :=
    match str with
    | String c rest =>
        match digit c with
        | Some d => digits rest (10 * acc + d) (S n)
        | None => (acc, n, str)
        end
    | EmptyString => (acc, n, str)
    end.

  (** A numeral [-ddd.ddd] in front of [str], as [%f] reads it: the float
      nearest to it.  It is the quotient of two integers that are floats
      themselves, so one division rounds it correctly; numerals with more
      digits, exponents and the other forms [%f] accepts are left out. *)
Definition numeral (str : string) : option (float * string) :=
    let '(neg, str) :=
      match str with
      | String "-" rest => (true, rest)
      | String "+" rest => (false, rest)
      | _ => (false, str)
      end in
    let '(ip, ni, str) := digits str 0 0 in
    let '(m, nf, str) :=
      match str with
      | String "." rest => let '(m, nt, rest') := digits rest ip ni in (m, (nt - ni)%nat, rest')
      | _ => (ip, O, str)
      end in
    if (Nat.eqb (ni + nf) 0) || (16777216 <=? m) || (10 <? Z.of_nat nf) then None
    else
      let v := F32.div (F32.of_Z m) (F32.of_Z (10 ^ Z.of_nat nf)) in
      Some (if neg then SFopp v else v, str).

Definition sscanf_f (tstr : string) : option float :=
    match numeral tstr with
    | Some (v, _) => Some v
    | None => None
    end.

Definition sscanf_ff (tstr : string) : option (float * float) :=
    match numeral tstr with
    | Some (vx, String "/" rest) =>
        match numeral rest with
        | Some (vy, _) => Some (vx, vy)
        | None => None
        end
    | _ => None
    end.

  (** The private context as the framework hands it to the first
      [config_output]: the options, and zeroes. *)
Definition priv (attacks decays points : string)
      (curve_dB gain_dB initial_volume delay : double) : CompandContext :=
    {| nb_channels := 0; attacks := attacks; decays := decays; points := points;
       segments := []; channels := []; in_min_lin := F32.zero; out_min_lin := F32.zero;
       curve_dB := curve_dB; gain_dB := gain_dB; initial_volume := initial_volume;
       delay := delay; delay_frame := None; delay_samples := 0; delay_count := 0;
       delay_index := 0; pts := 0; compand := compand_unset |}.

  (** 0.01, the default of the option [soft-knee]. *)
Definition curve_default : double := S754_finite false 5764607523034235 (-59).

  (** A host whose allocations succeed, with zeroes in the fresh buffer. *)
Definition host : Host :=
    {| arrays_ok := true; delay_frame_ok := true; get_buffer_err := 0;
       fresh_sample := fun _ _ => F32.zero |}.

  (** One sample of the time base for each sample. *)
Definition av_rescale_q (n : Z) : Z := n.

Definition config (s : CompandContext) (nchan sample_rate : Z) : result CompandContext :=
    config_output libm sscanf_f sscanf_ff host s nchan sample_rate.

Definition frame_of (planes : list (list float)) : AVFrame :=
    {| nb_samples := match planes with p :: _ => Z.of_nat (length p) | [] => 0 end;
       extended_data := planes; frame_pts := 0 |}.

  (** The options of the examples: the one point 0/0 (unity gain), time
      constants 0 (coefficients 1.0), no gain, initial volume 0 dB. *)
Definition unity_options (delay : double) : CompandContext :=
    priv "0" "0" "0/0" curve_default F64.zero F64.zero delay.

  (** The context [config_output] makes of them. *)
Definition unity (delay : double) (nchan sample_rate : Z) : CompandContext :=
    match config (unity_options delay) nchan sample_rate with
    | Ok s => s
    | _ => unity_options delay
    end.

  (** 2^-11 and 2^-13 seconds: 3.90625 and 0.9765625 samples at 8000 Hz. *)
Definition delay_2_11 : double := S754_finite false 4503599627370496 (-63).
Definition delay_2_13 : double := S754_finite false 4503599627370496 (-65).

Definition half : float := S754_finite false 8388608 (-24).
Definition quarter : float := S754_finite false 8388608 (-25).
  (** The float nearest to 1e-10. *)
Definition tiny : float := S754_finite false 14411519 (-57).

End Reference.

(** ** Predicates of the specification *)

(** ** Reasoning about outcomes *)

(** [within E F post r]: a value of [r] satisfies [post], an error of [r] is
    one of [E], and an undefined behaviour of [r] is one of [F]. *)
Definition within (E : averror -> Prop) (F : fault -> Prop) {A : Type}
    (post : A -> Prop) (r : result A) : Prop :=
  match r with
  | Ok v => post v
  | Error e => E e
  | Undefined f => F f
  end.

(** [safe post r]: if [r] is a value it satisfies [post]; the only error is
    a failed allocation, and the only undefined behaviour is the curve
    evaluator leaving the segment array. *)
Definition safe {A : Type} (post : A -> Prop) (r : result A) : Prop :=
  within (fun e => e = ENOMEM) (fun f => f = SegmentsOverrun) post r.

(** [returns post r]: [r] is a value, and it satisfies [post]. *)
Definition returns {A : Type} (post : A -> Prop) (r : result A) : Prop :=
  within (fun _ => False) (fun _ => False) post r.

Definition planes_ok (nchan len : Z) (planes : list (list float)) : Prop :=
  Z.of_nat (length planes) = nchan /\
  Forall (fun p => Z.of_nat (length p) = len) planes.

Definition frame_ok (nchan : Z) (f : AVFrame) : Prop :=
  0 <= nb_samples f /\ planes_ok nchan (nb_samples f) (extended_data f).

Definition out_ok (nchan len : Z) (o : option AVFrame) : Prop :=
  match o with
  | None => True
  | Some f => nb_samples f = len /\ planes_ok nchan len (extended_data f)
  end.

(** The invariant of the delay line. *)
Record delay_wf (s : CompandContext) : Prop := {
  wf_samples : 0 < delay_samples s;
  wf_index : 0 <= delay_index s < delay_samples s;
  wf_count : 0 <= delay_count s <= delay_samples s;
  wf_nb_channels : 0 < nb_channels s;
  wf_channels : Z.of_nat (length (channels s)) = nb_channels s;
  wf_delay_frame :
    exists f, delay_frame s = Some f /\
              planes_ok (nb_channels s) (delay_samples s) (extended_data f)
}.

(** The index of the first sample of a frame that meets a full buffer. *)
Definition first_out (s : CompandContext) : Z :=
  Z.max 0 (delay_samples s - delay_count s).

(** The invariant of the sample loop of [compand_delay] in front of sample
    [j]; [out_in] is [out_frame] as the channel found it. *)
Definition sample_inv (s : CompandContext) (frame : AVFrame) (out_in : option AVFrame)
    (j : Z) (st : delay_locals) : Prop :=
  l_count st = Z.min (delay_samples s) (delay_count s + j) /\
  l_dindex st = (delay_index s + j) mod delay_samples s /\
  l_oindex st = Z.max 0 (j - first_out s) /\
  Z.of_nat (length (l_dbuf st)) = delay_samples s /\
  out_ok (nb_channels s) (nb_samples frame - first_out s) (l_out_frame st) /\
  (first_out s < j -> is_Some (l_out_frame st)) /\
  (j <= first_out s -> l_out_frame st = out_in).

(** What processing never touches: the mode, the capacity and the curve. *)
Definition same_config (s s' : CompandContext) : Prop :=
  delay_samples s' = delay_samples s /\ nb_channels s' = nb_channels s /\
  compand s' = compand s /\ segments s' = segments s /\
  in_min_lin s' = in_min_lin s /\ out_min_lin s' = out_min_lin s.

(** The invariant of the channel loop of [compand_delay] in front of channel
    [chan]. *)
Definition chan_inv (s : CompandContext) (frame : AVFrame) (chan : Z)
    (st : delay_chan_state) : Prop :=
  same_config s (c_ctx st) /\
  delay_count (c_ctx st) = delay_count s /\
  delay_index (c_ctx st) = delay_index s /\
  Z.of_nat (length (channels (c_ctx st))) = nb_channels s /\
  (exists f, delay_frame (c_ctx st) = Some f /\
             planes_ok (nb_channels s) (delay_samples s) (extended_data f)) /\
  out_ok (nb_channels s) (nb_samples frame - first_out s) (c_out_frame st) /\
  (nb_samples frame <= first_out s -> c_out_frame st = None) /\
  0 <= c_count st <= delay_samples s /\
  0 <= c_dindex st < delay_samples s /\
  (0 < chan ->
   c_count st = Z.min (delay_samples s) (delay_count s + nb_samples frame) /\
   c_dindex st = (delay_index s + nb_samples frame) mod delay_samples s /\
   (first_out s < nb_samples frame -> is_Some (c_out_frame st))).

(** What a call of [compand_delay] on a frame leaves behind. *)
Definition delay_post (s : CompandContext) (frame : AVFrame)
    (r : CompandContext * option AVFrame) : Prop :=
  let '(s', out) := r in
  delay_wf s' /\ same_config s s' /\
  delay_count s' = Z.min (delay_samples s) (delay_count s + nb_samples frame) /\
  delay_index s' = (delay_index s + nb_samples frame) mod delay_samples s /\
  out_ok (nb_channels s) (nb_samples frame - first_out s) out /\
  (first_out s < nb_samples frame -> is_Some out) /\
  (nb_samples frame <= first_out s -> out = None).

(** Sample [k] of a drained plane: slot [delay_index + k] of the channel's
    delay buffer, counted round the buffer, times the gain at the volume the
    channel has in [s]. *)
Definition drained_sample (libm : Libm) (s : CompandContext) (chan k : Z)
    (v : float) : Prop :=
  exists dframe dbuf cp d g,
    delay_frame s = Some dframe /\
    extended_data dframe !! Z.to_nat chan = Some dbuf /\
    channels s !! Z.to_nat chan = Some cp /\
    dbuf !! Z.to_nat ((delay_index s + k) mod delay_samples s) = Some d /\
    get_volume libm s (volume cp) = Ok g /\
    v = av_clipf (F32.mul d g) F32.neg_one F32.one.

Definition drained_plane (libm : Libm) (s : CompandContext) (chan upto : Z)
    (dst : list float) : Prop :=
  forall k, 0 <= k < upto ->
    exists v, dst !! Z.to_nat k = Some v /\ drained_sample libm s chan k v.

(** What a call of [compand_drain] leaves behind. *)
Definition drain_post (libm : Libm) (s : CompandContext)
    (r : CompandContext * option AVFrame) : Prop :=
  let '(s', out) := r in
  let m := Z.min 2048 (delay_count s) in
  delay_wf s' /\ same_config s s' /\
  channels s' = channels s /\
  delay_frame s' = delay_frame s /\
  delay_count s' = delay_count s - m /\
  delay_index s' = (delay_index s + m) mod delay_samples s /\
  exists frame,
    out = Some frame /\ nb_samples frame = m /\
    planes_ok (nb_channels s) m (extended_data frame) /\
    forall chan dst, 0 <= chan < nb_channels s ->
      extended_data frame !! Z.to_nat chan = Some dst ->
      drained_plane libm s chan m dst.

(** A frame of drained samples that starts [off] slots behind the
    [delay_index] of [s]. *)
Definition chunk_from (libm : Libm) (s : CompandContext) (off : Z) (f : AVFrame) : Prop :=
  0 <= nb_samples f <= 2048 /\
  planes_ok (nb_channels s) (nb_samples f) (extended_data f) /\
  forall chan dst k, 0 <= chan < nb_channels s ->
    extended_data f !! Z.to_nat chan = Some dst -> 0 <= k < nb_samples f ->
    exists v, dst !! Z.to_nat k = Some v /\ drained_sample libm s chan (off + k) v.

(** The frames of a drain, one behind the other. *)
Fixpoint chunks_from (libm : Libm) (s : CompandContext) (off : Z) (chunks : list AVFrame)
    : Prop :=
  match chunks with
  | [] => True
  | f :: rest => chunk_from libm s off f /\ chunks_from libm s (off + nb_samples f) rest
  end.

(** Any outcome at all: only the values are constrained. *)
Definition whenever {A : Type} (post : A -> Prop) (r : result A) : Prop :=
  within (fun _ => True) (fun _ => True) post r.


(** The items of an option string: what stands between the ['|'].  There is
    one more of them than there are ['|'], and some may be empty. *)
Fixpoint items (str : string) : list string :=
  match str with
  | EmptyString => [EmptyString]
  | String c rest =>
      if Ascii.eqb c "|" then EmptyString :: items rest
      else match items rest with
           | it :: its => String c it :: its
           | [] => [String c EmptyString]
           end
  end.

(** The tokeniser stands in front of the items [its]. *)
Definition at_items (tk : tokens) (its : list string) : Prop :=
  its = [] \/
  items (match tok_p tk with Some str => str | None => tok_saveptr tk end) = its.

(** The time constants a list of items gives: how many values are read, and
    whether one of them is negative. *)
Definition values_read (sscanf_f : string -> option float) (its : list string) : Z :=
  Z.of_nat (length (filter (fun it => is_Some (sscanf_f it)) its)).

Definition has_negative (sscanf_f : string -> option float) (its : list string) : bool :=
  existsb (fun it => match sscanf_f it with
                     | Some v => F32.ltb v F32.zero
                     | None => false
                     end) its.

(** Whether the loop over the points takes a list of items: every item must
    be read as a pair, and no [x] may be below the [x] in front of it;
    [prev] is the [x] of the point before the list. *)
Fixpoint points_accepted (sscanf_ff : string -> option (float * float))
    (prev : option float) (its : list string) : bool :=
  match its with
  | [] => true
  | it :: its' =>
      match sscanf_ff it with
      | None => false
      | Some (px, _) =>
          match prev with
          | Some q => negb (F32.gtb q px)
          | None => true
          end && points_accepted sscanf_ff (Some px) its'
      end
  end.

(** The last even slot of the array holds a knot whose [x] is zero. *)
Definition sentinel (len : nat) (segs : list segment) : Prop :=
  length segs = len /\
  exists sg, segs !! (len - 2)%nat = Some sg /\ F32.nonzero (CompandSegment.x sg) = false.


(** The capacity in the words of the specification,
    [round(delaySeconds * sampleRate)]: the integer nearest to the product,
    halves away from zero as C's [round] has them. *)
Definition nearest_int (v : double) : option Z :=
  match v with
  | S754_zero _ => Some 0
  | S754_finite s m e =>
      let q := if 0 <=? e then Z.shiftl (Zpos m) e
               else Z.shiftr (Zpos m + Z.shiftl 1 (- e - 1)) (- e) in
      Some (if s then - q else q)
  | _ => None
  end.

(** ** Further definitions *)

(** *** Without delay, in place

    When the frame is writable, [out_frame] is [frame]: [src] and [dst] are
    one array, and the loop reads each sample from the array it writes. *)

Section InPlace.
Variable libm : Libm.

Definition nodelay_sample_inplace (s : CompandContext) (i : Z)
      (st : ChanParam * list float) : result (ChanParam * list float) :=
    let '(cp, buf) := st in
    v ← read FrameOverrun buf i;
    let cp := update_volume cp (SFabs v) in
    g ← get_volume libm s (volume cp);
    buf ← write FrameOverrun buf i (av_clipf (F32.mul v g) F32.neg_one F32.one);
    Ok (cp, buf).

Definition nodelay_channel_inplace (chan : Z) (st : CompandContext * AVFrame)
      : result (CompandContext * AVFrame) :=
    let '(s, frame) := st in
    buf ← read FrameOverrun (extended_data frame) chan;
    cp ← read ChannelsOverrun (channels s) chan;
    '(cp, buf) ← for_upto 0 (nb_samples frame) (nodelay_sample_inplace s) (cp, buf);
    chans ← write ChannelsOverrun (channels s) chan cp;
    frame ← set_plane chan buf frame;
    Ok (set_channels chans s, frame).

Definition compand_nodelay_inplace (s : CompandContext) (frame : AVFrame)
      : result (CompandContext * option AVFrame) :=
    '(s, frame) ← for_upto 0 (nb_channels s) nodelay_channel_inplace (s, frame);
    Ok (s, Some frame).
End InPlace.

(** The envelope of a channel after the samples [src]: [update_volume] on
    the magnitude of one sample after the other. *)
Definition envelope (cp : ChanParam) (src : list float) : ChanParam :=
  fold_left (fun cp v => update_volume cp (SFabs v)) src cp.

(** Sample [i] of an output plane of [compand_nodelay]: the input sample
    times the gain at the envelope that includes it, clipped. *)
Definition nodelay_output (libm : Libm) (s : CompandContext) (cp : ChanParam)
    (src dst : list float) (i : nat) : Prop :=
  exists v g,
    src !! i = Some v /\
    get_volume libm s (volume (envelope cp (take (S i) src))) = Ok g /\
    dst !! i = Some (av_clipf (F32.mul v g) F32.neg_one F32.one).

(** What [compand_nodelay] leaves behind on channel [chan]. *)
Definition nodelay_plane (libm : Libm) (s s' : CompandContext) (frame out : AVFrame)
    (chan : Z) : Prop :=
  exists src dst cp,
    extended_data frame !! Z.to_nat chan = Some src /\
    extended_data out !! Z.to_nat chan = Some dst /\
    channels s !! Z.to_nat chan = Some cp /\
    channels s' !! Z.to_nat chan = Some (envelope cp src) /\
    forall i, (i < length src)%nat -> nodelay_output libm s cp src dst i.

(** The evaluator leaves the array on a sample of the plane [src]. *)
Definition gain_undefined (libm : Libm) (s : CompandContext) (cp : ChanParam)
    (src : list float) : Prop :=
  exists i, (i < length src)%nat /\
    get_volume libm s (volume (envelope cp (take (S i) src))) = Undefined SegmentsOverrun.

(** The one undefined behaviour of [compand_nodelay] on a frame that fits
    the context: the evaluator leaving the array on one of its samples. *)
Definition nodelay_overrun (libm : Libm) (s : CompandContext) (frame : AVFrame)
    (f : fault) : Prop :=
  f = SegmentsOverrun /\
  exists chan src cp,
    0 <= chan < nb_channels s /\
    extended_data frame !! Z.to_nat chan = Some src /\
    channels s !! Z.to_nat chan = Some cp /\
    gain_undefined libm s cp src.

(** What processing leaves alone in each mode besides the configuration:
    here the delay line and the timestamps. *)
Definition same_delay_line (s s' : CompandContext) : Prop :=
  delay_frame s' = delay_frame s /\ delay_count s' = delay_count s /\
  delay_index s' = delay_index s /\ pts s' = pts s.

Definition nodelay_post (libm : Libm) (s : CompandContext) (frame : AVFrame)
    (r : CompandContext * option AVFrame) : Prop :=
  let '(s', out) := r in
  same_config s s' /\ same_delay_line s s' /\
  Z.of_nat (length (channels s')) = nb_channels s /\
  exists o, out = Some o /\
    nb_samples o = nb_samples frame /\ frame_pts o = frame_pts frame /\
    planes_ok (nb_channels s) (nb_samples frame) (extended_data o) /\
    forall chan, 0 <= chan < nb_channels s -> nodelay_plane libm s s' frame o chan.

(** The invariant of the channel loop of [compand_nodelay] in front of
    channel [chan]. *)
Definition nodelay_chan_inv (libm : Libm) (s : CompandContext) (frame : AVFrame)
    (chan : Z) (st : CompandContext * AVFrame) : Prop :=
  let '(s', out) := st in
  same_config s s' /\ same_delay_line s s' /\
  Z.of_nat (length (channels s')) = nb_channels s /\
  nb_samples out = nb_samples frame /\ frame_pts out = frame_pts frame /\
  planes_ok (nb_channels s) (nb_samples frame) (extended_data out) /\
  (forall c, 0 <= c < chan -> nodelay_plane libm s s' frame out c) /\
  (forall c, chan <= c -> channels s' !! Z.to_nat c = channels s !! Z.to_nat c).

(** The samples of channel [chan] in a sequence of frames, one frame behind
    the other. *)
Definition stream_plane (chan : Z) (frames : list AVFrame) : list float :=
  concat (map (fun f => default [] (extended_data f !! Z.to_nat chan)) frames).

(** What [feed] leaves behind in the mode without delay. *)
Definition nodelay_stream_post (libm : Libm) (s : CompandContext) (frames : list AVFrame)
    (r : CompandContext * list AVFrame) : Prop :=
  let '(s', outs) := r in
  same_config s s' /\ same_delay_line s s' /\
  Z.of_nat (length (channels s')) = nb_channels s /\
  map nb_samples outs = map nb_samples frames /\
  map frame_pts outs = map frame_pts frames /\
  forall chan cp, 0 <= chan < nb_channels s -> channels s !! Z.to_nat chan = Some cp ->
    channels s' !! Z.to_nat chan = Some (envelope cp (stream_plane chan frames)) /\
    length (stream_plane chan outs) = length (stream_plane chan frames) /\
    forall i, (i < length (stream_plane chan frames))%nat ->
      nodelay_output libm s cp (stream_plane chan frames) (stream_plane chan outs) i.

(** The one undefined behaviour of such a stream. *)
Definition nodelay_stream_overrun (libm : Libm) (s : CompandContext)
    (frames : list AVFrame) (f : fault) : Prop :=
  f = SegmentsOverrun /\
  exists chan cp,
    0 <= chan < nb_channels s /\ channels s !! Z.to_nat chan = Some cp /\
    gain_undefined libm s cp (stream_plane chan frames).

(** The tokens of an option string: its items that are not empty, which are
    what [strtok_r] returns, one call after the other. *)
Definition is_token (it : string) : bool :=
  match it with EmptyString => false | String _ _ => true end.

Definition tokens_of (str : string) : list string := List.filter is_token (items str).

(** The tokeniser stands in front of the tokens [toks]. *)
Definition at_tokens (tk : tokens) (toks : list string) : Prop :=
  tokens_of (match tok_p tk with Some str => str | None => tok_saveptr tk end) = toks.

(** The value the loop over the time constants leaves in channel [k]: what
    is read from item [k], and the zero of the allocation where there is no
    such item or nothing is read from it. *)
Definition time_value (sscanf_f : string -> option float) (its : list string) (k : nat)
    : float :=
  match its !! k with
  | Some it => match sscanf_f it with Some v => v | None => F32.zero end
  | None => F32.zero
  end.

(** What [n] iterations from channel [i] on make of channel [j]. *)
Definition time_slot (sscanf_f : string -> option float)
    (set : float -> ChanParam -> ChanParam) (toks : list string) (i : Z) (n : nat)
    (j : nat) (cp : ChanParam) : ChanParam :=
  if (i <=? Z.of_nat j) && (Z.of_nat j <? i + Z.of_nat n) then
    match toks !! (j - Z.to_nat i)%nat with
    | Some t => match sscanf_f t with Some v => set v cp | None => cp end
    | None => cp
    end
  else cp.

(** A value that is not below zero: a NaN, or a value whose sign bit is
    clear. *)
Definition sign_clear (v : spec_float) : bool :=
  match v with
  | S754_zero s | S754_infinity s | S754_finite s _ _ => negb s
  | S754_nan => true
  end.


(** The timestamps of the mode with delay: an emitted frame carries the
    [pts] the context had, and the context moves on by the frame's samples
    in the time base. *)
Definition stamped (rescale : Z -> Z) (pts0 : Z) (out : option AVFrame) (pts' : Z) : Prop :=
  match out with
  | None => pts' = pts0
  | Some f => frame_pts f = pts0 /\ pts' = pts0 + rescale (nb_samples f)
  end.

(** A finite number, the zero with the sign bit set apart. *)
Definition finite_level (v : spec_float) : bool :=
  match v with
  | S754_zero s => negb s
  | S754_finite _ _ _ => true
  | _ => false
  end.

Definition finite_coefficient (v : spec_float) : bool :=
  match v with
  | S754_zero _ | S754_finite _ _ _ => true
  | _ => false
  end.

(** No error, and no step of the evaluator outside its array. *)
Definition unevaluated {A : Type} (r : result A) : Prop :=
  within (fun _ => False) (fun f => f <> SegmentsOverrun) (fun _ => True) r.

(** The delay buffer [dbuf] of capacity [D] after [M] samples of the
    channel's history [X]: the last [D] of them (all, while there are
    fewer) stand in the slots their number gives modulo [D]. *)
Definition buffered (D M : Z) (X dbuf : list float) : Prop :=
  forall k, 0 <= k -> M - D <= k < M ->
            dbuf !! Z.to_nat (k mod D) = X !! Z.to_nat k.

(** Sample [t] of the output of a channel in the mode with delay [D]:
    sample [t] of the input, times the gain at the envelope that has
    followed the input for [D] samples more, clipped. *)
Definition delayed_output (libm : Libm) (s : CompandContext) (cp : ChanParam) (D : Z)
    (X : list float) (t : Z) (y : float) : Prop :=
  exists x g,
    X !! Z.to_nat t = Some x /\
    get_volume libm s (volume (envelope cp (take (Z.to_nat (t + D + 1)) X))) = Ok g /\
    y = av_clipf (F32.mul x g) F32.neg_one F32.one.

(** The content of the variables of the sample loop of [compand_delay] in
    front of sample [j] of a frame that follows [M] samples: [X] is the
    history of the channel with the frame's plane, [cp0] the envelope the
    history started from, [fo] the first sample of the frame that gives
    output. *)
Definition sample_content (libm : Libm) (s : CompandContext) (cp0 : ChanParam)
    (chan M fo : Z) (X : list float) (j : Z) (st : delay_locals) : Prop :=
  l_cp st = envelope cp0 (take (Z.to_nat (M + j)) X) /\
  buffered (delay_samples s) (M + j) X (l_dbuf st) /\
  forall i, fo <= i < j ->
    exists f dst y,
      l_out_frame st = Some f /\ extended_data f !! Z.to_nat chan = Some dst /\
      dst !! Z.to_nat (i - fo) = Some y /\
      delayed_output libm s cp0 (delay_samples s) X (M + i - delay_samples s) y.

(** The planes of the output frame that a channel does not own stay as they
    are while its samples are processed. *)
Definition other_planes (chan : Z) (out_in out : option AVFrame) : Prop :=
  forall f, out_in = Some f ->
    exists f', out = Some f' /\
      forall c, c <> Z.to_nat chan -> extended_data f' !! c = extended_data f !! c.

(** The delay line of a context after [M] samples of the histories [hist],
    the envelopes having started from [cp0]. *)
Definition queue_state (cp0 : Z -> ChanParam) (hist : Z -> list float) (M : Z)
    (s : CompandContext) : Prop :=
  0 <= M /\
  delay_count s = Z.min (delay_samples s) M /\
  delay_index s = M mod delay_samples s /\
  forall c, 0 <= c < nb_channels s ->
    channels s !! Z.to_nat c = Some (envelope (cp0 c) (take (Z.to_nat M) (hist c))) /\
    exists dframe dbuf,
      delay_frame s = Some dframe /\ extended_data dframe !! Z.to_nat c = Some dbuf /\
      buffered (delay_samples s) M (hist c) dbuf.

(** The samples a frame gives on channel [c], the frame following [M]
    samples. *)
Definition frame_output (libm : Libm) (s : CompandContext) (cp0 : Z -> ChanParam)
    (hist : Z -> list float) (M : Z) (frame : AVFrame) (out : option AVFrame) (c : Z)
    : Prop :=
  let D := delay_samples s in
  let fo := Z.max 0 (D - Z.min D M) in
  forall i, fo <= i < nb_samples frame ->
    exists f dst y,
      out = Some f /\ extended_data f !! Z.to_nat c = Some dst /\
      dst !! Z.to_nat (i - fo) = Some y /\
      delayed_output libm s (cp0 c) D (hist c) (M + i - D) y.

(** The content of the variables of the channel loop of [compand_delay] in
    front of channel [chan]. *)
Definition channel_content (libm : Libm) (s : CompandContext) (cp0 : Z -> ChanParam)
    (hist : Z -> list float) (M : Z) (frame : AVFrame) (chan : Z)
    (st : delay_chan_state) : Prop :=
  (forall c, 0 <= c < chan ->
     channels (c_ctx st) !! Z.to_nat c
     = Some (envelope (cp0 c) (take (Z.to_nat (M + nb_samples frame)) (hist c))) /\
     (exists dframe dbuf,
        delay_frame (c_ctx st) = Some dframe /\
        extended_data dframe !! Z.to_nat c = Some dbuf /\
        buffered (delay_samples s) (M + nb_samples frame) (hist c) dbuf) /\
     frame_output libm s cp0 hist M frame (c_out_frame st) c) /\
  (forall c, chan <= c ->
     channels (c_ctx st) !! Z.to_nat c = channels s !! Z.to_nat c /\
     forall dframe, delay_frame s = Some dframe ->
       exists dframe', delay_frame (c_ctx st) = Some dframe' /\
         extended_data dframe' !! Z.to_nat c = extended_data dframe !! Z.to_nat c).

(** What [feed] makes of the queue, [M] samples having gone before. *)
Definition delay_stream_post (libm : Libm) (s : CompandContext) (cp0 : Z -> ChanParam)
    (hist : Z -> list float) (M : Z) (frames : list AVFrame)
    (r : CompandContext * list AVFrame) : Prop :=
  let '(s', outs) := r in
  let D := delay_samples s in
  let N := M + total_samples frames in
  delay_wf s' /\ same_config s s' /\ queue_state cp0 hist N s' /\
  forall c, 0 <= c < nb_channels s ->
    Z.of_nat (length (stream_plane c outs)) = Z.max 0 (N - D) - Z.max 0 (M - D) /\
    forall t, Z.max 0 (M - D) <= t < N - D ->
      exists y, stream_plane c outs !! Z.to_nat (t - Z.max 0 (M - D)) = Some y /\
                delayed_output libm s (cp0 c) D (hist c) t y.

(** The undefined behaviours of the setup: the NULL that [strtok_r] returns
    handed to [sscanf], and a delay whose number of samples is no [int]. *)
Definition setup_fault (f : fault) : Prop := f = NullString \/ f = IntConversion.

(** The error codes of the setup: [EINVAL], [ENOMEM], and what
    [av_frame_get_buffer] returns when that is not zero. *)
Definition setup_error (host : Host) (e : averror) : Prop :=
  e = EINVAL \/ e = ENOMEM \/
  e = EOTHER (get_buffer_err host) /\ get_buffer_err host <> 0.

(** ** Properties of the arithmetic *)

Lemma compare_cont_antisym_eq (p q : positive) :
  Pos.compare_cont Eq q p = CompOpp (Pos.compare_cont Eq p q).
Proof. symmetry. apply (Pos.compare_cont_antisym p q Eq). Qed.

Lemma SFcompare_antisym (v w : spec_float) :
  SFcompare w v = option_map CompOpp (SFcompare v w).
Proof.
  destruct v as [s1| s1| |s1 m1 e1], w as [s2| s2| |s2 m2 e2]; simpl; try reflexivity;
    try (destruct s1; reflexivity); try (destruct s2; reflexivity);
    try (destruct s1, s2; reflexivity).
  destruct s1, s2; simpl; try reflexivity;
    rewrite (Z.compare_antisym e1 e2); destruct (e1 ?= e2); simpl; try reflexivity;
    rewrite compare_cont_antisym_eq; try reflexivity.
Qed.



Lemma SFleb_not_gt (v w : spec_float) : SFleb v w = true -> SFltb w v = false.
Proof.
  unfold SFleb, SFltb. rewrite (SFcompare_antisym v w).
  destruct (SFcompare v w) as [[]|]; simpl; congruence.
Qed.

(** multiplication by one *)
Lemma digits2_pos_shift (m : positive) (k : nat) :
  Zpos (digits2_pos (Nat.iter k xO m)) = Zpos (digits2_pos m) + Z.of_nat k.
Proof.
  induction k as [|k IH]; [simpl; lia|].
  change (Nat.iter (S k) xO m) with (xO (Nat.iter k xO m)).
  cbn [digits2_pos]. rewrite Pos2Z.inj_succ, IH. lia.
Qed.

Lemma iter_pos_nat {A} (f : A -> A) (p : positive) (v : A) :
  SpecFloat.iter_pos f p v = Nat.iter (Pos.to_nat p) f v.
Proof.
  revert v. induction p as [p IH|p IH|]; intros v; cbn [SpecFloat.iter_pos].
  - rewrite !IH. rewrite <- Nat.iter_succ_r, <- Nat.iter_add. f_equal. lia.
  - rewrite !IH. rewrite <- Nat.iter_add. f_equal. lia.
  - reflexivity.
Qed.

Lemma shr_1_shift (m : positive) (k : nat) :
  Nat.iter k shr_1 {| shr_m := Zpos (Nat.iter k xO m); shr_r := false; shr_s := false |}
  = {| shr_m := Zpos m; shr_r := false; shr_s := false |}.
Proof.
  induction k as [|k IH]; [reflexivity|].
  rewrite Nat.iter_succ_r. 
  change (Nat.iter (S k) xO m) with (xO (Nat.iter k xO m)). simpl shr_1. exact IH.
Qed.

Lemma mul_pow2 (m : positive) (k : nat) :
  (m * Nat.iter k xO 1 = Nat.iter k xO m)%positive.
Proof.
  induction k as [|k IH]; simpl; [lia|]. rewrite <- IH. lia.
Qed.

Lemma F32_mul_one (d : spec_float) : F32.valid d = true -> F32.mul d F32.one = d.
Proof.
  destruct d as [s|s| |s m e]; intros Hv; try (destruct s; reflexivity); try reflexivity.
  unfold F32.valid, valid_binary, bounded, canonical_mantissa in Hv.
  apply andb_true_iff in Hv as [Hc Hb]. apply Z.eqb_eq in Hc. apply Z.leb_le in Hb.
  unfold F32.mul, F32.one, SFmul.
  change 8388608%positive with (Nat.iter 23 xO 1%positive).
  rewrite mul_pow2. rewrite xorb_false_r.
  unfold binary_round_aux, shr_fexp.
  unfold Zdigits2. rewrite digits2_pos_shift.
  replace (Z.pos (digits2_pos m) + Z.of_nat 23 + (e + -23)) with (Z.pos (digits2_pos m) + e) by lia.
  rewrite Hc. replace (e - (e + -23)) with 23 by lia.
  unfold shr. rewrite iter_pos_nat. change (Pos.to_nat 23) with 23%nat.
  unfold shr_record_of_loc. rewrite shr_1_shift.
  cbn [shr_m loc_of_shr_record round_nearest_even].
  replace (e + -23 + 23) with e by lia.
  rewrite Hc. rewrite Z.sub_diag. cbn [shr_m].
  apply Z.leb_le in Hb. rewrite Hb. reflexivity.
Qed.

Lemma within_bind (E : averror -> Prop) (F : fault -> Prop) {A B : Type}
    (r : result A) (k : A -> result B) (post : B -> Prop) :
  within E F (fun v => within E F post (k v)) r -> within E F post (r ≫= k).
Proof. destruct r; simpl; auto. Qed.

Lemma within_mono (E : averror -> Prop) (F : fault -> Prop) {A : Type}
    (P Q : A -> Prop) (r : result A) :
  (forall v, P v -> Q v) -> within E F P r -> within E F Q r.
Proof. destruct r; simpl; auto. Qed.

Lemma returns_within (E : averror -> Prop) (F : fault -> Prop) {A : Type}
    (P : A -> Prop) (r : result A) :
  returns P r -> within E F P r.
Proof. destruct r; simpl; tauto. Qed.

Lemma safe_bind {A B : Type} (r : result A) (k : A -> result B) (post : B -> Prop) :
  safe (fun v => safe post (k v)) r -> safe post (r ≫= k).
Proof. apply within_bind. Qed.

Lemma returns_bind {A B : Type} (r : result A) (k : A -> result B) (post : B -> Prop) :
  returns (fun v => returns post (k v)) r -> returns post (r ≫= k).
Proof. apply within_bind. Qed.

Lemma safe_mono {A : Type} (P Q : A -> Prop) (r : result A) :
  (forall v, P v -> Q v) -> safe P r -> safe Q r.
Proof. apply within_mono. Qed.

Lemma returns_mono {A : Type} (P Q : A -> Prop) (r : result A) :
  (forall v, P v -> Q v) -> returns P r -> returns Q r.
Proof. apply within_mono. Qed.

Lemma returns_safe {A : Type} (P : A -> Prop) (r : result A) : returns P r -> safe P r.
Proof. apply returns_within. Qed.

Lemma returns_Ok {A : Type} (P : A -> Prop) (r : result A) :
  returns P r <-> exists v, r = Ok v /\ P v.
Proof.
  destruct r; simpl; split; try tauto; eauto.
  - intros (w & [= <-] & H). exact H.
  - intros (w & [=] & _).
  - intros (w & [=] & _).
Qed.

Lemma bind_Ok {A B : Type} (r : result A) (k : A -> result B) (w : B) :
  r ≫= k = Ok w -> exists v, r = Ok v /\ k v = Ok w.
Proof. destruct r; simpl; intros H; try discriminate. eauto. Qed.

Lemma read_returns {A : Type} (f : fault) (arr : list A) (i : Z) :
  0 <= i < Z.of_nat (length arr) ->
  returns (fun v => arr !! Z.to_nat i = Some v) (read f arr i).
Proof.
  intros Hi. unfold read. destruct (Z.ltb_spec i 0); [lia|].
  destruct (lookup_lt_is_Some_2 arr (Z.to_nat i)) as [v Hv]; [lia|].
  rewrite Hv. reflexivity.
Qed.

Lemma write_returns {A : Type} (f : fault) (arr : list A) (i : Z) (v : A) :
  0 <= i < Z.of_nat (length arr) ->
  write f arr i v = Ok (<[Z.to_nat i := v]> arr).
Proof.
  intros Hi. unfold write.
  destruct (Z.leb_spec 0 i); [|lia]. destruct (Z.ltb_spec i (Z.of_nat (length arr))); [|lia].
  reflexivity.
Qed.

Lemma for_range_within (E : averror -> Prop) (F : fault -> Prop) {St : Type}
    (I : Z -> St -> Prop) (body : Z -> St -> result St) (n : nat) (i : Z) (st : St) :
  I i st ->
  (forall j st, i <= j < i + Z.of_nat n -> I j st -> within E F (I (j + 1)) (body j st)) ->
  within E F (I (i + Z.of_nat n)) (for_range n i body st).
Proof.
  revert i st. induction n as [|n IH]; intros i st Hi Hbody.
  - simpl. rewrite Z.add_0_r. exact Hi.
  - cbn [for_range]. apply within_bind.
    eapply within_mono; [|apply (Hbody i st); [lia|exact Hi]].
    intros st' Hst'. replace (i + Z.of_nat (S n)) with (i + 1 + Z.of_nat n) by lia.
    apply IH; [exact Hst'|]. intros j st'' Hj. apply Hbody. lia.
Qed.

Lemma for_upto_within (E : averror -> Prop) (F : fault -> Prop) {St : Type}
    (I : Z -> St -> Prop) (body : Z -> St -> result St) (lo hi : Z) (st : St) :
  lo <= hi -> I lo st ->
  (forall j st, lo <= j < hi -> I j st -> within E F (I (j + 1)) (body j st)) ->
  within E F (I hi) (for_upto lo hi body st).
Proof.
  intros Hle Hi Hbody. unfold for_upto.
  replace hi with (lo + Z.of_nat (Z.to_nat (hi - lo))) at 1 by lia.
  apply for_range_within; [exact Hi|]. intros j st' Hj. apply Hbody. lia.
Qed.

Lemma for_upto_safe {St : Type} (I : Z -> St -> Prop) (body : Z -> St -> result St)
    (lo hi : Z) (st : St) :
  lo <= hi -> I lo st ->
  (forall j st, lo <= j < hi -> I j st -> safe (I (j + 1)) (body j st)) ->
  safe (I hi) (for_upto lo hi body st).
Proof. apply for_upto_within. Qed.

Lemma MOD_mod (v n : Z) : 0 <= v < n -> MOD (v + 1) n = (v + 1) mod n.
Proof.
  intros Hv. unfold MOD. destruct (Z.geb_spec (v + 1) n).
  - assert (v + 1 = n) as -> by lia. rewrite Z.sub_diag, Z_mod_same_full. reflexivity.
  - rewrite Z.mod_small; lia.
Qed.

Lemma find_segment_safe (rest : list segment) (in_log : spec_float) (i : Z) :
  safe (fun _ => True) (find_segment rest in_log i).
Proof.
  revert i. induction rest as [|sg rest IH]; intros i; simpl; [reflexivity|].
  destruct (F32.leb _ _); simpl; auto.
Qed.

Lemma read_segments_safe (segs : list segment) (i : Z) :
  safe (fun _ => True) (read SegmentsOverrun segs i).
Proof. unfold read. destruct (i <? 0); simpl; auto. destruct (segs !! _); simpl; auto. Qed.

Lemma get_volume_safe (libm : Libm) (s : CompandContext) (v : spec_float) :
  safe (fun _ => True) (get_volume libm s v).
Proof.
  unfold get_volume. destruct (F32.ltb _ _); simpl; [exact I|].
  apply safe_bind. eapply safe_mono; [|apply find_segment_safe].
  intros i _. apply safe_bind. eapply safe_mono; [|apply read_segments_safe].
  intros cs _. exact I.
Qed.

(** ** The delay line *)

Lemma planes_ok_replicate (nchan len : Z) :
  0 <= nchan -> 0 <= len ->
  planes_ok nchan len (replicate (Z.to_nat nchan) (replicate (Z.to_nat len) F32.zero)).
Proof.
  intros Hn Hl. split.
  - rewrite length_replicate. lia.
  - apply Forall_replicate. rewrite length_replicate. lia.
Qed.

Lemma planes_ok_insert (nchan len : Z) (planes : list (list spec_float)) (i : nat)
    (p : list spec_float) :
  planes_ok nchan len planes -> Z.of_nat (length p) = len ->
  planes_ok nchan len (<[i := p]> planes).
Proof.
  intros [Hn Hall] Hp. split.
  - rewrite length_insert. exact Hn.
  - apply Forall_insert; assumption.
Qed.

Lemma planes_ok_lookup (nchan len : Z) (planes : list (list spec_float)) (i : nat)
    (p : list spec_float) :
  planes_ok nchan len planes -> planes !! i = Some p -> Z.of_nat (length p) = len.
Proof. intros [_ Hall] Hp. exact (Forall_lookup_1 _ _ _ _ Hall Hp). Qed.

Lemma set_plane_returns (nchan len chan : Z) (f : AVFrame) (p : list spec_float) :
  planes_ok nchan len (extended_data f) -> 0 <= chan < nchan ->
  Z.of_nat (length p) = len ->
  returns (fun f' => nb_samples f' = nb_samples f /\ frame_pts f' = frame_pts f /\
                     extended_data f' = <[Z.to_nat chan := p]> (extended_data f) /\
                     planes_ok nchan len (extended_data f'))
          (set_plane chan p f).
Proof.
  intros Hpl Hc Hp. unfold set_plane.
  rewrite write_returns by (destruct Hpl; lia). simpl.
  repeat split; try reflexivity.
  - rewrite length_insert. apply Hpl.
  - apply Forall_insert; [apply Hpl|exact Hp].
Qed.

Lemma delay_sample_safe (libm : Libm) (rescale : Z -> Z) (s : CompandContext)
    (frame : AVFrame) (alloc_ok : bool) (chan : Z) (src : list spec_float)
    (out_in : option AVFrame) (j : Z) (st : delay_locals) :
  0 < delay_samples s -> 0 <= delay_count s <= delay_samples s ->
  0 <= chan < nb_channels s ->
  Z.of_nat (length src) = nb_samples frame ->
  0 <= j < nb_samples frame ->
  sample_inv s frame out_in j st ->
  safe (sample_inv s frame out_in (j + 1))
       (delay_sample libm rescale s frame alloc_ok chan src j st).
Proof.
  intros Hds Hc Hchan Hsrc Hj (Hcount & Hdi & Hoi & Hdb & Hout & Hsome & Hnone).
  assert (Hdi' : 0 <= l_dindex st < delay_samples s)
    by (rewrite Hdi; apply Z.mod_pos_bound; lia).
  unfold delay_sample.
  apply safe_bind. apply returns_safe.
  eapply returns_mono; [|apply read_returns; lia]. intros inp _.
  (* the branch on [count >= s->delay_samples] *)
  set (cp := update_volume (l_cp st) (SFabs inp)).
  assert (Hnext : (l_dindex st + 1) mod delay_samples s
                  = (delay_index s + (j + 1)) mod delay_samples s).
  { rewrite Hdi, Z.add_mod_idemp_l by lia. f_equal. lia. }
  destruct (Z.geb_spec (l_count st) (delay_samples s)) as [Hfull|Hfill].
  - assert (Hj0 : first_out s <= j) by (unfold first_out; lia).
    apply safe_bind.
    assert (Hframe : safe (fun '(f, _) =>
              nb_samples f = nb_samples frame - first_out s /\
              planes_ok (nb_channels s) (nb_samples frame - first_out s) (extended_data f))
            (match l_out_frame st with
             | Some f => Ok (f, l_pts st)
             | None =>
                 if alloc_ok
                 then Ok ({| nb_samples := nb_samples frame - j;
                             extended_data :=
                               extended_data
                                 (ff_get_audio_buffer (nb_channels s) (nb_samples frame - j));
                             frame_pts := l_pts st |},
                          l_pts st + rescale (nb_samples frame - j))
                 else Error ENOMEM
             end)).
    { destruct (l_out_frame st) as [f|] eqn:Hf.
      - exact Hout.
      - assert (j = first_out s) as ->.
        { destruct (Z.lt_ge_cases (first_out s) j) as [Hlt|]; [|lia].
          destruct (Hsome Hlt) as [? [=]]. }
        destruct alloc_ok; simpl; [|reflexivity].
        split; [reflexivity|]. apply planes_ok_replicate; lia. }
    apply safe_bind. eapply safe_mono; [|exact Hframe].
    intros [out_frame pts'] [Hnb Hplanes]. simpl.
    apply safe_bind. apply returns_safe.
    eapply returns_mono; [|apply read_returns; destruct Hplanes; lia].
    intros dst Hdst. simpl in Hdst.
    apply safe_bind. apply returns_safe.
    eapply returns_mono; [|apply read_returns; lia]. intros d _.
    apply safe_bind. eapply safe_mono; [|apply get_volume_safe]. intros g _.
    pose proof (planes_ok_lookup _ _ _ _ _ Hplanes Hdst) as Hlen.
    rewrite (write_returns FrameOverrun dst) by lia. simpl.
    apply safe_bind. apply returns_safe.
    eapply returns_mono;
      [|eapply set_plane_returns; [exact Hplanes|lia|rewrite length_insert; exact Hlen]].
    intros out' (Hnb' & _ & _ & Hplanes'). simpl.
    rewrite write_returns by lia. simpl.
    rewrite MOD_mod by lia.
    unfold sample_inv, out_ok. split_and!; simpl; try lia; try assumption.
    + rewrite length_insert. exact Hdb.
    + split; [lia|exact Hplanes'].
    + intros _. eauto.
  - assert (Hj0 : j < first_out s) by (unfold first_out; lia).
    simpl. rewrite write_returns by lia. simpl.
    rewrite MOD_mod by lia.
    unfold sample_inv. split_and!; simpl; try lia; try assumption.
    + rewrite length_insert. exact Hdb.
    + intros _. apply Hnone. lia.
Qed.

Lemma same_config_refl (s : CompandContext) : same_config s s.
Proof. repeat split. Qed.

Lemma delay_channel_safe (libm : Libm) (rescale : Z -> Z) (s : CompandContext)
    (frame : AVFrame) (alloc_ok : bool) (chan : Z) (st : delay_chan_state) :
  delay_wf s -> frame_ok (nb_channels s) frame ->
  0 <= chan < nb_channels s ->
  chan_inv s frame chan st ->
  safe (chan_inv s frame (chan + 1)) (delay_channel libm rescale frame alloc_ok chan st).
Proof.
  intros Hwf [Hn Hfr] Hchan
    (Hcfg & Hc & Hd & Hch & (dframe & Hdf & Hplanes) & Hout & Hnone & Hcb & Hdb & _).
  destruct Hcfg as (Hds & Hnc & Hcfg).
  destruct Hwf as [Hds0 Hidx Hcnt Hnch _ _].
  unfold delay_channel. rewrite Hdf.
  apply safe_bind, returns_safe.
  eapply returns_mono; [|apply read_returns; destruct Hfr; lia]. intros src Hsrc.
  apply safe_bind, returns_safe.
  eapply returns_mono; [|apply read_returns; destruct Hplanes; lia]. intros dbuf Hdbuf.
  apply safe_bind, returns_safe.
  eapply returns_mono; [|apply read_returns; lia]. intros cp _.
  apply safe_bind.
  eapply safe_mono;
    [|apply (for_upto_safe (sample_inv (c_ctx st) frame (c_out_frame st)));
      [exact Hn| |]].
  - intros l (Hlc & Hld & Hlo & Hldb & Hlout & Hlsome & Hlnone).
    unfold first_out in *. rewrite Hds, Hc, Hd, Hnc in *.
    rewrite (write_returns DelayBufferOverrun (extended_data dframe))
      by (destruct Hplanes; lia). simpl.
    rewrite write_returns by lia. simpl.
    unfold chan_inv, same_config, first_out. simpl.
    split_and!; try assumption; try lia.
    + apply Hcfg.
    + apply Hcfg.
    + apply Hcfg.
    + apply Hcfg.
    + rewrite length_insert. exact Hch.
    + eexists. split; [reflexivity|]. simpl.
      apply planes_ok_insert; [exact Hplanes|exact Hldb].
    + intros Hle. rewrite Hlnone by lia. apply Hnone. lia.
    + rewrite Hld. apply Z.mod_pos_bound. lia.
    + rewrite Hld. apply Z.mod_pos_bound. lia.
    + intros _. split_and!; assumption.
  - unfold sample_inv, first_out. simpl. rewrite Hds, Hc, Hd, Hnc.
    split_and!; try lia.
    + rewrite Z.add_0_r, Z.mod_small; lia.
    + exact (planes_ok_lookup _ _ _ _ _ Hplanes Hdbuf).
    + exact Hout.
    + reflexivity.
  - intros j l Hj Hinv. apply delay_sample_safe; try assumption; try lia.
    exact (planes_ok_lookup _ _ _ _ _ Hfr Hsrc).
Qed.

Lemma compand_delay_safe (libm : Libm) (rescale : Z -> Z) (s : CompandContext)
    (frame : AVFrame) (alloc_ok : bool) :
  delay_wf s -> frame_ok (nb_channels s) frame ->
  safe (delay_post s frame) (compand_delay libm rescale s frame alloc_ok).
Proof.
  intros Hwf Hfr. unfold compand_delay.
  apply safe_bind.
  eapply safe_mono;
    [|apply (for_upto_safe (chan_inv s frame));
      [destruct Hwf; lia| |intros j st Hj; apply delay_channel_safe; assumption]].
  - intros st (Hcfg & Hc & Hd & Hch & Hdf & Hout & Hnone & Hcb & Hdb & Hlast).
    destruct (Hlast ltac:(destruct Hwf; lia)) as (Hcount & Hdindex & Hsome).
    simpl. destruct Hcfg as (Hds & Hnc & Hcfg).
    split_and!; try assumption.
    + constructor; simpl; try lia; try (destruct Hwf; lia).
      rewrite Hnc, Hds. exact Hdf.
    + unfold same_config. simpl. split_and!; try assumption; apply Hcfg.
  - destruct Hwf.
    unfold chan_inv. simpl. split_and!; try lia; try reflexivity; try assumption.
    apply same_config_refl.
Qed.

(** ** The drain *)

Lemma FFMIN_min (v w : Z) : FFMIN v w = Z.min v w.
Proof. unfold FFMIN. destruct (Z.gtb_spec v w); lia. Qed.

Lemma get_volume_ext (libm : Libm) (s s' : CompandContext) (v : spec_float) :
  segments s' = segments s -> in_min_lin s' = in_min_lin s ->
  out_min_lin s' = out_min_lin s ->
  get_volume libm s' v = get_volume libm s v.
Proof. intros H1 H2 H3. unfold get_volume. rewrite H1, H2, H3. reflexivity. Qed.

Section Drain.
Variable E : averror -> Prop.
Variable F : fault -> Prop.
Variable libm : Libm.
Variable rescale : Z -> Z.

  (** The invariant of the sample loop of [compand_drain]. *)
Let drain_inv (s : CompandContext) (chan m : Z) (j : Z) (st : Z * list spec_float) : Prop :=
    fst st = (delay_index s + j) mod delay_samples s /\
    Z.of_nat (length (snd st)) = m /\
    drained_plane libm s chan j (snd st).

Lemma drain_sample_within (s : CompandContext) (dframe : AVFrame)
      (dbuf : list spec_float) (cp : ChanParam) (chan m j : Z)
      (st : Z * list spec_float) :
    0 < delay_samples s ->
    delay_frame s = Some dframe ->
    extended_data dframe !! Z.to_nat chan = Some dbuf ->
    channels s !! Z.to_nat chan = Some cp ->
    Z.of_nat (length dbuf) = delay_samples s ->
    within E F (fun _ => True) (get_volume libm s (volume cp)) ->
    0 <= j < m ->
    drain_inv s chan m j st ->
    within E F (drain_inv s chan m (j + 1)) (drain_sample libm s dbuf cp j st).
Proof using Type.
    intros Hds Hdf Hdbuf Hcp Hlen Hg Hj. destruct st as [dindex dst].
    intros (Hdi & Hdst & Hvals). simpl in Hdi, Hdst, Hvals.
    assert (Hdi' : 0 <= dindex < delay_samples s)
      by (rewrite Hdi; apply Z.mod_pos_bound; lia).
    unfold drain_sample.
    apply within_bind, returns_within.
    eapply returns_mono; [|apply read_returns; lia]. intros d Hd.
    destruct (get_volume libm s (volume cp)) as [g| |] eqn:Hgv; simpl in Hg |- *;
      try exact Hg.
    rewrite write_returns by lia; simpl.
    rewrite MOD_mod by lia.
    unfold drain_inv; simpl; split_and!.
    - rewrite Hdi, Z.add_mod_idemp_l by lia; f_equal; lia.
    - rewrite length_insert; exact Hdst.
    - intros k Hk; destruct (Z.eq_dec k j) as [->|Hne].
      + eexists. split; [apply list_lookup_insert_eq; lia|].
        exists dframe, dbuf, cp, d, g. rewrite <- Hdi. split_and!; try assumption.
        reflexivity.
      + destruct (Hvals k ltac:(lia)) as (v & Hv & Hs).
        exists v; split; [rewrite list_lookup_insert_ne by lia; exact Hv|exact Hs].
Qed.

  (** The invariant of the channel loop of [compand_drain]. *)
Let drain_chan_inv (s : CompandContext) (m : Z) (chan : Z)
      (st : option Z * AVFrame) : Prop :=
    nb_samples (snd st) = m /\
    planes_ok (nb_channels s) m (extended_data (snd st)) /\
    (0 < chan -> fst st = Some ((delay_index s + m) mod delay_samples s)) /\
    forall c dst, 0 <= c < chan ->
      extended_data (snd st) !! Z.to_nat c = Some dst ->
      drained_plane libm s c m dst.

Lemma drain_channel_within (s : CompandContext) (m chan : Z)
      (st : option Z * AVFrame) :
    delay_wf s -> 0 <= m ->
    (forall cp, cp ∈ channels s ->
                within E F (fun _ => True) (get_volume libm s (volume cp))) ->
    0 <= chan < nb_channels s ->
    drain_chan_inv s m chan st ->
    within E F (drain_chan_inv s m (chan + 1)) (drain_channel libm s chan st).
Proof using Type.
    intros [Hds Hidx Hcnt Hnch Hch (dframe & Hdf & Hplanes)] Hm Hg Hchan.
    destruct st as [dix frame]. intros (Hnb & Hfr & _ & Hvals). simpl in Hnb, Hfr, Hvals.
    subst m. unfold drain_channel. rewrite Hdf.
    apply within_bind, returns_within.
    eapply returns_mono; [|apply read_returns; destruct Hplanes; lia]. intros dbuf Hdbuf.
    apply within_bind, returns_within.
    eapply returns_mono; [|apply read_returns; destruct Hfr; lia]. intros dst Hdst.
    apply within_bind, returns_within.
    eapply returns_mono; [|apply read_returns; lia]. intros cp Hcp.
    apply within_bind.
    eapply within_mono;
      [|apply (for_upto_within E F (drain_inv s chan (nb_samples frame))); [lia| |]].
    - intros [dindex dst'] (Hdi & Hlen & Hpl). simpl in Hdi, Hlen, Hpl.
      apply within_bind, returns_within.
      eapply returns_mono;
        [|eapply set_plane_returns; [exact Hfr|lia|exact Hlen]].
      intros frame' (Hnb' & _ & Hdata & Hplanes'). simpl.
      unfold drain_chan_inv. simpl. split_and!; try assumption; try lia.
      + intros _. rewrite Hdi. reflexivity.
      + intros c dst0 Hc Hdst0. rewrite Hdata in Hdst0.
        destruct (Z.eq_dec c chan) as [->|Hne].
        * rewrite list_lookup_insert_eq in Hdst0 by (destruct Hfr; lia).
          injection Hdst0 as <-. exact Hpl.
        * rewrite list_lookup_insert_ne in Hdst0 by lia.
          apply (Hvals c dst0); [lia|exact Hdst0].
    - unfold drain_inv. simpl. split_and!.
      + rewrite Z.add_0_r, Z.mod_small; lia.
      + exact (planes_ok_lookup _ _ _ _ _ Hfr Hdst).
      + intros k Hk. lia.
    - intros j st' Hj Hinv.
      eapply drain_sample_within; try eassumption.
      + exact (planes_ok_lookup _ _ _ _ _ Hplanes Hdbuf).
      + apply Hg. eapply list_elem_of_lookup_2. exact Hcp.
Qed.

Lemma compand_drain_within (s : CompandContext) (alloc_ok : bool) :
    delay_wf s ->
    (alloc_ok = false -> E ENOMEM) ->
    (forall cp, cp ∈ channels s ->
                within E F (fun _ => True) (get_volume libm s (volume cp))) ->
    within E F (drain_post libm s) (compand_drain libm rescale s alloc_ok).
Proof using Type.
    intros Hwf HE Hg. unfold compand_drain.
    destruct alloc_ok; [|exact (HE eq_refl)].
    rewrite FFMIN_min. set (m := Z.min 2048 (delay_count s)).
    assert (Hm : 0 <= m <= delay_count s) by (destruct Hwf; lia).
    set (s1 := set_pts _ s).
    assert (Hwf1 : delay_wf s1) by (destruct Hwf; constructor; assumption).
    apply within_bind. cbn [nb_samples].
    eapply within_mono;
      [|apply (for_upto_within E F (drain_chan_inv s1 m)); [destruct Hwf; simpl; lia| |]].
    - intros [dix frame] (Hnb & Hfr & Hdix & Hvals). simpl in Hnb, Hfr, Hdix, Hvals.
      rewrite Hdix by (destruct Hwf; simpl; lia). simpl.
      destruct Hwf as [Hds Hidx Hcnt Hnch Hch Hdf].
      unfold drain_post. fold m. rewrite Hnb. split_and!; try reflexivity.
      + constructor; simpl; try assumption; try lia.
        apply Z.mod_pos_bound. lia.
      + repeat split.
      + exists frame. split_and!; try assumption; reflexivity.
    - unfold drain_chan_inv. simpl. split_and!; try reflexivity; try lia.
      apply planes_ok_replicate; destruct Hwf; lia.
    - intros j st Hj Hinv. apply drain_channel_within; try assumption; lia.
Qed.
End Drain.

Lemma compand_drain_safe (libm : Libm) (rescale : Z -> Z) (s : CompandContext)
    (alloc_ok : bool) :
  delay_wf s -> safe (drain_post libm s) (compand_drain libm rescale s alloc_ok).
Proof.
  intros Hwf. apply compand_drain_within; [exact Hwf|reflexivity|].
  intros cp _. apply get_volume_safe.
Qed.

Lemma compand_drain_returns (libm : Libm) (rescale : Z -> Z) (s : CompandContext) :
  delay_wf s ->
  (forall cp, cp ∈ channels s -> exists g, get_volume libm s (volume cp) = Ok g) ->
  returns (drain_post libm s) (compand_drain libm rescale s true).
Proof.
  intros Hwf Hg. apply compand_drain_within; [exact Hwf|discriminate|].
  intros cp Hcp. destruct (Hg cp Hcp) as [g ->]. exact I.
Qed.

(** ** Whole streams *)

Lemma same_config_trans (s s' s'' : CompandContext) :
  same_config s s' -> same_config s' s'' -> same_config s s''.
Proof. unfold same_config. intros H1 H2. intuition congruence. Qed.



Lemma drained_sample_shift (libm : Libm) (s s' : CompandContext) (off chan k : Z)
    (v : spec_float) :
  0 < delay_samples s ->
  same_config s s' -> channels s' = channels s -> delay_frame s' = delay_frame s ->
  delay_index s' = (delay_index s + off) mod delay_samples s ->
  drained_sample libm s' chan k v -> drained_sample libm s chan (off + k) v.
Proof.
  intros Hds (Hsm & _ & _ & Hseg & Hin & Hout) Hch Hdf Hidx
    (dframe & dbuf & cp & d & g & H1 & H2 & H3 & H4 & H5 & H6).
  exists dframe, dbuf, cp, d, g. split_and!; try congruence.
  - rewrite <- H4. rewrite Hidx, Hsm. rewrite Z.add_mod_idemp_l by lia.
    do 3 f_equal. lia.
  - rewrite <- H5. symmetry. apply get_volume_ext; assumption.
Qed.

Lemma chunks_from_shift (libm : Libm) (s s' : CompandContext) (chunks : list AVFrame) :
  forall off off',
  0 < delay_samples s ->
  same_config s s' -> channels s' = channels s -> delay_frame s' = delay_frame s ->
  delay_index s' = (delay_index s + off) mod delay_samples s ->
  chunks_from libm s' off' chunks -> chunks_from libm s (off + off') chunks.
Proof.
  induction chunks as [|f chunks IH]; intros off off' Hds Hcfg Hch Hdf Hidx; simpl; [tauto|].
  intros [(Hnb & Hpl & Hvals) Hrest]. split.
  - split; [exact Hnb|split; [destruct Hcfg as (_ & <- & _); exact Hpl|]].
    intros chan dst k Hc Hdst Hk.
    destruct (Hvals chan dst k) as (v & Hv & Hs);
      [destruct Hcfg as (_ & -> & _); exact Hc|exact Hdst|exact Hk|].
    exists v. split; [exact Hv|].
    replace (off + off' + k) with (off + (off' + k)) by lia.
    eapply drained_sample_shift; eassumption.
  - replace (off + off' + nb_samples f) with (off + (off' + nb_samples f)) by lia.
    apply IH; assumption.
Qed.

Lemma requests_at_eof_drains (libm : Libm) (rescale : Z -> Z) (n : nat) :
  forall s : CompandContext,
  delay_wf s ->
  (forall cp, cp ∈ channels s -> exists g, get_volume libm s (volume cp) = Ok g) ->
  delay_count s <= 2048 * Z.of_nat n ->
  returns (fun '(s2, chunks) =>
             delay_wf s2 /\ same_config s s2 /\ channels s2 = channels s /\
             delay_frame s2 = delay_frame s /\ delay_count s2 = 0 /\
             total_samples chunks = delay_count s /\ chunks_from libm s 0 chunks)
          (requests_at_eof libm rescale n s).
Proof.
  induction n as [|n IH]; intros s Hwf Hg Hn.
  - simpl. split_and!; try reflexivity; try assumption.
    + apply same_config_refl.
    + destruct Hwf. lia.
    + unfold total_samples. simpl. destruct Hwf. lia.
  - cbn [requests_at_eof]. unfold request_frame. rewrite Z.eqb_refl. simpl andb.
    destruct (Z.eqb_spec (delay_count s) 0) as [Hz|Hnz]; cbn [negb].
    + simpl. split_and!; try reflexivity; try assumption.
      * apply same_config_refl.
      * unfold total_samples. simpl. lia.
    + pose proof (compand_drain_returns libm rescale s Hwf Hg) as Hdrain.
      destruct (compand_drain libm rescale s true) as [[s' out]| |]; try contradiction.
      simpl in Hdrain |- *.
      destruct Hdrain as (Hwf' & Hcfg & Hch & Hdf & Hcount & Hidx & frame & -> & Hnb & Hpl & Hvals).
      assert (Hds : 0 < delay_samples s) by (destruct Hwf; assumption).
      assert (Hc : 0 <= delay_count s <= delay_samples s) by (destruct Hwf; assumption).
      assert (Hg' : forall cp, cp ∈ channels s' ->
                    exists g, get_volume libm s' (volume cp) = Ok g).
      { intros cp Hcp. rewrite Hch in Hcp. destruct (Hg cp Hcp) as [g Hgv].
        exists g. rewrite <- Hgv. apply get_volume_ext; apply Hcfg. }
      specialize (IH s' Hwf' Hg' ltac:(lia)).
      destruct (requests_at_eof libm rescale n s') as [[s2 chunks]| |];
        try contradiction.
      simpl in IH |- *.
      destruct IH as (Hwf2 & Hcfg2 & Hch2 & Hdf2 & Hcount2 & Htotal & Hchunks).
      split_and!; try assumption; try congruence.
      * exact (same_config_trans _ _ _ Hcfg Hcfg2).
      * change (total_samples (frame :: chunks)) with (nb_samples frame + total_samples chunks).
        lia.
      * split; [lia|split; [rewrite Hnb; exact Hpl|]].
        intros chan dst k Hcn Hdst Hk. rewrite Z.add_0_l. rewrite Hnb in Hk.
        exact (Hvals chan dst Hcn Hdst k Hk).
      * rewrite Z.add_0_l.
        replace (nb_samples frame) with (nb_samples frame + 0) by lia.
        eapply chunks_from_shift; try eassumption. rewrite Hnb. exact Hidx.
Qed.

(** ** The setup *)

Lemma whenever_Ok {A : Type} (post : A -> Prop) (r : result A) (v : A) :
  whenever post r -> r = Ok v -> post v.
Proof. intros H ->. exact H. Qed.

Lemma write_length {A : Type} (f : fault) (arr arr' : list A) (i : Z) (v : A) :
  write f arr i v = Ok arr' -> length arr' = length arr.
Proof.
  unfold write. destruct (_ && _); intros [= <-]. apply length_insert.
Qed.

Lemma count_items_pos (str : string) : 1 <= count_items str.
Proof.
  induction str as [|c str IH]; simpl; [lia|]. destruct (Ascii.eqb c "|"); lia.
Qed.

Lemma parse_time_length (sscanf_f : string -> option spec_float)
    (set : spec_float -> ChanParam -> ChanParam) (get : ChanParam -> spec_float)
    (i : Z) (st : tokens * Z * list ChanParam) (len : nat) :
  length (snd st) = len ->
  whenever (fun st' => length (snd st') = len) (parse_time sscanf_f set get i st).
Proof.
  destruct st as [[tk n] chans]. simpl. intros Hlen. unfold parse_time.
  destruct (strtok_r _ _) as [[tstr|] saveptr]; [|exact I].
  apply within_bind. destruct (read _ _ _) as [cp| |]; simpl; try exact I.
  destruct (sscanf_f tstr) as [v|].
  all: apply within_bind; destruct (write _ _ _ _) as [chans'| |] eqn:Hw; simpl; try exact I.
  all: destruct (F32.ltb _ _); simpl; try exact I.
  all: rewrite (write_length _ _ _ _ _ Hw); exact Hlen.
Qed.

Lemma parse_times_length (sscanf_f : string -> option spec_float) (s : CompandContext)
    (nchan : Z) :
  whenever (fun '(_, _, chans, _) => length chans = Z.to_nat nchan)
           (parse_times sscanf_f s nchan).
Proof.
  unfold parse_times.
  apply within_bind.
  eapply within_mono;
    [|apply (for_upto_within _ _ (fun _ st => length (snd st) = Z.to_nat nchan))].
  - intros [[tk na] chans] Hlen. simpl in Hlen.
    apply within_bind.
    eapply within_mono;
      [|apply (for_upto_within _ _ (fun _ st => length (snd st) = Z.to_nat nchan))].
    + intros [[tk' nd] chans'] Hlen'. exact Hlen'.
    + pose proof (count_items_pos (decays s)). lia.
    + exact Hlen.
    + intros j st _ Hst. apply parse_time_length. exact Hst.
  - pose proof (count_items_pos (attacks s)). lia.
  - simpl. apply length_replicate.
  - intros j st _ Hst. apply parse_time_length. exact Hst.
Qed.

Lemma init_channel_length (libm : Libm) (sample_rate : Z) (vol : spec_float) (i : Z)
    (chans : list ChanParam) (len : nat) :
  length chans = len ->
  whenever (fun chans' => length chans' = len)
           (init_channel libm sample_rate vol i chans).
Proof.
  intros Hlen. unfold init_channel. apply within_bind.
  destruct (read _ _ _) as [cp| |]; simpl; try exact I.
  destruct (write _ _ _ _) as [chans'| |] eqn:Hw; simpl; try exact I.
  rewrite (write_length _ _ _ _ _ Hw). exact Hlen.
Qed.

(** What [setup_delay] returns: the capacity is the product truncated to an
    [int]; the mode follows from its sign. *)
Lemma setup_delay_Ok (host : Host) (s s' : CompandContext) (nchan sample_rate : Z) :
  setup_delay host s nchan sample_rate = Ok s' ->
  exists n,
    F64.to_int (F64.mul (delay s) (F64.of_Z sample_rate)) = Some n /\
    delay_samples s' = n /\
    nb_channels s' = nb_channels s /\ channels s' = channels s /\
    segments s' = segments s /\ in_min_lin s' = in_min_lin s /\
    out_min_lin s' = out_min_lin s /\
    delay_count s' = delay_count s /\ delay_index s' = delay_index s /\
    (n <= 0 -> compand s' = use_compand_nodelay /\ delay_frame s' = delay_frame s) /\
    (0 < n ->
     compand s' = use_compand_delay /\
     exists f, delay_frame s' = Some f /\ nb_samples f = n /\
               (0 <= nchan -> planes_ok nchan n (extended_data f))).
Proof.
  unfold setup_delay.
  destruct (F64.to_int _) as [n|]; [|discriminate].
  destruct (Z.leb_spec n 0) as [Hle|Hgt].
  - intros [= <-]. exists n. simpl. split_and!; try reflexivity; try lia. tauto.
  - destruct (delay_frame_ok host); simpl; [|discriminate].
    destruct (get_buffer_err host =? 0); simpl; [|discriminate].
    intros [= <-]. exists n. simpl. split_and!; try reflexivity; try lia.
    intros _. split; [reflexivity|]. eexists. split_and!; try reflexivity.
    intros Hn. simpl. split.
    + rewrite !length_map, length_seq. lia.
    + apply Forall_map, Forall_map, Forall_forall. intros c _. simpl.
      rewrite length_map, length_seq. lia.
Qed.

(** What a successful [config_output] went through. *)
Lemma config_output_Ok (libm : Libm) (sscanf_f : string -> option spec_float)
    (sscanf_ff : string -> option (spec_float * spec_float)) (host : Host)
    (s s' : CompandContext) (nchan sample_rate : Z) :
  config_output libm sscanf_f sscanf_ff host s nchan sample_rate = Ok s' ->
  0 < nchan /\
  count_items (attacks s) <= nchan /\ count_items (decays s) <= nchan /\
  exists nb chans saveptr num segs0 segs first chans',
    parse_times sscanf_f s nchan = Ok (nb, nb, chans, saveptr) /\
    parse_points sscanf_ff s saveptr = Ok (num, segs0) /\
    build_curve libm s num segs0 = Ok segs /\
    read SegmentsOverrun segs 1 = Ok first /\
    for_upto 0 nchan (init_channel libm sample_rate (initial_volume s)) chans = Ok chans' /\
    setup_delay host
      (set_out_min_lin (F32.round (exp libm (F64.of_f32 (CompandSegment.y first))))
         (set_in_min_lin (F32.round (exp libm (F64.of_f32 (CompandSegment.x first))))
            (set_segments segs
               (set_channels chans'
                  (set_delay_frame None (set_nb_channels nchan s))))))
      nchan sample_rate = Ok s'.
Proof.
  unfold config_output.
  destruct (Z.leb_spec nchan 0) as [|Hn]; [discriminate|].
  destruct (Z.gtb_spec (count_items (attacks s)) nchan) as [|Ha]; [discriminate|].
  destruct (Z.gtb_spec (count_items (decays s)) nchan) as [|Hd]; [discriminate|].
  simpl orb. cbv iota.
  destruct (arrays_ok host); simpl negb; cbv iota; [|discriminate].
  intros H. apply bind_Ok in H as ([[[na nd] chans] saveptr] & Hpt & H).
  destruct (Z.eqb_spec na nd) as [<-|]; [|discriminate]. simpl negb in H. cbv iota in H.
  apply bind_Ok in H as ([num segs0] & Hpp & H).
  apply bind_Ok in H as (segs & Hbc & H).
  apply bind_Ok in H as (first & Hfirst & H).
  apply bind_Ok in H as (chans' & Hinit & H).
  split_and!; try lia.
  exists na, chans, saveptr, num, segs0, segs, first, chans'. split_and!; assumption.
Qed.

Lemma items_nonempty (str : string) : items str <> [].
Proof.
  destruct str as [|c str]; simpl; [discriminate|].
  destruct (Ascii.eqb _ _); [discriminate|]. destruct (items str); discriminate.
Qed.

Lemma count_items_length (str : string) : count_items str = Z.of_nat (length (items str)).
Proof.
  induction str as [|c str IH]; simpl; [reflexivity|].
  destruct (Ascii.eqb _ _); simpl; [lia|].
  pose proof (items_nonempty str). destruct (items str); [contradiction|]. simpl in *. lia.
Qed.

Lemma split_token_items (str it : string) (its : list string) :
  items str = it :: its ->
  exists rest, split_token str = (it, rest) /\ (its <> [] -> items rest = its).
Proof.
  revert it its. induction str as [|c str IH]; intros it its; simpl.
  - intros [= <- <-]. eexists. split; [reflexivity|]. intros H. contradiction.
  - destruct (Ascii.eqb _ _).
    + intros [= <- <-]. eexists. split; [reflexivity|]. intros _. reflexivity.
    + pose proof (items_nonempty str) as Hne.
      destruct (items str) as [|it' its'] eqn:Hits; [contradiction|].
      intros [= <- <-]. destruct (IH it' its' eq_refl) as (rest & -> & Hrest).
      exists rest. split; [reflexivity|exact Hrest].
Qed.

Lemma skip_delimiters_item (str it : string) (its : list string) :
  items str = it :: its -> it <> EmptyString -> skip_delimiters str = str.
Proof.
  destruct str as [|c str]; simpl; [reflexivity|].
  destruct (Ascii.eqb _ _); [|reflexivity]. intros [= <- _] H. contradiction.
Qed.

(** On a list without empty items [strtok_r] returns the items in turn. *)
Lemma strtok_r_items (tk : tokens) (it : string) (its : list string) :
  at_items tk (it :: its) -> it <> EmptyString ->
  exists saveptr,
    strtok_r (tok_p tk) (tok_saveptr tk) = (Some it, saveptr) /\
    at_items {| tok_p := None; tok_saveptr := saveptr |} its.
Proof.
  intros [Hnil|Hitems] Hne; [discriminate|].
  unfold strtok_r. rewrite (skip_delimiters_item _ _ _ Hitems Hne).
  destruct (split_token_items _ _ _ Hitems) as (rest & Hsplit & Hrest).
  set (str := match tok_p tk with Some str => str | None => tok_saveptr tk end) in *.
  destruct str as [|c str'] eqn:Hstr.
  - simpl in Hitems. injection Hitems as <- _. contradiction.
  - rewrite Hsplit. exists rest. split; [reflexivity|].
    destruct its as [|it' its']; [left; reflexivity|right]. simpl. apply Hrest. discriminate.
Qed.

Lemma F32_zero_not_negative : F32.ltb F32.zero F32.zero = false.
Proof. reflexivity. Qed.

(** The loop over the time constants, on a list without empty items: it runs
    into the first negative value, or it counts the values read. *)
Lemma parse_time_loop (sscanf_f : string -> option spec_float)
    (set : spec_float -> ChanParam -> ChanParam) (get : ChanParam -> spec_float)
    (Q : ChanParam -> Prop) (its : list string) :
  (forall v cp, get (set v cp) = v) ->
  (forall v cp, Q cp -> Q (set v cp)) ->
  forall (i : Z) (tk : tokens) (cnt : Z) (chans : list ChanParam),
  at_items tk its -> Forall (fun it => it <> EmptyString) its ->
  0 <= i -> i + Z.of_nat (length its) <= Z.of_nat (length chans) ->
  (forall j cp, i <= Z.of_nat j -> chans !! j = Some cp -> get cp = F32.zero) ->
  Forall Q chans ->
  if has_negative sscanf_f its
  then for_range (length its) i (parse_time sscanf_f set get) (tk, cnt, chans)
       = Error EINVAL
  else exists tk' chans',
       for_range (length its) i (parse_time sscanf_f set get) (tk, cnt, chans)
       = Ok (tk', cnt + values_read sscanf_f its, chans') /\
       length chans' = length chans /\ Forall Q chans'.
Proof.
  intros Hget HQ. induction its as [|it its IH]; intros i tk cnt chans Hat Hne Hi Hlen Hzero HQs.
  - simpl. exists tk, chans. unfold values_read. simpl. rewrite Z.add_0_r.
    split_and!; try reflexivity; try assumption.
  - apply Forall_cons in Hne as [Hit Hne].
    destruct (strtok_r_items tk it its Hat Hit) as (saveptr & Htok & Hat').
    simpl length in Hlen.
    pose proof (read_returns ChannelsOverrun chans i ltac:(lia)) as Hread.
    destruct (read ChannelsOverrun chans i) as [cp| |] eqn:Hrd; try contradiction.
    simpl in Hread.
    assert (Hcp0 : get cp = F32.zero) by (apply (Hzero (Z.to_nat i)); [lia|exact Hread]).
    assert (HQcp : Q cp) by exact (Forall_lookup_1 _ _ _ _ HQs Hread).
    set (tk1 := {| tok_p := None; tok_saveptr := saveptr |}) in *.
    assert (Hstep : parse_time sscanf_f set get i (tk, cnt, chans)
              = match sscanf_f it with
                | Some v => if F32.ltb v F32.zero then Error EINVAL
                            else Ok (tk1, cnt + 1, <[Z.to_nat i := set v cp]> chans)
                | None => Ok (tk1, cnt + 0, <[Z.to_nat i := cp]> chans)
                end).
    { unfold parse_time. rewrite Htok, Hrd. cbn [mbind result_bind].
      destruct (sscanf_f it) as [v|]; rewrite write_returns by lia; cbn [mbind result_bind].
      - rewrite Hget. reflexivity.
      - rewrite Hcp0, F32_zero_not_negative. reflexivity. }
    cbn [length for_range]. rewrite Hstep. clear Hstep.
    cbn [has_negative existsb]. fold (has_negative sscanf_f its).
    assert (Hvals : values_read sscanf_f (it :: its)
                    = match sscanf_f it with Some _ => 1 | None => 0 end
                      + values_read sscanf_f its).
    { unfold values_read. rewrite filter_cons.
      destruct (sscanf_f it) as [v|].
      - rewrite decide_True by eauto. cbn [length]. lia.
      - rewrite decide_False by (intros [? [=]]). lia. }
    rewrite Hvals. clear Hvals.
    destruct (sscanf_f it) as [v|] eqn:Hscan.
    + destruct (F32.ltb v F32.zero) eqn:Hneg; [reflexivity|]. cbn [orb mbind result_bind].
      specialize (IH (i + 1) tk1 (cnt + 1)
                     (<[Z.to_nat i := set v cp]> chans) Hat' Hne ltac:(lia)).
      rewrite length_insert in IH. specialize (IH ltac:(lia)).
      assert (Hzero' : forall j cp0, i + 1 <= Z.of_nat j ->
                <[Z.to_nat i := set v cp]> chans !! j = Some cp0 -> get cp0 = F32.zero).
      { intros j cp0 Hj. rewrite list_lookup_insert_ne by lia. apply Hzero. lia. }
      specialize (IH Hzero' (Forall_insert _ _ _ _ HQs (HQ v cp HQcp))).
      destruct (has_negative sscanf_f its); [exact IH|].
      destruct IH as (tk' & chans' & -> & Hlen' & HQ').
      exists tk', chans'. split_and!; try assumption.
      do 3 f_equal. lia.
    + cbn [orb mbind result_bind].
      specialize (IH (i + 1) tk1 (cnt + 0)
                     (<[Z.to_nat i := cp]> chans) Hat' Hne ltac:(lia)).
      rewrite length_insert in IH. specialize (IH ltac:(lia)).
      assert (Hzero' : forall j cp0, i + 1 <= Z.of_nat j ->
                <[Z.to_nat i := cp]> chans !! j = Some cp0 -> get cp0 = F32.zero).
      { intros j cp0 Hj. rewrite list_lookup_insert_ne by lia. apply Hzero. lia. }
      specialize (IH Hzero' (Forall_insert _ _ _ _ HQs HQcp)).
      destruct (has_negative sscanf_f its); [exact IH|].
      destruct IH as (tk' & chans' & -> & Hlen' & HQ').
      exists tk', chans'. split_and!; try assumption.
      do 3 f_equal. lia.
Qed.

Lemma for_upto_items {St : Type} (str : string) (body : Z -> St -> result St) (st : St) :
  for_upto 0 (count_items str) body st = for_range (length (items str)) 0 body st.
Proof.
  unfold for_upto. rewrite count_items_length. f_equal. lia.
Qed.

(** The two loops over the time constants, on lists without empty items. *)
Lemma parse_times_items (sscanf_f : string -> option spec_float) (s : CompandContext)
    (nchan : Z) :
  Forall (fun it => it <> EmptyString) (items (attacks s)) ->
  Forall (fun it => it <> EmptyString) (items (decays s)) ->
  count_items (attacks s) <= nchan -> count_items (decays s) <= nchan ->
  if has_negative sscanf_f (items (attacks s)) || has_negative sscanf_f (items (decays s))
  then parse_times sscanf_f s nchan = Error EINVAL
  else exists chans saveptr,
       parse_times sscanf_f s nchan
       = Ok (values_read sscanf_f (items (attacks s)),
             values_read sscanf_f (items (decays s)), chans, saveptr) /\
       length chans = Z.to_nat nchan.
Proof.
  intros Ha Hd Hna Hnd. unfold parse_times. rewrite !for_upto_items.
  rewrite count_items_length in Hna, Hnd.
  set (chans0 := replicate (Z.to_nat nchan) _).
  pose proof (parse_time_loop sscanf_f set_attack attack
                (fun cp => decay cp = F32.zero) (items (attacks s))
                ltac:(reflexivity) ltac:(intros v cp H; exact H)
                0 {| tok_p := Some (attacks s); tok_saveptr := EmptyString |} 0 chans0
                ltac:(right; reflexivity) Ha ltac:(lia)) as Hloop.
  unfold chans0 in Hloop at 1. rewrite length_replicate in Hloop.
  specialize (Hloop ltac:(lia)).
  assert (Hz : forall (j : nat) cp, 0 <= Z.of_nat j -> chans0 !! j = Some cp ->
               attack cp = F32.zero).
  { intros j cp _ Hcp. apply lookup_replicate in Hcp as [-> _]. reflexivity. }
  assert (Hq : Forall (fun cp => decay cp = F32.zero) chans0)
    by (apply Forall_replicate; reflexivity).
  specialize (Hloop Hz Hq).
  destruct (has_negative sscanf_f (items (attacks s))); [rewrite Hloop; reflexivity|].
  destruct Hloop as (tk' & chans' & -> & Hlen' & HQ'). cbn [mbind result_bind orb]. cbv beta iota.
  pose proof (parse_time_loop sscanf_f set_decay decay
                (fun _ => True) (items (decays s))
                ltac:(reflexivity) ltac:(intros v cp H; exact H)
                0 {| tok_p := Some (decays s); tok_saveptr := tok_saveptr tk' |} 0 chans'
                ltac:(right; reflexivity) Hd ltac:(lia)) as Hloop.
  rewrite Hlen' in Hloop. unfold chans0 in Hloop. rewrite length_replicate in Hloop.
  specialize (Hloop ltac:(lia)).
  assert (Hz' : forall (j : nat) cp, 0 <= Z.of_nat j -> chans' !! j = Some cp ->
               decay cp = F32.zero).
  { intros j cp _ Hcp. exact (Forall_lookup_1 _ _ _ _ HQ' Hcp). }
  specialize (Hloop Hz' ltac:(apply Forall_true; intros; exact I)).
  rewrite for_upto_items.
  destruct (has_negative sscanf_f (items (decays s))); [rewrite Hloop; reflexivity|].
  destruct Hloop as (tk'' & chans'' & -> & Hlen'' & _). cbn [mbind result_bind]. cbv beta iota.
  exists chans'', (tok_saveptr tk''). split; [rewrite !Z.add_0_l; reflexivity|].
  exact Hlen''.
Qed.

Lemma modify_segment_returns (segs : list segment) (i : Z) (f : segment -> segment) :
  0 <= i < Z.of_nat (length segs) ->
  exists sg, segs !! Z.to_nat i = Some sg /\
             modify_segment segs i f = Ok (<[Z.to_nat i := f sg]> segs).
Proof.
  intros Hi. unfold modify_segment.
  pose proof (read_returns SegmentsOverrun segs i Hi) as Hread.
  destruct (read SegmentsOverrun segs i) as [sg| |]; try contradiction.
  exists sg. split; [exact Hread|]. cbn [mbind result_bind]. apply write_returns. exact Hi.
Qed.

Lemma read_Ok {A : Type} (f : fault) (arr : list A) (i : Z) (v : A) :
  0 <= i -> arr !! Z.to_nat i = Some v -> read f arr i = Ok v.
Proof.
  intros Hi Hv. unfold read. destruct (Z.ltb_spec i 0); [lia|]. rewrite Hv. reflexivity.
Qed.

(** The loop over the points, on a list without empty items. *)
Lemma parse_point_loop (sscanf_ff : string -> option (spec_float * spec_float))
    (its : list string) :
  forall (i : Z) (tk : tokens) (cnt : Z) (segs : list segment) (prev : option spec_float),
  at_items tk its -> Forall (fun it => it <> EmptyString) its ->
  0 <= i -> 2 * (i + Z.of_nat (length its)) < Z.of_nat (length segs) ->
  (i = 0 \/ exists sg, segs !! Z.to_nat (2 * i) = Some sg /\
                        prev = Some (CompandSegment.x sg)) ->
  (i = 0 -> prev = None) ->
  if points_accepted sscanf_ff prev its
  then exists tk' segs',
       for_range (length its) i (parse_point sscanf_ff) (tk, cnt, segs)
       = Ok (tk', cnt + Z.of_nat (length its), segs') /\
       length segs' = length segs /\
       forall j, (Z.to_nat (2 * (i + Z.of_nat (length its))) < j)%nat ->
                 segs' !! j = segs !! j
  else for_range (length its) i (parse_point sscanf_ff) (tk, cnt, segs) = Error EINVAL.
Proof.
  induction its as [|it its IH]; intros i tk cnt segs prev Hat Hne Hi Hlen Hprev Hprev0.
  - simpl. exists tk, segs. rewrite Z.add_0_r. split_and!; reflexivity.
  - apply Forall_cons in Hne as [Hit Hne].
    destruct (strtok_r_items tk it its Hat Hit) as (saveptr & Htok & Hat').
    simpl length in Hlen.
    set (tk1 := {| tok_p := None; tok_saveptr := saveptr |}) in *.
    assert (Hstep : exists sg0, segs !! Z.to_nat (2 * (i + 1)) = Some sg0 /\
              parse_point sscanf_ff i (tk, cnt, segs)
              = match sscanf_ff it with
                | None => Error EINVAL
                | Some (px, py) =>
                    if match prev with Some q => F32.gtb q px | None => false end
                    then Error EINVAL
                    else Ok (tk1, cnt + 1,
                             <[Z.to_nat (2 * (i + 1)) :=
                                 CompandSegment.mk px (F32.sub py px)
                                   (CompandSegment.a sg0) (CompandSegment.b sg0)]> segs)
                end).
    { unfold parse_point. rewrite Htok.
      destruct (modify_segment_returns segs (2 * (i + 1)) (fun sg => sg) ltac:(lia))
        as (sg0 & Hsg0 & _).
      exists sg0. split; [exact Hsg0|].
      destruct (sscanf_ff it) as [[px py]|]; [|reflexivity].
      destruct (modify_segment_returns segs (2 * (i + 1))
                  (fun sg => CompandSegment.set_y py (CompandSegment.set_x px sg))
                  ltac:(lia)) as (sg0' & Hsg0' & ->).
      rewrite Hsg0 in Hsg0'. injection Hsg0' as <-.
      cbn [mbind result_bind].
      set (segs1 := <[Z.to_nat (2 * (i + 1)) := _]> segs).
      assert (Hlen1 : length segs1 = length segs) by apply length_insert.
      assert (Hcur : segs1 !! Z.to_nat (2 * (i + 1))
                     = Some (CompandSegment.set_y py (CompandSegment.set_x px sg0)))
        by (apply list_lookup_insert_eq; lia).
      assert (Hdesc :
        (if i =? 0 then Ok false
         else prev0 ← read SegmentsOverrun segs1 (2 * (i - 1 + 1));
              cur ← read SegmentsOverrun segs1 (2 * (i + 1));
              Ok (F32.gtb (CompandSegment.x prev0) (CompandSegment.x cur)))
        = Ok (match prev with Some q => F32.gtb q px | None => false end)).
      { destruct (Z.eqb_spec i 0) as [->|Hi0]; [rewrite Hprev0 by reflexivity; reflexivity|].
        destruct Hprev as [|(sg & Hsg & ->)]; [contradiction|].
        replace (2 * (i - 1 + 1)) with (2 * i) by lia.
        rewrite (read_Ok _ segs1 (2 * i) sg) by
          (try lia; unfold segs1; rewrite list_lookup_insert_ne by lia; exact Hsg).
        cbn [mbind result_bind]. rewrite (read_Ok SegmentsOverrun segs1 (2 * (i + 1)) _ ltac:(lia) Hcur). reflexivity. }
      rewrite Hdesc. cbn [mbind result_bind]. clear Hdesc.
      destruct (match prev with Some q => F32.gtb q px | None => false end);
        [reflexivity|].
      destruct (modify_segment_returns segs1 (2 * (i + 1))
                  (fun sg => CompandSegment.set_y
                               (F32.sub (CompandSegment.y sg) (CompandSegment.x sg)) sg)
                  ltac:(lia)) as (sg1 & Hsg1 & ->).
      cbn [mbind result_bind].
      rewrite Hcur in Hsg1. injection Hsg1 as <-.
      unfold segs1. rewrite list_insert_insert_eq. reflexivity. }
    destruct Hstep as (sg0 & Hsg0 & Hstep).
    cbn [length for_range points_accepted]. rewrite Hstep. clear Hstep.
    destruct (sscanf_ff it) as [[px py]|]; [|reflexivity].
    assert (Hgt : match prev with Some q => negb (F32.gtb q px) | None => true end
                  = negb (match prev with Some q => F32.gtb q px | None => false end))
      by (destruct prev; reflexivity).
    rewrite Hgt. clear Hgt.
    destruct (match prev with Some q => F32.gtb q px | None => false end);
      [reflexivity|]. cbn [negb andb mbind result_bind].
    set (segs2 := <[Z.to_nat (2 * (i + 1)) := _]> segs).
    specialize (IH (i + 1) tk1 (cnt + 1) segs2 (Some px) Hat' Hne ltac:(lia)).
    assert (Hlen2 : length segs2 = length segs) by apply length_insert.
    rewrite Hlen2 in IH. specialize (IH ltac:(lia)).
    specialize (IH ltac:(right; eexists; split;
                         [unfold segs2; apply list_lookup_insert_eq; lia|reflexivity])
                   ltac:(lia)).
    destruct (points_accepted sscanf_ff (Some px) its); [|exact IH].
    destruct IH as (tk' & segs' & -> & Hlen' & Hfar).
    exists tk', segs'. split_and!.
    + do 3 f_equal. lia.
    + exact Hlen'.
    + intros j Hj. rewrite Hfar by lia. unfold segs2.
      rewrite !list_lookup_insert_ne by lia. reflexivity.
Qed.

(** *** The curve stays inside the array *)

Lemma parse_points_items (sscanf_ff : string -> option (spec_float * spec_float))
    (s : CompandContext) (saveptr : string) :
  Forall (fun it => it <> EmptyString) (items (points s)) ->
  if points_accepted sscanf_ff None (items (points s))
  then exists segs,
       parse_points sscanf_ff s saveptr = Ok (count_items (points s), segs) /\
       Z.of_nat (length segs) = (count_items (points s) + 4) * 2 /\
       forall j, (Z.to_nat (2 * count_items (points s)) < j < length segs)%nat ->
                 segs !! j = Some CompandSegment.zeroed
  else parse_points sscanf_ff s saveptr = Error EINVAL.
Proof.
  intros Hne. unfold parse_points. rewrite for_upto_items.
  pose proof (count_items_pos (points s)) as Hpos.
  set (segs0 := replicate _ CompandSegment.zeroed).
  assert (Hlen0 : Z.of_nat (length segs0) = (count_items (points s) + 4) * 2)
    by (unfold segs0; rewrite length_replicate; lia).
  pose proof (parse_point_loop sscanf_ff (items (points s)) 0
                {| tok_p := Some (points s); tok_saveptr := saveptr |} 0 segs0 None
                ltac:(right; reflexivity) Hne ltac:(lia)) as Hloop.
  rewrite <- count_items_length in Hloop.
  specialize (Hloop ltac:(lia) ltac:(left; reflexivity) ltac:(reflexivity)).
  destruct (points_accepted sscanf_ff None (items (points s))).
  - destruct Hloop as (tk' & segs' & -> & Hlen' & Hfar). cbn [mbind result_bind].
    exists segs'. rewrite Z.add_0_l. split_and!; [reflexivity|rewrite Hlen'; exact Hlen0|].
    intros j Hj. rewrite Hfar by lia. apply lookup_replicate. split; [reflexivity|].
    fold segs0. lia.
  - rewrite Hloop. reflexivity.
Qed.

Lemma add_origin_returns (num : Z) (segs : list segment) :
  0 <= num -> 2 * num < Z.of_nat (length segs) ->
  returns (fun num' => num <= num' <= num + 1) (add_origin num segs).
Proof.
  intros Hn Hlen. unfold add_origin. destruct (num =? 0); [simpl; lia|].
  apply returns_bind.
  eapply returns_mono; [|apply read_returns; lia]. intros sg _.
  destruct (F32.nonzero _); simpl; lia.
Qed.

Lemma add_tail_returns (curve : spec_float) (segs : list segment) :
  (2 < length segs)%nat ->
  returns (fun segs' => length segs' = length segs /\
                        forall j, (0 < j)%nat -> segs' !! j = segs !! j)
          (add_tail curve segs).
Proof.
  intros Hlen. unfold add_tail.
  apply returns_bind. eapply returns_mono; [|apply read_returns; simpl; lia]. intros s1 _.
  destruct (modify_segment_returns segs (2 * 0)
              (CompandSegment.set_x
                 (F32.round (F64.sub (F64.of_f32 (CompandSegment.x s1))
                               (F64.mul (F64.of_Z 2) curve)))) ltac:(simpl; lia))
    as (sg & _ & ->). cbn [mbind result_bind returns within].
  apply returns_bind. eapply returns_mono;
    [|apply read_returns; rewrite length_insert; simpl; lia]. intros s1' _.
  match goal with |- context [modify_segment ?l ?i ?f] =>
    destruct (modify_segment_returns l i f ltac:(rewrite length_insert; simpl; lia))
      as (sg' & _ & ->) end.
  simpl. split.
  - rewrite !length_insert. reflexivity.
  - intros j Hj. rewrite !list_lookup_insert_ne by lia. reflexivity.
Qed.

Lemma join_colinear_returns (k : nat) :
  forall (i num : Z) (segs : list segment),
  2 <= i -> i + Z.of_nat k = num -> 2 * num <= Z.of_nat (length segs) ->
  returns (fun '(num', segs') =>
             0 <= num' <= num /\ length segs' = length segs /\
             forall j, (Z.to_nat (2 * num) <= j)%nat -> segs' !! j = segs !! j)
          (join_colinear k i num segs).
Proof.
  induction k as [|k IH]; intros i num segs Hi Hk Hlen.
  - simpl. split_and!; try lia; reflexivity.
  - cbn [join_colinear].
    apply returns_bind. eapply returns_mono; [|apply read_returns; lia]. intros s0 _.
    apply returns_bind. eapply returns_mono; [|apply read_returns; lia]. intros s1 _.
    apply returns_bind. eapply returns_mono; [|apply read_returns; lia]. intros s2 _.
    destruct (F64.nonzero _).
    + eapply returns_mono; [|apply (IH (i + 1) num segs); lia].
      intros [num' segs'] H. exact H.
    + apply returns_bind.
      eapply returns_mono;
        [|apply (for_upto_within _ _
                   (fun _ segs' => length segs' = length segs /\
                      forall j, (Z.to_nat (2 * num) <= j)%nat -> segs' !! j = segs !! j));
          [lia|split; reflexivity|]].
      * intros segs' [Hlen' Hfar].
        replace (i - 1 + 1) with i by lia.
        eapply returns_mono; [|apply (IH i (num - 1) segs'); lia].
        intros [num'' segs''] (Hn & Hl & Hf). split_and!; try lia; try congruence.
        intros j Hj. rewrite Hf by lia. apply Hfar. exact Hj.
      * intros j segs' Hj [Hlen' Hfar].
        apply returns_bind. eapply returns_mono; [|apply read_returns; lia]. intros nxt _.
        rewrite write_returns by lia. simpl. split.
        -- rewrite length_insert. exact Hlen'.
        -- intros j' Hj'. rewrite list_lookup_insert_ne by lia. apply Hfar. exact Hj'.
Qed.

Lemma nonzero_false_zero (v : spec_float) :
  F32.nonzero v = false -> exists sgn, v = S754_zero sgn.
Proof.
  unfold F32.nonzero, SFeqb. destruct v as [sgn|sgn| |sgn m e]; simpl.
  - eauto.
  - destruct sgn; discriminate.
  - discriminate.
  - destruct sgn; discriminate.
Qed.

Lemma to_log_zero (v : spec_float) :
  F32.nonzero v = false ->
  F32.nonzero (F32.round (F64.mul (F64.of_f32 v) (F64.div F64.M_LN10 (F64.of_Z 20))))
  = false.
Proof.
  intros H. destruct (nonzero_false_zero v H) as [sgn ->]. destruct sgn; reflexivity.
Qed.

Lemma sentinel_insert (len : nat) (segs : list segment) (i : nat) (sg : segment) :
  sentinel len segs -> (i <> len - 2)%nat -> sentinel len (<[i := sg]> segs).
Proof.
  intros [Hlen (sg0 & Hsg0 & Hz)] Hi. split; [rewrite length_insert; exact Hlen|].
  exists sg0. split; [|exact Hz]. rewrite list_lookup_insert_ne by lia. exact Hsg0.
Qed.

Lemma to_log_domain_returns (gain : spec_float) (len : nat) (fuel : nat) :
  forall (h : nat) (segs : list segment),
  sentinel len segs -> (2 * h <= len)%nat -> Nat.Even len -> (len <= 2 * (h + fuel) - 2)%nat ->
  returns (sentinel len) (to_log_domain fuel gain (2 * Z.of_nat h) segs).
Proof.
  induction fuel as [|fuel IH]; intros h segs Hs Hh Heven Hfuel.
  - (* the fuel exceeds what the array has room for *)
    destruct Hs as [Hlen (sg & Hsg & _)]. apply lookup_lt_Some in Hsg. lia.
  - assert (Hcont : exists c,
             (if 2 * Z.of_nat h =? 0 then Ok true
              else sg ← read SegmentsOverrun segs (2 * Z.of_nat h - 2);
                   Ok (F32.nonzero (CompandSegment.x sg))) = Ok c /\
             (c = true -> (2 * h < len)%nat)).
    { destruct (Z.eqb_spec (2 * Z.of_nat h) 0) as [H0|Hn0].
      - exists true. split; [reflexivity|]. intros _.
        destruct Hs as [Hlen (sg & Hsg & _)]. apply lookup_lt_Some in Hsg. lia.
      - destruct Hs as [Hlen Hsent].
        pose proof (read_returns SegmentsOverrun segs (2 * Z.of_nat h - 2) ltac:(lia))
          as Hread.
        destruct (read SegmentsOverrun segs (2 * Z.of_nat h - 2)) as [sg| |];
          try contradiction.
        exists (F32.nonzero (CompandSegment.x sg)). split; [reflexivity|].
        intros Hnz. destruct (Nat.eq_dec (2 * h)%nat len) as [Heq|]; [|lia].
        destruct Hsent as (sg0 & Hsg0 & Hz). simpl in Hread.
        replace (Z.to_nat (2 * Z.of_nat h - 2)) with (len - 2)%nat in Hread by lia.
        rewrite Hsg0 in Hread. injection Hread as <-. congruence. }
    destruct Hcont as (c & Hc & Hlt). cbn [to_log_domain]. rewrite Hc.
    cbn [mbind result_bind]. destruct c; [|exact Hs]. specialize (Hlt eq_refl).
    assert (Hstep : forall (f : segment -> segment) (segs1 : list segment),
              sentinel len segs1 ->
              (forall sg, F32.nonzero (CompandSegment.x sg) = false ->
                          F32.nonzero (CompandSegment.x (f sg)) = false) ->
              returns (sentinel len) (modify_segment segs1 (2 * Z.of_nat h) f)).
    { intros f segs1 Hs1 Hf.
      destruct (modify_segment_returns segs1 (2 * Z.of_nat h) f
                  ltac:(destruct Hs1; lia)) as (sg & Hsg & ->).
      simpl. destruct (Nat.eq_dec (Z.to_nat (2 * Z.of_nat h)) (len - 2)%nat) as [Heq|Hne].
      - destruct Hs1 as [Hlen1 (sg0 & Hsg0 & Hz)]. rewrite Heq in *.
        rewrite Hsg0 in Hsg. injection Hsg as <-.
        split; [rewrite length_insert; exact Hlen1|].
        exists (f sg0). split; [apply list_lookup_insert_eq; lia|apply Hf; exact Hz].
      - apply sentinel_insert; assumption. }
    apply returns_bind. eapply returns_mono; [|apply Hstep; [exact Hs|intros sg H; exact H]].
    intros segs1 Hs1.
    apply returns_bind. eapply returns_mono;
      [|apply Hstep; [exact Hs1|intros sg H; simpl; apply to_log_zero; exact H]].
    intros segs2 Hs2.
    apply returns_bind. eapply returns_mono; [|apply Hstep; [exact Hs2|intros sg H; exact H]].
    intros segs3 Hs3.
    replace (2 * Z.of_nat h + 2) with (2 * Z.of_nat (S h)) by lia.
    apply IH; try assumption.
    + destruct Heven as [q Hq]. lia.
    + lia.
Qed.

Lemma soft_knee_returns (libm : Libm) (radius : spec_float) (len : nat) (fuel : nat) :
  forall (h : nat) (segs : list segment),
  sentinel len segs -> (2 <= h)%nat -> (2 * h <= len)%nat -> Nat.Even len ->
  (len <= 2 * (h + fuel) - 2)%nat ->
  returns (fun segs' => length segs' = len)
          (soft_knee libm fuel radius (2 * Z.of_nat h) segs).
Proof.
  induction fuel as [|fuel IH]; intros h segs Hs H2 Hh Heven Hfuel.
  - lia.
  - assert (Hlen : length segs = len) by apply Hs.
    cbn [soft_knee].
    pose proof (read_returns SegmentsOverrun segs (2 * Z.of_nat h - 2) ltac:(lia)) as Hread.
    destruct (read SegmentsOverrun segs (2 * Z.of_nat h - 2)) as [l2| |];
      try contradiction.
    simpl in Hread. cbn [mbind result_bind].
    destruct (F32.nonzero (CompandSegment.x l2)) eqn:Hnz.
    + assert (Hlt : (2 * h < len)%nat).
      { destruct (Nat.eq_dec (2 * h)%nat len) as [Heq|]; [|lia].
        destruct Hs as [_ (sg0 & Hsg0 & Hz)].
        replace (Z.to_nat (2 * Z.of_nat h - 2)) with (len - 2)%nat in Hread by lia.
        rewrite Hsg0 in Hread. injection Hread as <-. congruence. }
      assert (Hle : (2 * h + 2 <= len)%nat) by (destruct Heven as [q Hq]; lia).
      apply returns_bind. eapply returns_mono; [|apply read_returns; lia]. intros l4 _.
      apply returns_bind. eapply returns_mono; [|apply read_returns; lia]. intros l3 _.
      apply returns_bind. eapply returns_mono; [|apply read_returns; lia]. intros l0 _.
      destruct (round_knee libm radius l4 l3 l2 l0) as [[l4' l3'] l2'].
      rewrite write_returns by lia. cbn [mbind result_bind].
      rewrite write_returns by (rewrite length_insert; lia). cbn [mbind result_bind].
      rewrite write_returns by (rewrite !length_insert; lia). cbn [mbind result_bind].
      replace (2 * Z.of_nat h + 2) with (2 * Z.of_nat (S h)) by lia.
      apply IH; try assumption; try lia.
      repeat apply sentinel_insert; try assumption; lia.
    + destruct (modify_segment_returns segs (2 * Z.of_nat h - 3)
                  (CompandSegment.set_x F32.zero) ltac:(lia)) as (sg & _ & ->).
      cbn [mbind result_bind].
      match goal with |- context [modify_segment ?l ?i ?f] =>
        destruct (modify_segment_returns l i f ltac:(rewrite length_insert; lia))
          as (sg' & _ & ->) end.
      simpl. rewrite !length_insert. exact Hlen.
Qed.

(** On the array the points loop leaves, the curve is built without a step
    outside the array. *)
Lemma build_curve_returns (libm : Libm) (s : CompandContext) (num : Z)
    (segs : list segment) :
  1 <= num -> Z.of_nat (length segs) = (num + 4) * 2 ->
  (forall j, (Z.to_nat (2 * num) < j < length segs)%nat ->
             segs !! j = Some CompandSegment.zeroed) ->
  returns (fun segs' => length segs' = length segs) (build_curve libm s num segs).
Proof.
  intros Hnum Hlen Hzero. unfold build_curve.
  apply returns_bind.
  eapply returns_mono; [|apply add_origin_returns; lia]. intros num1 Hnum1.
  cbv beta in Hnum1.
  apply returns_bind.
  eapply returns_mono; [|apply add_tail_returns; lia]. intros segs1 [Hlen1 Hfar1].
  apply returns_bind.
  eapply returns_mono;
    [|apply (join_colinear_returns (Z.to_nat (num1 + 1 - 2)) 2 (num1 + 1) segs1);
      lia].
  intros [num2 segs2] (Hnum2 & Hlen2 & Hfar2).
  assert (Hsent : sentinel (length segs) segs2).
  { split; [congruence|]. exists CompandSegment.zeroed. split; [|reflexivity].
    rewrite Hfar2, Hfar1 by lia. apply Hzero. lia. }
  assert (Heven : Nat.Even (length segs)) by (exists (Z.to_nat (num + 4)); lia).
  apply returns_bind. rewrite Hlen2, Hlen1.
  eapply returns_mono;
    [|apply (to_log_domain_returns (gain_dB s) (length segs) (S (length segs)) 0 segs2);
      try assumption; lia].
  intros segs3 Hs3. destruct (Hs3) as [Hlen3 _]. rewrite Hlen3.
  apply (soft_knee_returns libm _ (length segs) (S (length segs)) 2 segs3);
    try assumption; lia.
Qed.

(** *** What [config_output] returns *)

Lemma init_channels_returns (libm : Libm) (sample_rate : Z) (vol : spec_float)
    (nchan : Z) (chans : list ChanParam) :
  0 <= nchan -> Z.of_nat (length chans) = nchan ->
  returns (fun chans' => length chans' = length chans)
          (for_upto 0 nchan (init_channel libm sample_rate vol) chans).
Proof.
  intros Hn Hlen.
  apply (for_upto_within _ _ (fun _ chans' => length chans' = length chans));
    [lia|reflexivity|].
  intros j chans' Hj Hlen'. unfold init_channel.
  apply returns_bind. eapply returns_mono; [|apply read_returns; lia]. intros cp _.
  rewrite write_returns by lia. simpl. rewrite length_insert. exact Hlen'.
Qed.

Section Outcome.
Variable libm : Libm.
Variable sscanf_f : string -> option spec_float.
Variable sscanf_ff : string -> option (spec_float * spec_float).
Variable host : Host.
Variable s : CompandContext.
Variables nchan sample_rate : Z.

  Hypothesis Hnchan : 0 < nchan.
  Hypothesis Hattacks : count_items (attacks s) <= nchan.
  Hypothesis Hdecays : count_items (decays s) <= nchan.
  Hypothesis Harrays : arrays_ok host = true.
  Hypothesis Ha : Forall (fun it => it <> EmptyString) (items (attacks s)).
  Hypothesis Hd : Forall (fun it => it <> EmptyString) (items (decays s)).
  Hypothesis Hp : Forall (fun it => it <> EmptyString) (items (points s)).

Lemma config_output_negative :
    has_negative sscanf_f (items (attacks s)) || has_negative sscanf_f (items (decays s))
    = true ->
    config_output libm sscanf_f sscanf_ff host s nchan sample_rate = Error EINVAL.
Proof using Hnchan Hattacks Hdecays Harrays Ha Hd.
    intros Hneg. unfold config_output.
    destruct (Z.leb_spec nchan 0); [lia|].
    destruct (Z.gtb_spec (count_items (attacks s)) nchan); [lia|].
    destruct (Z.gtb_spec (count_items (decays s)) nchan); [lia|].
    rewrite Harrays. cbn [orb negb].
    pose proof (parse_times_items sscanf_f s nchan Ha Hd Hattacks Hdecays) as Hpt.
    rewrite Hneg in Hpt. rewrite Hpt. reflexivity.
Qed.

Lemma config_output_counts :
    values_read sscanf_f (items (attacks s)) <> values_read sscanf_f (items (decays s)) ->
    config_output libm sscanf_f sscanf_ff host s nchan sample_rate = Error EINVAL.
Proof using Hnchan Hattacks Hdecays Harrays Ha Hd.
    intros Hne.
    destruct (has_negative sscanf_f (items (attacks s))
              || has_negative sscanf_f (items (decays s))) eqn:Hneg;
      [exact (config_output_negative Hneg)|].
    unfold config_output.
    destruct (Z.leb_spec nchan 0); [lia|].
    destruct (Z.gtb_spec (count_items (attacks s)) nchan); [lia|].
    destruct (Z.gtb_spec (count_items (decays s)) nchan); [lia|].
    rewrite Harrays. cbn [orb negb].
    pose proof (parse_times_items sscanf_f s nchan Ha Hd Hattacks Hdecays) as Hpt.
    rewrite Hneg in Hpt. destruct Hpt as (chans & saveptr & -> & _).
    cbn [mbind result_bind]. cbv beta iota.
    destruct (Z.eqb_spec (values_read sscanf_f (items (attacks s)))
                (values_read sscanf_f (items (decays s)))); [contradiction|reflexivity].
Qed.

  Hypothesis Hneg :
    has_negative sscanf_f (items (attacks s)) || has_negative sscanf_f (items (decays s))
    = false.
  Hypothesis Hcounts :
    values_read sscanf_f (items (attacks s)) = values_read sscanf_f (items (decays s)).

Lemma config_output_points_rejected :
    points_accepted sscanf_ff None (items (points s)) = false ->
    config_output libm sscanf_f sscanf_ff host s nchan sample_rate = Error EINVAL.
Proof using Hnchan Hattacks Hdecays Harrays Ha Hd Hp Hneg Hcounts.
    intros Hrej. unfold config_output.
    destruct (Z.leb_spec nchan 0); [lia|].
    destruct (Z.gtb_spec (count_items (attacks s)) nchan); [lia|].
    destruct (Z.gtb_spec (count_items (decays s)) nchan); [lia|].
    rewrite Harrays. cbn [orb negb].
    pose proof (parse_times_items sscanf_f s nchan Ha Hd Hattacks Hdecays) as Hpt.
    rewrite Hneg in Hpt. destruct Hpt as (chans & saveptr & -> & _).
    cbn [mbind result_bind]. cbv beta iota.
    rewrite Hcounts, Z.eqb_refl. cbn [negb].
    pose proof (parse_points_items sscanf_ff s saveptr Hp) as Hpp.
    rewrite Hrej in Hpp. rewrite Hpp. reflexivity.
Qed.

  (** With the options in order the function gets as far as the delay. *)
Lemma config_output_points_accepted :
    points_accepted sscanf_ff None (items (points s)) = true ->
    exists s1,
      config_output libm sscanf_f sscanf_ff host s nchan sample_rate
      = setup_delay host s1 nchan sample_rate /\
      delay s1 = delay s /\ nb_channels s1 = nchan /\
      Z.of_nat (length (channels s1)) = nchan /\
      delay_count s1 = delay_count s /\ delay_index s1 = delay_index s.
Proof using Hnchan Hattacks Hdecays Harrays Ha Hd Hp Hneg Hcounts.
    intros Hacc. unfold config_output.
    destruct (Z.leb_spec nchan 0); [lia|].
    destruct (Z.gtb_spec (count_items (attacks s)) nchan); [lia|].
    destruct (Z.gtb_spec (count_items (decays s)) nchan); [lia|].
    rewrite Harrays. cbn [orb negb].
    pose proof (parse_times_items sscanf_f s nchan Ha Hd Hattacks Hdecays) as Hpt.
    rewrite Hneg in Hpt. destruct Hpt as (chans & saveptr & -> & Hlen).
    cbn [mbind result_bind]. cbv beta iota.
    rewrite Hcounts, Z.eqb_refl. cbn [negb].
    pose proof (parse_points_items sscanf_ff s saveptr Hp) as Hpp.
    rewrite Hacc in Hpp. destruct Hpp as (segs & -> & Hslen & Hzero).
    cbn [mbind result_bind]. cbv beta iota.
    pose proof (count_items_pos (points s)) as Hpos.
    pose proof (build_curve_returns libm s (count_items (points s)) segs Hpos Hslen Hzero)
      as Hbuild.
    destruct (build_curve libm s (count_items (points s)) segs) as [segs'| |];
      try contradiction.
    simpl in Hbuild. cbn [mbind result_bind].
    pose proof (read_returns SegmentsOverrun segs' 1 ltac:(lia)) as Hfirst.
    destruct (read SegmentsOverrun segs' 1) as [first| |]; try contradiction.
    cbn [mbind result_bind].
    pose proof (init_channels_returns libm sample_rate (initial_volume s) nchan chans
                  ltac:(lia) ltac:(lia)) as Hinit.
    destruct (for_upto 0 nchan _ chans) as [chans'| |]; try contradiction.
    simpl in Hinit. cbn [mbind result_bind].
    eexists. split; [reflexivity|]. simpl. split_and!; try reflexivity. lia.
Qed.
End Outcome.

(** ** The curve evaluator *)



(** The scan returns the first knot from index 2 on whose [x] is not below
    the level, when there is one. *)
Lemma find_segment_first (rest : list segment) (in_log : spec_float) (i : Z) (k : nat)
    (sg : segment) :
  rest !! k = Some sg -> F32.leb in_log (CompandSegment.x sg) = true ->
  (forall j sg', (j < k)%nat -> rest !! j = Some sg' ->
                 F32.leb in_log (CompandSegment.x sg') = false) ->
  find_segment rest in_log i = Ok (i + Z.of_nat k).
Proof.
  revert i k. induction rest as [|sg0 rest IH]; intros i k Hk Hle Hbefore; [discriminate|].
  destruct k as [|k]; simpl in Hk |- *.
  - injection Hk as ->. rewrite Hle. f_equal. lia.
  - rewrite (Hbefore 0%nat sg0 ltac:(lia) eq_refl).
    rewrite (IH (i + 1) k Hk Hle); [f_equal; lia|].
    intros j sg' Hj Hsg'. apply (Hbefore (S j) sg'); [lia|exact Hsg'].
Qed.

Lemma find_segment_overrun (rest : list segment) (in_log : spec_float) (i : Z) :
  Forall (fun sg => F32.leb in_log (CompandSegment.x sg) = false) rest ->
  find_segment rest in_log i = Undefined SegmentsOverrun.
Proof.
  revert i. induction rest as [|sg rest IH]; intros i Hall; [reflexivity|].
  apply Forall_cons in Hall as [Hsg Hall]. simpl. rewrite Hsg. apply IH. exact Hall.
Qed.

(** C2: a level that is not below [in_min_lin] and whose logarithm is above
    the [x] of every knot from index 2 on (as it is above the last knot, 0,
    for every level above 1.0) is not given the last segment: the scan reads
    past the array. *)
Theorem get_volume_overrun (libm : Libm) (s : CompandContext) (v : spec_float) :
  F32.ltb v (in_min_lin s) = false ->
  Forall (fun sg => F32.leb (logf libm v) (CompandSegment.x sg) = false)
         (drop 2 (segments s)) ->
  get_volume libm s v = Undefined SegmentsOverrun.
Proof.
  intros Hge Hall. unfold get_volume. rewrite Hge.
  rewrite (find_segment_overrun _ _ _ Hall). reflexivity.
Qed.

Lemma get_volume_overrun_witness :
  F32.ltb Reference.two32 (in_min_lin (Reference.unity F64.zero 1 44100)) = false /\
  get_volume Reference.libm (Reference.unity F64.zero 1 44100) Reference.two32
  = Undefined SegmentsOverrun.
Proof.
  split; [vm_compute; reflexivity|].
  apply (get_volume_overrun Reference.libm (Reference.unity F64.zero 1 44100)
           Reference.two32).
  - vm_compute. reflexivity.
  - vm_compute. repeat constructor.
Defined.

(** ** The soft knee *)





(** ** The envelope follower *)

Lemma F32_valid_abs (v : spec_float) : F32.valid v = true -> F32.valid (SFabs v) = true.
Proof. destruct v; simpl; auto. Qed.

Lemma coefficient_instantaneous (libm : Libm) (sample_rate : Z) (t : spec_float) :
  F64.leb (F64.of_f32 t) (F64.div F64.one (F64.of_Z sample_rate)) = true ->
  coefficient libm sample_rate t = F32.one.
Proof.
  intros Hle. unfold coefficient, F64.gtb. rewrite (SFleb_not_gt _ _ Hle). reflexivity.
Qed.

Lemma update_volume_rule (cp : ChanParam) (inp : spec_float) :
  volume (update_volume cp inp)
  = F32.add (volume cp)
      (F32.mul (F32.sub inp (volume cp))
         (if F32.gtb (F32.sub inp (volume cp)) F32.zero then attack cp else decay cp)).
Proof. unfold update_volume. destruct (F32.gtb _ _); reflexivity. Qed.

(** C9, as the code has it: the update adds [delta * attack] to the volume
    when [delta = |sample| - volume] is positive and [delta * decay]
    otherwise, in single precision.  The setup makes a coefficient 1.0 when
    the time constant is at most [1 / sample_rate]; with both coefficients
    1.0 the new volume is the rounded sum [volume + delta], which is the
    rectified sample when the old volume is zero, and differs from it
    wherever the subtraction rounds. *)
Theorem update_volume_instantaneous (libm : Libm) (sample_rate : Z)
    (t_attack t_decay : spec_float) (cp : ChanParam) (smp : spec_float) :
  F64.leb (F64.of_f32 t_attack) (F64.div F64.one (F64.of_Z sample_rate)) = true ->
  F64.leb (F64.of_f32 t_decay) (F64.div F64.one (F64.of_Z sample_rate)) = true ->
  attack cp = coefficient libm sample_rate t_attack ->
  decay cp = coefficient libm sample_rate t_decay ->
  F32.valid smp = true ->
  F32.valid (F32.sub (SFabs smp) (volume cp)) = true ->
  attack cp = F32.one /\ decay cp = F32.one /\
  volume (update_volume cp (SFabs smp))
  = F32.add (volume cp) (F32.sub (SFabs smp) (volume cp)) /\
  (volume cp = F32.zero -> volume (update_volume cp (SFabs smp)) = SFabs smp).
Proof.
  intros Hta Htd Ha Hd Hsmp Hdelta.
  rewrite (coefficient_instantaneous _ _ _ Hta) in Ha.
  rewrite (coefficient_instantaneous _ _ _ Htd) in Hd.
  assert (Hsum : volume (update_volume cp (SFabs smp))
                 = F32.add (volume cp) (F32.sub (SFabs smp) (volume cp))).
  { rewrite update_volume_rule, Ha, Hd.
    destruct (F32.gtb _ _); rewrite (F32_mul_one _ Hdelta); reflexivity. }
  split_and!; try assumption.
  intros Hzero. rewrite Hsum, Hzero.
  destruct smp as [sgn|sgn| |sgn m e]; reflexivity.
Qed.

Lemma update_volume_instantaneous_witness :
  let cp := {| attack := F32.one; decay := F32.one; volume := F32.zero |} in
  F64.leb (F64.of_f32 F32.zero) (F64.div F64.one (F64.of_Z 44100)) = true /\
  attack cp = coefficient Reference.libm 44100 F32.zero /\
  decay cp = coefficient Reference.libm 44100 F32.zero /\
  F32.valid Reference.tiny = true /\
  F32.valid (F32.sub (SFabs Reference.tiny) (volume cp)) = true /\
  (attack cp = F32.one /\ decay cp = F32.one /\
   volume (update_volume cp (SFabs Reference.tiny))
   = F32.add (volume cp) (F32.sub (SFabs Reference.tiny) (volume cp)) /\
   (volume cp = F32.zero ->
    volume (update_volume cp (SFabs Reference.tiny)) = SFabs Reference.tiny)).
Proof.
  cbv zeta.
  do 5 (split; [vm_compute; reflexivity|]).
  apply (update_volume_instantaneous Reference.libm 44100 F32.zero F32.zero
           {| attack := F32.one; decay := F32.one; volume := F32.zero |} Reference.tiny);
    vm_compute; reflexivity.
Defined.

(** Against C9 as stated: both coefficients 1.0, the volume 1.0 (what the
    setup makes of the default initial volume), a sample of 1e-10: the
    subtraction rounds to -1.0, and the new volume is 0, not the sample. *)
Lemma update_volume_loses_small_sample :
  let cp := {| attack := F32.one; decay := F32.one; volume := F32.one |} in
  F32.valid Reference.tiny = true /\
  F32.sub (SFabs Reference.tiny) (volume cp) = F32.neg_one /\
  volume (update_volume cp (SFabs Reference.tiny)) = F32.zero /\
  volume (update_volume cp (SFabs Reference.tiny)) <> SFabs Reference.tiny.
Proof. vm_compute. split_and!; try reflexivity. discriminate. Qed.

(** ** The claims on the delay line *)

(** A context that [config_output] has put in delay mode, the fill state
    still at zero, satisfies the invariant. *)
Lemma config_output_delay_wf (libm : Libm) (sscanf_f : string -> option spec_float)
    (sscanf_ff : string -> option (spec_float * spec_float)) (host : Host)
    (s s' : CompandContext) (nchan sample_rate : Z) :
  config_output libm sscanf_f sscanf_ff host s nchan sample_rate = Ok s' ->
  compand s' = use_compand_delay ->
  delay_count s = 0 -> delay_index s = 0 ->
  delay_wf s' /\ delay_count s' = 0 /\ delay_index s' = 0 /\ nb_channels s' = nchan.
Proof.
  intros Hcfg Hmode Hc Hi.
  destruct (config_output_Ok _ _ _ _ _ _ _ _ Hcfg)
    as (Hn & _ & _ & nb & chans & saveptr & num & segs0 & segs & first & chans'
        & Hpt & _ & _ & _ & Hinit & Hdelay).
  destruct (setup_delay_Ok _ _ _ _ _ Hdelay)
    as (n & _ & Hds & Hnc & Hch & _ & _ & _ & Hcount & Hindex & Hle & Hgt).
  simpl in Hnc, Hch, Hcount, Hindex.
  assert (Hpos : 0 < n).
  { destruct (Z.lt_ge_cases 0 n) as [|Hn0]; [assumption|].
    destruct (Hle ltac:(lia)) as [Hno _]. congruence. }
  destruct (Hgt Hpos) as (_ & f & Hf & _ & Hplanes).
  pose proof (parse_times_length sscanf_f s nchan) as Hlen. rewrite Hpt in Hlen.
  simpl in Hlen.
  pose proof (init_channels_returns libm sample_rate (initial_volume s) nchan chans
                ltac:(lia) ltac:(lia)) as Hlen'.
  rewrite Hinit in Hlen'. simpl in Hlen'.
  split_and!; try congruence.
  constructor; try lia.
  - rewrite Hch, Hnc. lia.
  - exists f. split; [exact Hf|]. rewrite Hnc, Hds. apply Hplanes. lia.
Qed.

(** C10: on a delay line that satisfies [0 <= delay_index < delay_samples]
    and [0 <= delay_count <= delay_samples], with its buffers of
    [delay_samples] slots, a call of [compand_delay] and a call of
    [compand_drain] leave both again, the index moved on by the number of
    samples modulo the capacity; neither steps outside the delay buffers, the
    frames or the channel array (the one undefined behaviour left is the
    curve evaluator's, the one error a failed allocation). *)
Theorem delay_line_invariants (libm : Libm) (rescale : Z -> Z) (s : CompandContext)
    (frame : AVFrame) (alloc_ok : bool) :
  delay_wf s -> frame_ok (nb_channels s) frame ->
  safe (fun '(s', _) =>
          delay_wf s' /\
          delay_index s' = (delay_index s + nb_samples frame) mod delay_samples s /\
          delay_count s' = Z.min (delay_samples s) (delay_count s + nb_samples frame) /\
          0 <= delay_index s' < delay_samples s' /\
          0 <= delay_count s' <= delay_samples s')
       (compand_delay libm rescale s frame alloc_ok) /\
  safe (fun '(s', _) =>
          delay_wf s' /\
          delay_index s'
          = (delay_index s + Z.min 2048 (delay_count s)) mod delay_samples s /\
          delay_count s' = delay_count s - Z.min 2048 (delay_count s) /\
          0 <= delay_index s' < delay_samples s' /\
          0 <= delay_count s' <= delay_samples s')
       (compand_drain libm rescale s alloc_ok).
Proof.
  intros Hwf Hfr. split.
  - eapply safe_mono; [|apply compand_delay_safe; assumption].
    intros [s' out] (Hwf' & _ & Hcount & Hindex & _).
    split_and!; try assumption; apply Hwf'.
  - eapply safe_mono; [|apply compand_drain_safe; assumption].
    intros [s' out] (Hwf' & _ & _ & _ & Hcount & Hindex & _).
    split_and!; try assumption; apply Hwf'.
Qed.

Lemma delay_line_invariants_witness :
  let s := Reference.unity Reference.delay_2_11 1 8000 in
  let frame := Reference.frame_of [[Reference.half; Reference.quarter]] in
  delay_wf s /\ frame_ok (nb_channels s) frame /\
  safe (fun '(s', _) =>
          delay_wf s' /\
          delay_index s' = (delay_index s + nb_samples frame) mod delay_samples s /\
          delay_count s' = Z.min (delay_samples s) (delay_count s + nb_samples frame) /\
          0 <= delay_index s' < delay_samples s' /\
          0 <= delay_count s' <= delay_samples s')
       (compand_delay Reference.libm Reference.av_rescale_q s frame true) /\
  safe (fun '(s', _) =>
          delay_wf s' /\
          delay_index s'
          = (delay_index s + Z.min 2048 (delay_count s)) mod delay_samples s /\
          delay_count s' = delay_count s - Z.min 2048 (delay_count s) /\
          0 <= delay_index s' < delay_samples s' /\
          0 <= delay_count s' <= delay_samples s')
       (compand_drain Reference.libm Reference.av_rescale_q s true).
Proof.
  cbv zeta.
  assert (Hwf : delay_wf (Reference.unity Reference.delay_2_11 1 8000)).
  { apply (config_output_delay_wf Reference.libm Reference.sscanf_f Reference.sscanf_ff
             Reference.host (Reference.unity_options Reference.delay_2_11) _ 1 8000);
      vm_compute; reflexivity. }
  assert (Hfr : frame_ok (nb_channels (Reference.unity Reference.delay_2_11 1 8000))
                  (Reference.frame_of [[Reference.half; Reference.quarter]])).
  { split; [vm_compute; discriminate|]. split; [reflexivity|]. repeat constructor. }
  split; [exact Hwf|]. split; [exact Hfr|].
  exact (delay_line_invariants Reference.libm Reference.av_rescale_q _ _ true Hwf Hfr).
Defined.





(** ** The claim on the drain *)




(** ** The claims on the setup *)

Lemma whenever_any {A : Type} (r : result A) : whenever (fun _ => True) r.
Proof. destruct r; exact I. Qed.

Lemma for_upto_invariant (E : averror -> Prop) (F : fault -> Prop) {St : Type}
    (I : St -> Prop) (body : Z -> St -> result St) (lo hi : Z) (st : St) :
  I st -> (forall j st, I st -> within E F I (body j st)) ->
  within E F I (for_upto lo hi body st).
Proof.
  intros Hi Hbody. unfold for_upto.
  apply (for_range_within E F (fun _ => I)); [exact Hi|]. intros j st' _. apply Hbody.
Qed.

Ltac skip_step :=
  apply within_bind; eapply within_mono; [|apply whenever_any];
  let v := fresh "v" in intros v _; try (destruct v as [? ?]).

Lemma compand_nodelay_config (libm : Libm) (s : CompandContext) (frame : AVFrame)
    (writable alloc_ok : bool) :
  whenever (fun '(s', _) => same_config s s')
           (compand_nodelay libm s frame writable alloc_ok).
Proof.
  unfold compand_nodelay. skip_step.
  apply within_bind.
  eapply within_mono;
    [|apply (for_upto_invariant _ _ (fun st => same_config s (fst st)))].
  - intros [s' out] H. exact H.
  - apply same_config_refl.
  - intros j [s' out] Hst. unfold nodelay_channel. do 6 skip_step. exact Hst.
Qed.

Lemma compand_delay_config (libm : Libm) (rescale : Z -> Z) (s : CompandContext)
    (frame : AVFrame) (alloc_ok : bool) :
  whenever (fun '(s', _) => same_config s s')
           (compand_delay libm rescale s frame alloc_ok).
Proof.
  unfold compand_delay. apply within_bind.
  eapply within_mono;
    [|apply (for_upto_invariant _ _ (fun st => same_config s (c_ctx st)))].
  - intros st H. exact H.
  - apply same_config_refl.
  - intros j st Hst. unfold delay_channel.
    destruct (delay_frame (c_ctx st)); [|exact I]. do 6 skip_step. exact Hst.
Qed.

Lemma compand_drain_config (libm : Libm) (rescale : Z -> Z) (s : CompandContext)
    (alloc_ok : bool) :
  whenever (fun '(s', _) => same_config s s') (compand_drain libm rescale s alloc_ok).
Proof.
  unfold compand_drain. destruct alloc_ok; [|exact I]. skip_step.
  destruct o as [dindex|]; [|exact I]. repeat split.
Qed.

Lemma filter_frame_config (libm : Libm) (rescale : Z -> Z) (s s' : CompandContext)
    (frame : AVFrame) (writable alloc_ok : bool) (out : option AVFrame) :
  filter_frame libm rescale s frame writable alloc_ok = Ok (s', out) ->
  same_config s s'.
Proof.
  unfold filter_frame. destruct (compand s); [discriminate| |]; intros H.
  - pose proof (compand_nodelay_config libm s frame writable alloc_ok) as Hc.
    rewrite H in Hc. exact Hc.
  - pose proof (compand_delay_config libm rescale s frame alloc_ok) as Hc.
    rewrite H in Hc. exact Hc.
Qed.

Lemma request_frame_config (libm : Libm) (rescale : Z -> Z) (s s' : CompandContext)
    (ret : Z) (alloc_ok : bool) (r : requested) :
  request_frame libm rescale s ret alloc_ok = Ok (s', r) -> same_config s s'.
Proof.
  unfold request_frame. destruct (_ && _).
  - intros H. apply bind_Ok in H as ([s1 out] & Hd & [= <- _]).
    pose proof (compand_drain_config libm rescale s alloc_ok) as Hc.
    rewrite Hd in Hc. exact Hc.
  - intros [= <- _]. apply same_config_refl.
Qed.

(** C6, as the code has it: the capacity is the product
    [delay * sample_rate] converted to [int], which truncates it; a capacity
    that is not positive selects [compand_nodelay] and leaves no delay frame,
    a positive one selects [compand_delay] with a delay frame of that many
    samples on every channel; neither the capacity nor the mode changes in a
    later call of [filter_frame] or [request_frame]. *)
Theorem delay_capacity (libm : Libm) (sscanf_f : string -> option spec_float)
    (sscanf_ff : string -> option (spec_float * spec_float)) (host : Host)
    (s s' : CompandContext) (nchan sample_rate : Z) :
  config_output libm sscanf_f sscanf_ff host s nchan sample_rate = Ok s' ->
  exists n,
    F64.to_int (F64.mul (delay s) (F64.of_Z sample_rate)) = Some n /\
    delay_samples s' = n /\
    (n <= 0 -> compand s' = use_compand_nodelay /\ delay_frame s' = None) /\
    (0 < n ->
     compand s' = use_compand_delay /\
     exists f, delay_frame s' = Some f /\ nb_samples f = n /\
               planes_ok nchan n (extended_data f)) /\
    (forall rescale frame writable alloc_ok s'' out,
       filter_frame libm rescale s' frame writable alloc_ok = Ok (s'', out) ->
       delay_samples s'' = n /\ compand s'' = compand s') /\
    (forall rescale ret alloc_ok s'' r,
       request_frame libm rescale s' ret alloc_ok = Ok (s'', r) ->
       delay_samples s'' = n /\ compand s'' = compand s').
Proof.
  intros Hcfg.
  destruct (config_output_Ok _ _ _ _ _ _ _ _ Hcfg)
    as (Hn & _ & _ & nb & chans & saveptr & num & segs0 & segs & first & chans'
        & _ & _ & _ & _ & _ & Hdelay).
  destruct (setup_delay_Ok _ _ _ _ _ Hdelay)
    as (n & Hint & Hds & _ & _ & _ & _ & _ & _ & _ & Hle & Hgt).
  cbn [delay delay_frame set_out_min_lin set_in_min_lin set_segments set_channels
       set_delay_frame set_nb_channels] in Hint, Hle.
  exists n. split_and!; try assumption.
  - intros H0. destruct (Hgt H0) as (Hmode & f & Hf & Hnb & Hpl).
    split; [exact Hmode|]. exists f. split_and!; try assumption. apply Hpl. lia.
  - intros rescale frame writable alloc_ok s'' out H.
    destruct (filter_frame_config _ _ _ _ _ _ _ _ H) as (H1 & _ & H2 & _).
    split; congruence.
  - intros rescale ret alloc_ok s'' r H.
    destruct (request_frame_config _ _ _ _ _ _ _ H) as (H1 & _ & H2 & _).
    split; congruence.
Qed.

Lemma delay_capacity_witness :
  let s := Reference.unity_options Reference.delay_2_11 in
  let s' := Reference.unity Reference.delay_2_11 1 8000 in
  config_output Reference.libm Reference.sscanf_f Reference.sscanf_ff Reference.host
    s 1 8000 = Ok s' /\
  exists n,
    F64.to_int (F64.mul (delay s) (F64.of_Z 8000)) = Some n /\
    delay_samples s' = n /\ n = 3.
Proof.
  cbv zeta.
  assert (Hcfg : config_output Reference.libm Reference.sscanf_f Reference.sscanf_ff
                   Reference.host (Reference.unity_options Reference.delay_2_11) 1 8000
                 = Ok (Reference.unity Reference.delay_2_11 1 8000))
    by (vm_compute; reflexivity).
  split; [exact Hcfg|].
  destruct (delay_capacity _ _ _ _ _ _ _ _ Hcfg) as (n & Hint & Hds & _).
  exists n. split; [exact Hint|]. split; [exact Hds|].
  rewrite <- Hds. vm_compute. reflexivity.
Defined.

(** Against C6 as stated: a delay of 2^-13 s at 8000 Hz is 0.9765625
    samples, which rounds to 1 and is positive; the code makes the capacity 0
    of it and selects [compand_nodelay]. *)
Lemma delay_capacity_truncates :
  F64.mul Reference.delay_2_13 (F64.of_Z 8000) = S754_finite false 8796093022208000 (-53) /\
  nearest_int (F64.mul Reference.delay_2_13 (F64.of_Z 8000)) = Some 1 /\
  Reference.config (Reference.unity_options Reference.delay_2_13) 1 8000
  = Ok (Reference.unity Reference.delay_2_13 1 8000) /\
  delay_samples (Reference.unity Reference.delay_2_13 1 8000) = 0 /\
  compand (Reference.unity Reference.delay_2_13 1 8000) = use_compand_nodelay.
Proof. vm_compute. repeat split. Qed.

Lemma values_read_all (sscanf_f : string -> option spec_float) (its : list string) :
  Forall (fun it => is_Some (sscanf_f it)) its ->
  values_read sscanf_f its = Z.of_nat (length its).
Proof.
  intros Hall. unfold values_read. f_equal.
  induction Hall as [|it its Hit Hall IH]; [reflexivity|].
  rewrite filter_cons, decide_True by exact Hit. simpl. f_equal. exact IH.
Qed.

(** C7, as the code has it: the setup fails with [EINVAL] when there are
    more attack times or more decay times than channels, and when the number
    of attack values read differs from the number of decay values read;
    fewer times than channels are taken (the other channels keep a time
    constant of zero).  So a setup that succeeds has neither count above the
    channel count, and as many attack values as decay values.  When every
    item is read as a number, the values read are as many as the items. *)
Theorem time_constant_counts (libm : Libm) (sscanf_f : string -> option spec_float)
    (sscanf_ff : string -> option (spec_float * spec_float)) (host : Host)
    (s : CompandContext) (nchan sample_rate : Z) :
  Forall (fun it => it <> EmptyString) (items (attacks s)) ->
  Forall (fun it => it <> EmptyString) (items (decays s)) ->
  (count_items (attacks s) > nchan \/ count_items (decays s) > nchan ->
   config_output libm sscanf_f sscanf_ff host s nchan sample_rate = Error EINVAL) /\
  (0 < nchan -> count_items (attacks s) <= nchan -> count_items (decays s) <= nchan ->
   arrays_ok host = true ->
   values_read sscanf_f (items (attacks s)) <> values_read sscanf_f (items (decays s)) ->
   config_output libm sscanf_f sscanf_ff host s nchan sample_rate = Error EINVAL) /\
  (forall s',
   config_output libm sscanf_f sscanf_ff host s nchan sample_rate = Ok s' ->
   count_items (attacks s) <= nchan /\ count_items (decays s) <= nchan /\
   values_read sscanf_f (items (attacks s)) = values_read sscanf_f (items (decays s))) /\
  (Forall (fun it => is_Some (sscanf_f it)) (items (attacks s)) ->
   values_read sscanf_f (items (attacks s)) = count_items (attacks s)) /\
  (Forall (fun it => is_Some (sscanf_f it)) (items (decays s)) ->
   values_read sscanf_f (items (decays s)) = count_items (decays s)).
Proof.
  intros Ha Hd. split_and!.
  - intros Hover. unfold config_output.
    destruct (Z.leb_spec nchan 0); [reflexivity|].
    destruct (Z.gtb_spec (count_items (attacks s)) nchan); [reflexivity|].
    destruct (Z.gtb_spec (count_items (decays s)) nchan); [reflexivity|]. lia.
  - intros Hn Hna Hnd Harr Hne.
    exact (config_output_counts libm sscanf_f sscanf_ff host s nchan sample_rate
             Hn Hna Hnd Harr Ha Hd Hne).
  - intros s' Hcfg.
    destruct (config_output_Ok _ _ _ _ _ _ _ _ Hcfg)
      as (Hn & Hna & Hnd & nb & chans & saveptr & _ & _ & _ & _ & _ & Hpt & _).
    split_and!; try assumption.
    pose proof (parse_times_items sscanf_f s nchan Ha Hd Hna Hnd) as Hitems.
    destruct (_ || _); [congruence|].
    destruct Hitems as (chans0 & saveptr0 & Heq & _). congruence.
  - intros Hall. rewrite count_items_length. apply values_read_all. exact Hall.
  - intros Hall. rewrite count_items_length. apply values_read_all. exact Hall.
Qed.

Lemma time_constant_counts_witness :
  let s := Reference.unity_options F64.zero in
  Forall (fun it => it <> EmptyString) (items (attacks s)) /\
  Forall (fun it => it <> EmptyString) (items (decays s)) /\
  (count_items (attacks s) > 0 \/ count_items (decays s) > 0 ->
   config_output Reference.libm Reference.sscanf_f Reference.sscanf_ff Reference.host
     s 0 44100 = Error EINVAL) /\
  values_read Reference.sscanf_f (items (attacks s))
  = values_read Reference.sscanf_f (items (decays s)).
Proof.
  cbv zeta.
  assert (Ha : Forall (fun it => it <> EmptyString)
                 (items (attacks (Reference.unity_options F64.zero))))
    by (repeat constructor; discriminate).
  assert (Hd : Forall (fun it => it <> EmptyString)
                 (items (decays (Reference.unity_options F64.zero))))
    by (repeat constructor; discriminate).
  split; [exact Ha|]. split; [exact Hd|].
  pose proof (time_constant_counts Reference.libm Reference.sscanf_f Reference.sscanf_ff
                Reference.host (Reference.unity_options F64.zero) 0 44100 Ha Hd)
    as (Hover & _).
  pose proof (time_constant_counts Reference.libm Reference.sscanf_f Reference.sscanf_ff
                Reference.host (Reference.unity_options F64.zero) 1 44100 Ha Hd)
    as (_ & _ & Hok & _).
  split; [exact Hover|].
  apply (Hok (Reference.unity F64.zero 1 44100)). vm_compute. reflexivity.
Defined.

(** Against C7 as stated: one attack time and one decay time for two
    channels; the counts differ from the channel count, and the setup
    succeeds. *)
Lemma fewer_time_constants_accepted :
  count_items (attacks (Reference.unity_options F64.zero)) = 1 /\
  count_items (decays (Reference.unity_options F64.zero)) = 1 /\
  Reference.config (Reference.unity_options F64.zero) 2 44100
  = Ok (Reference.unity F64.zero 2 44100) /\
  nb_channels (Reference.unity F64.zero 2 44100) = 2.
Proof. vm_compute. repeat split. Qed.

Lemma points_accepted_unparsed (sscanf_ff : string -> option (spec_float * spec_float))
    (its : list string) (it : string) :
  it ∈ its -> sscanf_ff it = None ->
  forall prev, points_accepted sscanf_ff prev its = false.
Proof.
  intros Hin Hnone. induction Hin as [it its|it it' its Hin IH]; intros prev; simpl.
  - rewrite Hnone. reflexivity.
  - destruct (sscanf_ff it') as [[px py]|]; [|reflexivity].
    rewrite (IH Hnone). apply andb_false_r.
Qed.

Lemma points_accepted_descending (sscanf_ff : string -> option (spec_float * spec_float))
    (its : list string) (pts : list (spec_float * spec_float)) :
  Forall2 (fun it p => sscanf_ff it = Some p) its pts ->
  forall (k : nat) (p q : spec_float * spec_float) prev,
  pts !! k = Some p -> pts !! S k = Some q -> F32.ltb (fst q) (fst p) = true ->
  points_accepted sscanf_ff prev its = false.
Proof.
  intros Hall. induction Hall as [|it [px py] its pts Hit Hall IH];
    intros k p q prev Hp Hq Hlt; [discriminate|].
  simpl. rewrite Hit. destruct k as [|k].
  - injection Hp as <-. simpl in Hq, Hlt.
    destruct Hall as [|it' [qx qy] its' pts' Hit' Hall']; [discriminate|].
    injection Hq as <-. simpl in Hlt |- *. rewrite Hit'.
    unfold F32.gtb, F32.ltb in *. rewrite Hlt. simpl. apply andb_false_r.
  - rewrite (IH k p q (Some px) Hp Hq Hlt). apply andb_false_r.
Qed.

Lemma points_accepted_ascending (sscanf_ff : string -> option (spec_float * spec_float))
    (its : list string) (pts : list (spec_float * spec_float)) :
  Forall2 (fun it p => sscanf_ff it = Some p) its pts ->
  (forall (k : nat) p q, pts !! k = Some p -> pts !! S k = Some q ->
                         F32.leb (fst p) (fst q) = true) ->
  forall prev,
  (forall v p, prev = Some v -> pts !! 0%nat = Some p -> F32.leb v (fst p) = true) ->
  points_accepted sscanf_ff prev its = true.
Proof.
  intros Hall. induction Hall as [|it [px py] its pts Hit Hall IH];
    intros Hasc prev Hprev; [reflexivity|].
  simpl. rewrite Hit. apply andb_true_intro. split.
  - destruct prev as [v|]; [|reflexivity].
    unfold F32.gtb. rewrite (SFleb_not_gt v px); [reflexivity|].
    exact (Hprev v (px, py) eq_refl eq_refl).
  - apply IH.
    + intros k p q Hp Hq. exact (Hasc (S k) p q Hp Hq).
    + intros v p [= <-] Hp. exact (Hasc 0%nat (px, py) p eq_refl Hp).
Qed.

Lemma setup_delay_not_invalid (host : Host) (s : CompandContext) (nchan sample_rate : Z) :
  setup_delay host s nchan sample_rate <> Error EINVAL.
Proof.
  unfold setup_delay. destruct (F64.to_int _) as [n|]; [|discriminate].
  destruct (n <=? 0); [discriminate|].
  destruct (delay_frame_ok host); simpl; [|discriminate].
  destruct (get_buffer_err host =? 0); simpl; discriminate.
Qed.

(** C8: with the rest of the configuration in order, the setup fails with
    [EINVAL] when an item of the points is not read as a pair of numbers, and
    when the [x] of some point is below the [x] of the point in front of it;
    a list whose [x] never goes down (equal neighbours included) is taken:
    the setup does not fail with [EINVAL], the curve is built inside its
    array, and the setup succeeds when the delay line can be set up. *)
Theorem points_order (libm : Libm) (sscanf_f : string -> option spec_float)
    (sscanf_ff : string -> option (spec_float * spec_float)) (host : Host)
    (s : CompandContext) (nchan sample_rate : Z) (pts : list (spec_float * spec_float)) :
  0 < nchan ->
  count_items (attacks s) <= nchan -> count_items (decays s) <= nchan ->
  arrays_ok host = true ->
  Forall (fun it => it <> EmptyString) (items (attacks s)) ->
  Forall (fun it => it <> EmptyString) (items (decays s)) ->
  Forall (fun it => it <> EmptyString) (items (points s)) ->
  has_negative sscanf_f (items (attacks s)) || has_negative sscanf_f (items (decays s))
  = false ->
  values_read sscanf_f (items (attacks s)) = values_read sscanf_f (items (decays s)) ->
  (forall it, it ∈ items (points s) -> sscanf_ff it = None ->
   config_output libm sscanf_f sscanf_ff host s nchan sample_rate = Error EINVAL) /\
  (Forall2 (fun it p => sscanf_ff it = Some p) (items (points s)) pts ->
   (forall (k : nat) p q,
      pts !! k = Some p -> pts !! S k = Some q -> F32.ltb (fst q) (fst p) = true ->
      config_output libm sscanf_f sscanf_ff host s nchan sample_rate = Error EINVAL) /\
   ((forall (k : nat) p q,
       pts !! k = Some p -> pts !! S k = Some q -> F32.leb (fst p) (fst q) = true) ->
    config_output libm sscanf_f sscanf_ff host s nchan sample_rate <> Error EINVAL /\
    forall n,
      F64.to_int (F64.mul (delay s) (F64.of_Z sample_rate)) = Some n ->
      delay_frame_ok host = true -> get_buffer_err host = 0 ->
      exists s', config_output libm sscanf_f sscanf_ff host s nchan sample_rate = Ok s')).
Proof.
  intros Hn Hna Hnd Harr Ha Hd Hp Hneg Hcounts. split.
  - intros it Hin Hnone.
    apply config_output_points_rejected; try assumption.
    exact (points_accepted_unparsed sscanf_ff _ it Hin Hnone None).
  - intros Hall. split.
    + intros k p q Hkp Hkq Hlt.
      apply config_output_points_rejected; try assumption.
      exact (points_accepted_descending sscanf_ff _ pts Hall k p q None Hkp Hkq Hlt).
    + intros Hasc.
      assert (Hacc : points_accepted sscanf_ff None (items (points s)) = true).
      { apply (points_accepted_ascending sscanf_ff _ pts Hall Hasc). intros v p [=]. }
      destruct (config_output_points_accepted libm sscanf_f sscanf_ff host s nchan
                  sample_rate Hn Hna Hnd Harr Ha Hd Hp Hneg Hcounts Hacc)
        as (s1 & -> & Hdelay & _).
      split; [apply setup_delay_not_invalid|].
      intros n Hint Hframe Hbuf. unfold setup_delay. rewrite Hdelay, Hint, Hframe, Hbuf.
      destruct (n <=? 0); simpl; eauto.
Qed.

Lemma points_order_witness :
  let s := Reference.priv "0" "0" "-70/-70|-60/-20" Reference.curve_default
             F64.zero F64.zero F64.zero in
  let pts := [(F32.of_Z (-70), F32.of_Z (-70)); (F32.of_Z (-60), F32.of_Z (-20))] in
  0 < 1 /\
  count_items (attacks s) <= 1 /\ count_items (decays s) <= 1 /\
  arrays_ok Reference.host = true /\
  Forall (fun it => it <> EmptyString) (items (attacks s)) /\
  Forall (fun it => it <> EmptyString) (items (decays s)) /\
  Forall (fun it => it <> EmptyString) (items (points s)) /\
  has_negative Reference.sscanf_f (items (attacks s))
  || has_negative Reference.sscanf_f (items (decays s)) = false /\
  values_read Reference.sscanf_f (items (attacks s))
  = values_read Reference.sscanf_f (items (decays s)) /\
  Forall2 (fun it p => Reference.sscanf_ff it = Some p) (items (points s)) pts /\
  (forall (k : nat) p q,
     pts !! k = Some p -> pts !! S k = Some q -> F32.leb (fst p) (fst q) = true) /\
  config_output Reference.libm Reference.sscanf_f Reference.sscanf_ff Reference.host
    s 1 44100 <> Error EINVAL /\
  exists s', config_output Reference.libm Reference.sscanf_f Reference.sscanf_ff
               Reference.host s 1 44100 = Ok s'.
Proof.
  cbv zeta.
  set (s := Reference.priv "0" "0" "-70/-70|-60/-20" Reference.curve_default
              F64.zero F64.zero F64.zero).
  set (pts := [(F32.of_Z (-70), F32.of_Z (-70)); (F32.of_Z (-60), F32.of_Z (-20))]).
  assert (H1 : 0 < 1) by lia.
  assert (H2 : count_items (attacks s) <= 1) by (vm_compute; discriminate).
  assert (H3 : count_items (decays s) <= 1) by (vm_compute; discriminate).
  assert (H4 : arrays_ok Reference.host = true) by reflexivity.
  assert (H5 : Forall (fun it => it <> EmptyString) (items (attacks s)))
    by (repeat constructor; discriminate).
  assert (H6 : Forall (fun it => it <> EmptyString) (items (decays s)))
    by (repeat constructor; discriminate).
  assert (H7 : Forall (fun it => it <> EmptyString) (items (points s)))
    by (repeat constructor; discriminate).
  assert (H8 : has_negative Reference.sscanf_f (items (attacks s))
               || has_negative Reference.sscanf_f (items (decays s)) = false)
    by (vm_compute; reflexivity).
  assert (H9 : values_read Reference.sscanf_f (items (attacks s))
               = values_read Reference.sscanf_f (items (decays s)))
    by (vm_compute; reflexivity).
  assert (H10 : Forall2 (fun it p => Reference.sscanf_ff it = Some p) (items (points s)) pts)
    by (repeat constructor).
  assert (H11 : forall (k : nat) p q,
            pts !! k = Some p -> pts !! S k = Some q -> F32.leb (fst p) (fst q) = true).
  { intros [|[|k]] p q Hp Hq; try discriminate.
    injection Hp as <-. injection Hq as <-. vm_compute. reflexivity. }
  split_and!; try assumption.
  - apply (points_order Reference.libm Reference.sscanf_f Reference.sscanf_ff
             Reference.host s 1 44100 pts H1 H2 H3 H4 H5 H6 H7 H8 H9); assumption.
  - destruct (points_order Reference.libm Reference.sscanf_f Reference.sscanf_ff
                Reference.host s 1 44100 pts H1 H2 H3 H4 H5 H6 H7 H8 H9)
      as (_ & Hpts).
    destruct (Hpts H10) as (_ & Hacc). destruct (Hacc H11) as (_ & Hok).
    apply (Hok 0); reflexivity.
Defined.

(** ** The domain of the curve evaluator *)

Lemma find_segment_bounds (rest : list segment) (in_log : spec_float) (i r : Z) :
  find_segment rest in_log i = Ok r -> i <= r < i + Z.of_nat (length rest).
Proof.
  revert i. induction rest as [|sg rest IH]; intros i; simpl; [discriminate|].
  destruct (F32.leb _ _).
  - intros [= <-]. lia.
  - intros H. apply IH in H. lia.
Qed.

Lemma find_segment_defined (rest : list segment) (in_log : spec_float) (i : Z) :
  (exists r, find_segment rest in_log i = Ok r) <->
  Exists (fun sg => F32.leb in_log (CompandSegment.x sg) = true) rest.
Proof.
  revert i. induction rest as [|sg rest IH]; intros i; simpl.
  - split; [intros [r [=]]|intros H; inversion H].
  - destruct (F32.leb in_log (CompandSegment.x sg)) eqn:Hle.
    + split; [intros _; apply Exists_cons_hd; exact Hle|eauto].
    + rewrite IH. split; [apply Exists_cons_tl|].
      intros H. apply Exists_cons in H as [H|H]; [congruence|exact H].
Qed.

(** X1: the evaluator returns a gain exactly for the levels below [in_min_lin]
    and for those whose logarithm is not above the [x] of every knot from
    index 2 on; the gain is then read off the segment in front of the first
    such knot. *)
Theorem get_volume_domain (libm : Libm) (s : CompandContext) (v : spec_float) :
  ((exists g, get_volume libm s v = Ok g) <->
   F32.ltb v (in_min_lin s) = true \/
   Exists (fun sg => F32.leb (logf libm v) (CompandSegment.x sg) = true)
          (drop 2 (segments s))) /\
  (forall (k : nat) (sg cs : segment),
     F32.ltb v (in_min_lin s) = false ->
     segments s !! (2 + k)%nat = Some sg ->
     F32.leb (logf libm v) (CompandSegment.x sg) = true ->
     (forall j sg', (j < k)%nat -> segments s !! (2 + j)%nat = Some sg' ->
                    F32.leb (logf libm v) (CompandSegment.x sg') = false) ->
     segments s !! (1 + k)%nat = Some cs ->
     let d := F32.sub (logf libm v) (CompandSegment.x cs) in
     get_volume libm s v
     = Ok (expf libm
             (F32.add (CompandSegment.y cs)
                (F32.mul d (F32.add (F32.mul (CompandSegment.a cs) d)
                                    (CompandSegment.b cs)))))).
Proof.
  split.
  - unfold get_volume. destruct (F32.ltb v (in_min_lin s)) eqn:Hlt.
    + split; [auto|eauto].
    + rewrite <- (find_segment_defined _ _ 1). split.
      * intros [g Hg]. right. apply bind_Ok in Hg as (r & Hr & _). eauto.
      * intros [H|[r Hr]]; [discriminate|]. rewrite Hr. simpl.
        pose proof (find_segment_bounds _ _ _ _ Hr) as Hb. rewrite length_drop in Hb.
        pose proof (read_returns SegmentsOverrun (segments s) r ltac:(lia)) as Hrd.
        apply returns_Ok in Hrd as (cs & -> & _). simpl. eauto.
  - intros k sg cs Hlt Hsg Hle Hbefore Hcs d. unfold get_volume. rewrite Hlt.
    rewrite (find_segment_first _ _ 1 k sg).
    + simpl. rewrite (read_Ok SegmentsOverrun (segments s) (1 + Z.of_nat k) cs).
      * reflexivity.
      * lia.
      * replace (Z.to_nat (1 + Z.of_nat k)) with (1 + k)%nat by lia. exact Hcs.
    + rewrite lookup_drop. exact Hsg.
    + exact Hle.
    + intros j sg' Hj Hsg'. rewrite lookup_drop in Hsg'. eauto.
Qed.

(** ** Levels up to full scale *)

Lemma read_inv {A : Type} (f : fault) (arr : list A) (i : Z) (v : A) :
  read f arr i = Ok v -> 0 <= i /\ arr !! Z.to_nat i = Some v.
Proof.
  unfold read. destruct (Z.ltb_spec i 0); [discriminate|].
  destruct (arr !! Z.to_nat i); [|discriminate]. intros [= ->]. auto.
Qed.

Lemma write_inv {A : Type} (f : fault) (arr arr' : list A) (i : Z) (v : A) :
  write f arr i v = Ok arr' ->
  0 <= i < Z.of_nat (length arr) /\ arr' = <[Z.to_nat i := v]> arr.
Proof.
  unfold write. destruct (Z.leb_spec 0 i); [|discriminate].
  destruct (Z.ltb_spec i (Z.of_nat (length arr))); [|discriminate].
  intros [= <-]. split; [lia|reflexivity].
Qed.

Lemma modify_segment_inv (segs segs' : list segment) (i : Z) (f : segment -> segment) :
  modify_segment segs i f = Ok segs' ->
  0 <= i < Z.of_nat (length segs) /\
  exists sg, segs !! Z.to_nat i = Some sg /\ segs' = <[Z.to_nat i := f sg]> segs.
Proof.
  unfold modify_segment. intros H. apply bind_Ok in H as (sg & Hsg & H).
  apply read_inv in Hsg as [_ Hsg]. apply write_inv in H as [Hi ->]. eauto.
Qed.

Lemma soft_knee_zero_knot (libm : Libm) (radius : spec_float) (fuel : nat) :
  forall (i : Z) (segs segs' : list segment),
  4 <= i -> soft_knee libm fuel radius i segs = Ok segs' ->
  exists (j : nat) (sg : segment),
    (2 <= j)%nat /\ segs' !! j = Some sg /\ F32.nonzero (CompandSegment.x sg) = false.
Proof.
  assert (Hexit : forall (i : Z) (segs segs' : list segment) (l2 : segment),
            4 <= i -> read SegmentsOverrun segs (i - 2) = Ok l2 ->
            F32.nonzero (CompandSegment.x l2) = false ->
            (segs ← modify_segment segs (i - 3) (CompandSegment.set_x F32.zero);
             modify_segment segs (i - 3) (CompandSegment.set_y (CompandSegment.y l2)))
            = Ok segs' ->
            exists (j : nat) (sg : segment),
              (2 <= j)%nat /\ segs' !! j = Some sg /\
              F32.nonzero (CompandSegment.x sg) = false).
  { intros i segs segs' l2 Hi Hl2 Hnz H.
    apply bind_Ok in H as (segs1 & H1 & H2).
    apply modify_segment_inv in H1 as (_ & sg1 & _ & ->).
    apply modify_segment_inv in H2 as (_ & sg2 & _ & ->).
    apply read_inv in Hl2 as [_ Hl2].
    exists (Z.to_nat (i - 2)), l2. split; [lia|]. split; [|exact Hnz].
    rewrite !list_lookup_insert_ne by lia. exact Hl2. }
  induction fuel as [|fuel IH]; intros i segs segs' Hi H.
  - simpl in H. apply bind_Ok in H as (l2 & Hl2 & H).
    destruct (F32.nonzero (CompandSegment.x l2)) eqn:Hnz; [discriminate|].
    exact (Hexit i segs segs' l2 Hi Hl2 Hnz H).
  - cbn [soft_knee] in H. apply bind_Ok in H as (l2 & Hl2 & H).
    destruct (F32.nonzero (CompandSegment.x l2)) eqn:Hnz.
    + apply bind_Ok in H as (l4 & _ & H). apply bind_Ok in H as (l3 & _ & H).
      apply bind_Ok in H as (l0 & _ & H).
      destruct (round_knee libm radius l4 l3 l2 l0) as [[l4' l3'] l2'].
      apply bind_Ok in H as (segs1 & _ & H). apply bind_Ok in H as (segs2 & _ & H).
      apply bind_Ok in H as (segs3 & _ & H).
      apply (IH (i + 2) segs3 segs'); [lia|exact H].
    + exact (Hexit i segs segs' l2 Hi Hl2 Hnz H).
Qed.

Lemma leb_zero_any_sign (v w : spec_float) :
  F32.leb v F32.zero = true -> F32.nonzero w = false -> F32.leb v w = true.
Proof.
  intros Hv Hw. apply nonzero_false_zero in Hw as [sgn ->].
  destruct v; exact Hv.
Qed.

(** X2: after a successful setup the array holds, at an index from 2 on, a knot
    whose [x] is zero; so every level whose logarithm is at most zero (the
    levels up to 1.0, full scale) is evaluated inside the array. *)
Theorem full_scale_in_domain (libm : Libm) (sscanf_f : string -> option spec_float)
    (sscanf_ff : string -> option (spec_float * spec_float)) (host : Host)
    (s s' : CompandContext) (nchan sample_rate : Z) (v : spec_float) :
  config_output libm sscanf_f sscanf_ff host s nchan sample_rate = Ok s' ->
  F32.leb (logf libm v) F32.zero = true ->
  exists g, get_volume libm s' v = Ok g.
Proof.
  intros Hcfg Hv.
  destruct (config_output_Ok _ _ _ _ _ _ _ _ Hcfg)
    as (Hn & _ & _ & nb & chans & saveptr & num & segs0 & segs & first & chans'
        & _ & _ & Hbuild & _ & _ & Hdelay).
  destruct (setup_delay_Ok _ _ _ _ _ Hdelay)
    as (n & _ & _ & _ & _ & Hsegs & _).
  cbn [segments set_out_min_lin set_in_min_lin set_segments] in Hsegs.
  unfold build_curve in Hbuild.
  apply bind_Ok in Hbuild as (num1 & _ & Hbuild).
  apply bind_Ok in Hbuild as (segs1 & _ & Hbuild).
  apply bind_Ok in Hbuild as ([num2 segs2] & _ & Hbuild).
  apply bind_Ok in Hbuild as (segs3 & _ & Hknee).
  apply soft_knee_zero_knot in Hknee as (j & sg & Hj & Hsg & Hz); [|lia].
  apply (proj1 (get_volume_domain libm s' v)). right. rewrite Hsegs.
  apply Exists_exists. exists sg. split.
  - apply list_elem_of_lookup. exists (j - 2)%nat. rewrite lookup_drop.
    replace (2 + (j - 2))%nat with j by lia. exact Hsg.
  - apply leb_zero_any_sign; assumption.
Qed.

Lemma full_scale_in_domain_witness :
  config_output Reference.libm Reference.sscanf_f Reference.sscanf_ff Reference.host
    (Reference.unity_options F64.zero) 1 44100
  = Ok (Reference.unity F64.zero 1 44100) /\
  F32.leb (logf Reference.libm F32.one) F32.zero = true /\
  exists g, get_volume Reference.libm (Reference.unity F64.zero 1 44100) F32.one = Ok g.
Proof.
  assert (Hcfg : config_output Reference.libm Reference.sscanf_f Reference.sscanf_ff
                   Reference.host (Reference.unity_options F64.zero) 1 44100
                 = Ok (Reference.unity F64.zero 1 44100)) by (vm_compute; reflexivity).
  assert (Hv : F32.leb (logf Reference.libm F32.one) F32.zero = true)
    by (vm_compute; reflexivity).
  split; [exact Hcfg|]. split; [exact Hv|].
  exact (full_scale_in_domain _ _ _ _ _ _ _ _ _ Hcfg Hv).
Defined.

Lemma envelope_snoc (cp : ChanParam) (src : list spec_float) (v : spec_float) :
  envelope cp (src ++ [v]) = update_volume (envelope cp src) (SFabs v).
Proof. unfold envelope. rewrite fold_left_app. reflexivity. Qed.


Lemma find_segment_outcome (rest : list segment) (in_log : spec_float) (i : Z) :
  within (fun _ => False) (fun f => f = SegmentsOverrun) (fun _ => True)
         (find_segment rest in_log i).
Proof.
  revert i. induction rest as [|sg rest IH]; intros i; simpl; [reflexivity|].
  destruct (F32.leb _ _); [exact I|apply IH].
Qed.

Lemma get_volume_outcome (libm : Libm) (s : CompandContext) (v : spec_float) :
  within (fun _ => False) (fun f => f = SegmentsOverrun) (fun _ => True)
         (get_volume libm s v).
Proof.
  unfold get_volume. destruct (F32.ltb _ _); [exact I|].
  apply within_bind. eapply within_mono; [|apply find_segment_outcome].
  intros i _. apply within_bind. unfold read.
  destruct (i <? 0); [reflexivity|]. destruct (segments s !! _); [exact I|reflexivity].
Qed.

Lemma nodelay_sample_evaluated (libm : Libm) (s0 s : CompandContext) (cp : ChanParam)
    (src : list spec_float) (n : Z) (j : Z) (st : ChanParam * list spec_float) :
  same_config s0 s -> Z.of_nat (length src) = n -> 0 <= j < n ->
  let I (j : Z) (st : ChanParam * list spec_float) :=
    fst st = envelope cp (take (Z.to_nat j) src) /\
    Z.of_nat (length (snd st)) = n /\
    forall i, (i < Z.to_nat j)%nat -> nodelay_output libm s0 cp src (snd st) i in
  I j st ->
  within (fun _ => False)
         (fun f => f = SegmentsOverrun /\ gain_undefined libm s0 cp src)
         (I (j + 1)) (nodelay_sample libm s src j st).
Proof.
  intros Hcfg Hlen Hj I. destruct st as [cp' dst]. intros (Hcp & Hdst & Hout).
  simpl in Hcp, Hdst, Hout. unfold nodelay_sample.
  apply within_bind, returns_within.
  eapply returns_mono; [|apply read_returns; lia]. intros v Hv.
  assert (Henv : update_volume cp' (SFabs v)
                 = envelope cp (take (S (Z.to_nat j)) src)).
  { rewrite (take_S_r _ _ _ Hv), envelope_snoc, Hcp. reflexivity. }
  rewrite Henv.
  destruct Hcfg as (_ & _ & _ & Hsegs & Hin & Hout_min).
  rewrite (get_volume_ext libm s0 s _ Hsegs Hin Hout_min).
  pose proof (get_volume_outcome libm s0
                (volume (envelope cp (take (S (Z.to_nat j)) src)))) as Hg.
  destruct (get_volume libm s0 _) as [g| |] eqn:Hgv; simpl in Hg |- *; try exact Hg.
  2:{ subst f. split; [reflexivity|]. exists (Z.to_nat j). split; [lia|exact Hgv]. }
  rewrite write_returns by lia. simpl. unfold I. simpl. split_and!.
  - f_equal. f_equal. lia.
  - rewrite length_insert. exact Hdst.
  - intros i Hi. destruct (Nat.eq_dec i (Z.to_nat j)) as [->|Hne].
    + exists v, g. split_and!; [exact Hv|exact Hgv|].
      apply list_lookup_insert_eq. lia.
    + destruct (Hout i ltac:(lia)) as (v' & g' & Hv' & Hg' & Hd').
      exists v', g'. split_and!; [exact Hv'|exact Hg'|].
      rewrite list_lookup_insert_ne by lia. exact Hd'.
Qed.

Lemma within_weaken (E E' : averror -> Prop) (F F' : fault -> Prop) {A : Type}
    (P : A -> Prop) (r : result A) :
  (forall e, E e -> E' e) -> (forall f, F f -> F' f) ->
  within E F P r -> within E' F' P r.
Proof. destruct r; simpl; auto. Qed.

Lemma nodelay_channel_evaluated (libm : Libm) (s : CompandContext) (frame : AVFrame)
    (chan : Z) (st : CompandContext * AVFrame) :
  frame_ok (nb_channels s) frame -> 0 <= chan < nb_channels s ->
  nodelay_chan_inv libm s frame chan st ->
  within (fun _ => False) (nodelay_overrun libm s frame)
         (nodelay_chan_inv libm s frame (chan + 1))
         (nodelay_channel libm frame chan st).
Proof.
  intros [Hn [Hplanes Hlens]] Hchan. destruct st as [s' out].
  intros (Hcfg & Hdl & Hchans & Hnb & Hpts & [Hoplanes Holens] & Hdone & Hrest).
  unfold nodelay_channel.
  apply within_bind, returns_within.
  eapply returns_mono; [|apply read_returns; lia]. intros src Hsrc.
  apply within_bind, returns_within.
  eapply returns_mono; [|apply read_returns; lia]. intros dst Hdst.
  apply within_bind, returns_within.
  eapply returns_mono; [|apply read_returns; lia]. intros cp Hcp.
  assert (Hsrclen : Z.of_nat (length src) = nb_samples frame).
  { rewrite Forall_forall in Hlens. apply Hlens. eapply list_elem_of_lookup_2, Hsrc. }
  assert (Hdstlen : Z.of_nat (length dst) = nb_samples frame).
  { rewrite Forall_forall in Holens. apply Holens. eapply list_elem_of_lookup_2, Hdst. }
  rewrite Hrest in Hcp by lia.
  apply within_bind.
  eapply within_mono;
    [|eapply (within_weaken (fun _ => False) _
                (fun f => f = SegmentsOverrun /\ gain_undefined libm s cp src));
      [intros e []
      |intros f [-> Hf]; split; [reflexivity|]; exists chan, src, cp; auto
      |];
      apply (for_upto_within _ _
               (fun j st => fst st = envelope cp (take (Z.to_nat j) src) /\
                            Z.of_nat (length (snd st)) = nb_samples frame /\
                            forall i, (i < Z.to_nat j)%nat ->
                                      nodelay_output libm s cp src (snd st) i));
      [exact Hn| |]].
  - intros [cp' dst'] (Hcp' & Hdst' & Hout). simpl in Hcp', Hdst', Hout.
    rewrite (write_returns ChannelsOverrun (channels s')) by lia. simpl.
    unfold set_plane. rewrite (write_returns FrameOverrun (extended_data out)) by lia.
    simpl. rewrite take_ge in Hcp' by lia.
    split_and!; try assumption.
    + rewrite length_insert. exact Hchans.
    + split; [rewrite length_insert; exact Hoplanes|].
      apply Forall_insert; [exact Holens|exact Hdst'].
    + intros c Hc. destruct (Z.eq_dec c chan) as [->|Hne].
      * exists src, dst', cp. split_and!; try assumption.
        -- simpl. apply list_lookup_insert_eq. lia.
        -- simpl. rewrite Hcp'. apply list_lookup_insert_eq. lia.
        -- intros i Hi. apply Hout. lia.
      * destruct (Hdone c ltac:(lia)) as (src0 & dst0 & cp0 & H1 & H2 & H3 & H4 & H5).
        exists src0, dst0, cp0. split_and!; try assumption.
        -- simpl. rewrite list_lookup_insert_ne by lia. exact H2.
        -- simpl. rewrite list_lookup_insert_ne by lia. exact H4.
    + intros c Hc. rewrite list_lookup_insert_ne by lia. apply Hrest. lia.
  - simpl. split_and!; [reflexivity|exact Hdstlen|]. intros i Hi. lia.
  - intros j st Hj Hst.
    apply (nodelay_sample_evaluated libm s s' cp src (nb_samples frame) j st);
      assumption.
Qed.

Lemma compand_nodelay_evaluated (libm : Libm) (s : CompandContext) (frame : AVFrame)
    (writable alloc_ok : bool) :
  0 <= nb_channels s -> Z.of_nat (length (channels s)) = nb_channels s ->
  frame_ok (nb_channels s) frame ->
  within (fun e => e = ENOMEM /\ writable = false /\ alloc_ok = false)
         (nodelay_overrun libm s frame)
         (nodelay_post libm s frame)
         (compand_nodelay libm s frame writable alloc_ok).
Proof.
  intros Hnchan Hchans Hframe. unfold compand_nodelay.
  assert (Hloop : forall out,
            nb_samples out = nb_samples frame -> frame_pts out = frame_pts frame ->
            planes_ok (nb_channels s) (nb_samples frame) (extended_data out) ->
            within (fun e => e = ENOMEM /\ writable = false /\ alloc_ok = false)
                   (nodelay_overrun libm s frame)
                   (nodelay_post libm s frame)
                   ('(s', out_frame) ← for_upto 0 (nb_channels s)
                                         (nodelay_channel libm frame) (s, out);
                    Ok (s', Some out_frame))).
  { intros out Hnb Hpts Hplanes. apply within_bind.
    eapply within_mono;
      [|eapply within_mono with (P := nodelay_chan_inv libm s frame (nb_channels s));
        [intros v Hv; exact Hv|]].
    - intros [s' o] (Hcfg & Hdl & Hch & Hnb' & Hpts' & Hpl & Hdone & _). simpl.
      split_and!; try assumption. exists o. split_and!; try assumption. reflexivity.
    - apply (for_upto_within _ _ (nodelay_chan_inv libm s frame)).
      + exact Hnchan.
      + split_and!; try assumption; try reflexivity.
        * apply same_config_refl.
        * repeat split.
        * intros c Hc. lia.
      + intros j st Hj Hst.
        eapply within_weaken; [| |apply nodelay_channel_evaluated; assumption].
        * intros e [].
        * intros f Hf. exact Hf. }
  destruct writable.
  - simpl. apply Hloop; [reflexivity|reflexivity|apply Hframe].
  - destruct alloc_ok; simpl; [|auto].
    apply Hloop; [reflexivity|reflexivity|]. simpl. destruct Hframe as [Hn _].
    apply planes_ok_replicate; lia.
Qed.



(** ** A sample that is not a number *)

Lemma update_volume_nan (cp : ChanParam) :
  volume (update_volume cp S754_nan) = S754_nan.
Proof.
  unfold update_volume, F32.sub, F32.gtb, F32.add, F32.mul. simpl.
  destruct (volume cp); reflexivity.
Qed.

Lemma get_volume_nan (libm : Libm) (s : CompandContext) :
  logf libm S754_nan = S754_nan ->
  get_volume libm s S754_nan = Undefined SegmentsOverrun.
Proof.
  intros Hlog. unfold get_volume. rewrite Hlog. simpl.
  rewrite find_segment_overrun; [reflexivity|].
  apply Forall_forall. intros sg _. reflexivity.
Qed.

(** X4: a sample that is a NaN makes the envelope of its channel a NaN, and the
    scan of the evaluator then has no knot to stop at: with a C library
    whose [logf] of a NaN is a NaN, [compand_nodelay] on a frame that holds
    a NaN leaves the segment array. *)
Theorem nan_sample_leaves_array (libm : Libm) (s : CompandContext) (frame : AVFrame)
    (writable alloc_ok : bool) (chan : Z) (src : list spec_float) (i : nat) :
  logf libm S754_nan = S754_nan ->
  0 <= nb_channels s -> Z.of_nat (length (channels s)) = nb_channels s ->
  frame_ok (nb_channels s) frame ->
  writable || alloc_ok = true ->
  0 <= chan < nb_channels s ->
  extended_data frame !! Z.to_nat chan = Some src -> src !! i = Some S754_nan ->
  compand_nodelay libm s frame writable alloc_ok = Undefined SegmentsOverrun.
Proof.
  intros Hlog Hnchan Hchans Hframe Hbuf Hchan Hsrc Hi.
  pose proof (compand_nodelay_evaluated libm s frame writable alloc_ok
                Hnchan Hchans Hframe) as H.
  destruct (compand_nodelay libm s frame writable alloc_ok) as [[s' out]|e|f];
    simpl in H.
  - exfalso. destruct H as (_ & _ & _ & o & _ & _ & _ & _ & Hplanes).
    destruct (Hplanes chan Hchan) as (src' & dst & cp & Hsrc' & _ & _ & _ & Hout).
    rewrite Hsrc in Hsrc'. injection Hsrc' as <-.
    destruct (Hout i (lookup_lt_Some _ _ _ Hi)) as (v & g & _ & Hg & _).
    rewrite (take_S_r _ _ _ Hi), envelope_snoc in Hg.
    change (SFabs S754_nan) with S754_nan in Hg.
    rewrite update_volume_nan, (get_volume_nan libm s Hlog) in Hg. discriminate.
  - exfalso. destruct H as (_ & -> & ->). discriminate.
  - destruct H as [-> _]. reflexivity.
Qed.

Lemma nan_sample_leaves_array_witness :
  compand_nodelay Reference.libm (Reference.unity F64.zero 1 44100)
    (Reference.frame_of [[Reference.half; S754_nan]]) true false
  = Undefined SegmentsOverrun.
Proof.
  apply (nan_sample_leaves_array Reference.libm (Reference.unity F64.zero 1 44100)
           (Reference.frame_of [[Reference.half; S754_nan]]) true false
           0 [Reference.half; S754_nan] 1%nat).
  - reflexivity.
  - vm_compute. discriminate.
  - vm_compute. reflexivity.
  - split; [vm_compute; discriminate|]. split; [reflexivity|]. repeat constructor.
  - reflexivity.
  - vm_compute. split; [discriminate|reflexivity].
  - reflexivity.
  - reflexivity.
Defined.

(** ** A stream without delay *)

Lemma envelope_app (cp : ChanParam) (src src' : list spec_float) :
  envelope cp (src ++ src') = envelope (envelope cp src) src'.
Proof. unfold envelope. apply fold_left_app. Qed.

Lemma same_delay_line_trans (s1 s2 s3 : CompandContext) :
  same_delay_line s1 s2 -> same_delay_line s2 s3 -> same_delay_line s1 s3.
Proof.
  intros (H1 & H2 & H3 & H4) (H1' & H2' & H3' & H4'). unfold same_delay_line.
  split_and!; congruence.
Qed.

Lemma nodelay_output_head (libm : Libm) (s : CompandContext) (cp : ChanParam)
    (src dst rest rest' : list spec_float) (i : nat) :
  length dst = length src -> (i < length src)%nat ->
  nodelay_output libm s cp src dst i ->
  nodelay_output libm s cp (src ++ rest) (dst ++ rest') i.
Proof.
  intros Hlen Hi (v & g & Hv & Hg & Hd). exists v, g. split_and!.
  - rewrite lookup_app_l by lia. exact Hv.
  - rewrite take_app_le by lia. exact Hg.
  - rewrite lookup_app_l by lia. exact Hd.
Qed.

Lemma nodelay_output_tail (libm : Libm) (s s' : CompandContext) (cp : ChanParam)
    (src dst rest rest' : list spec_float) (i : nat) :
  same_config s s' -> length dst = length src ->
  nodelay_output libm s' (envelope cp src) rest rest' i ->
  nodelay_output libm s cp (src ++ rest) (dst ++ rest') (length src + i).
Proof.
  intros (_ & _ & _ & Hsegs & Hin & Hout) Hlen (v & g & Hv & Hg & Hd).
  exists v, g. split_and!.
  - rewrite lookup_app_r by lia. rewrite <- Hv. f_equal. lia.
  - rewrite take_app_ge by lia.
    replace (S (length src + i) - length src)%nat with (S i) by lia.
    rewrite envelope_app, <- Hg. symmetry. apply get_volume_ext; assumption.
  - rewrite lookup_app_r by lia. rewrite <- Hd. f_equal. lia.
Qed.

Lemma stream_plane_cons (chan : Z) (f : AVFrame) (frames : list AVFrame)
    (src : list spec_float) :
  extended_data f !! Z.to_nat chan = Some src ->
  stream_plane chan (f :: frames) = src ++ stream_plane chan frames.
Proof. intros H. unfold stream_plane. simpl. rewrite H. reflexivity. Qed.

Lemma gain_undefined_head (libm : Libm) (s : CompandContext) (cp : ChanParam)
    (src rest : list spec_float) :
  gain_undefined libm s cp src -> gain_undefined libm s cp (src ++ rest).
Proof.
  intros (i & Hi & Hg). exists i. split; [rewrite length_app; lia|].
  rewrite take_app_le by lia. exact Hg.
Qed.

Lemma gain_undefined_tail (libm : Libm) (s s' : CompandContext) (cp : ChanParam)
    (src rest : list spec_float) :
  same_config s s' ->
  gain_undefined libm s' (envelope cp src) rest ->
  gain_undefined libm s cp (src ++ rest).
Proof.
  intros (_ & _ & _ & Hsegs & Hin & Hout) (i & Hi & Hg).
  exists (length src + i)%nat. split; [rewrite length_app; lia|].
  rewrite take_app_ge by lia.
  replace (S (length src + i) - length src)%nat with (S i) by lia.
  rewrite envelope_app, <- Hg. symmetry. apply get_volume_ext; assumption.
Qed.

Lemma feed_nodelay_within (libm : Libm) (rescale : Z -> Z) (frames : list AVFrame) :
  forall s : CompandContext,
  compand s = use_compand_nodelay ->
  0 <= nb_channels s -> Z.of_nat (length (channels s)) = nb_channels s ->
  Forall (frame_ok (nb_channels s)) frames ->
  within (fun _ => False) (nodelay_stream_overrun libm s frames)
         (nodelay_stream_post libm s frames) (feed libm rescale s frames).
Proof.
  induction frames as [|f frames IH]; intros s Hmode Hnchan Hchans Hframes.
  - simpl. split; [apply same_config_refl|]. split; [repeat split|].
    split; [exact Hchans|]. split; [reflexivity|]. split; [reflexivity|].
    intros chan cp Hchan Hcp. split; [exact Hcp|]. split; [reflexivity|].
    intros i Hi. simpl in Hi. lia.
  - apply Forall_cons in Hframes as [Hf Hframes]. cbn [feed].
    unfold filter_frame. rewrite Hmode.
    apply within_bind.
    eapply within_mono;
      [|eapply within_weaken;
        [| |apply (compand_nodelay_evaluated libm s f false true); assumption]].
    + intros [s1 out] (Hcfg & Hdl & Hch1 & o & -> & Hnb & Hpts & Hpl & Hplanes).
      pose proof Hcfg as (_ & Hnc1 & Hmode1 & _).
      apply within_bind.
      eapply within_mono;
        [|eapply within_weaken; [| |apply (IH s1)]].
      * intros [s2 outs] (Hcfg2 & Hdl2 & Hch2 & Hnbs & Hptss & Hstream). simpl.
        split; [exact (same_config_trans _ _ _ Hcfg Hcfg2)|].
        split; [exact (same_delay_line_trans _ _ _ Hdl Hdl2)|].
        split; [congruence|]. split; [congruence|]. split; [congruence|].
        intros chan cp Hchan Hcp.
        destruct (Hplanes chan Hchan) as (src & dst & cp' & Hsrc & Hdst & Hcp' & Hcp1 & Hout).
        rewrite Hcp in Hcp'. injection Hcp' as <-.
        destruct (Hstream chan (envelope cp src) ltac:(lia) Hcp1) as (Hcp2 & Hlen2 & Hout2).
        rewrite (stream_plane_cons chan f frames src Hsrc).
        rewrite (stream_plane_cons chan o outs dst Hdst).
        assert (Hlen : length dst = length src).
        { destruct Hf as [_ [_ Hall]]. destruct Hpl as [_ Hall'].
          rewrite Forall_forall in Hall, Hall'.
          pose proof (Hall src (list_elem_of_lookup_2 _ _ _ Hsrc)).
          pose proof (Hall' dst (list_elem_of_lookup_2 _ _ _ Hdst)). lia. }
        split; [rewrite envelope_app; exact Hcp2|].
        split; [rewrite !length_app; lia|].
        intros i Hi. rewrite length_app in Hi.
        destruct (Nat.lt_ge_cases i (length src)) as [Hlt|Hge].
        -- apply nodelay_output_head; [exact Hlen|exact Hlt|apply Hout; exact Hlt].
        -- replace i with (length src + (i - length src))%nat by lia.
           apply (nodelay_output_tail libm s s1); [exact Hcfg|exact Hlen|].
           apply Hout2. lia.
      * intros e [].
      * intros fl [-> (chan & cp1 & Hchan & Hcp1 & Hund)]. split; [reflexivity|].
        destruct (Hplanes chan ltac:(lia)) as (src & dst & cp & Hsrc & Hdst & Hcp & Hcp1' & _).
        rewrite Hcp1 in Hcp1'. injection Hcp1' as ->.
        exists chan, cp. split; [lia|]. split; [exact Hcp|].
        rewrite (stream_plane_cons chan f frames src Hsrc).
        exact (gain_undefined_tail libm s s1 cp src _ Hcfg Hund).
      * congruence.
      * lia.
      * congruence.
      * rewrite Hnc1. exact Hframes.
    + intros e (_ & _ & [=]).
    + intros fl [-> (chan & src & cp & Hchan & Hsrc & Hcp & Hund)].
      split; [reflexivity|]. exists chan, cp. split; [exact Hchan|]. split; [exact Hcp|].
      rewrite (stream_plane_cons chan f frames src Hsrc).
      apply gain_undefined_head. exact Hund.
Qed.



(** X6: where the frames are cut does not matter: two sequences of frames that
    carry the same samples on every channel leave the same envelopes and
    give the same output samples, and the one is processed without fault
    when the other is. *)
Theorem nodelay_frame_boundaries (libm : Libm) (rescale : Z -> Z) (s s1 : CompandContext)
    (frames frames' outs : list AVFrame) :
  compand s = use_compand_nodelay ->
  0 <= nb_channels s -> Z.of_nat (length (channels s)) = nb_channels s ->
  Forall (frame_ok (nb_channels s)) frames ->
  Forall (frame_ok (nb_channels s)) frames' ->
  (forall chan, 0 <= chan < nb_channels s ->
                stream_plane chan frames' = stream_plane chan frames) ->
  feed libm rescale s frames = Ok (s1, outs) ->
  exists s1' outs',
    feed libm rescale s frames' = Ok (s1', outs') /\
    channels s1' = channels s1 /\
    forall chan, 0 <= chan < nb_channels s ->
                 stream_plane chan outs' = stream_plane chan outs.
Proof.
  intros Hmode Hnchan Hchans Hframes Hframes' Hsame Hfeed.
  pose proof (feed_nodelay_within libm rescale frames s Hmode Hnchan Hchans Hframes) as H.
  rewrite Hfeed in H. destruct H as (_ & _ & Hch1 & _ & _ & Hstream).
  pose proof (feed_nodelay_within libm rescale frames' s Hmode Hnchan Hchans Hframes') as H'.
  destruct (feed libm rescale s frames') as [[s1' outs']|e|f]; simpl in H'.
  - destruct H' as (_ & _ & Hch1' & _ & _ & Hstream').
    exists s1', outs'. split; [reflexivity|]. split.
    + apply list_eq. intros i.
      destruct (Nat.lt_ge_cases i (length (channels s))) as [Hlt|Hge].
      * destruct (lookup_lt_is_Some_2 _ _ Hlt) as [cp Hcp].
        destruct (Hstream (Z.of_nat i) cp ltac:(lia)) as (H1 & _);
          [rewrite Nat2Z.id; exact Hcp|].
        destruct (Hstream' (Z.of_nat i) cp ltac:(lia)) as (H1' & _);
          [rewrite Nat2Z.id; exact Hcp|].
        rewrite Nat2Z.id in H1, H1'. rewrite H1, H1', Hsame by lia. reflexivity.
      * rewrite !lookup_ge_None_2 by lia. reflexivity.
    + intros chan Hchan.
      destruct (lookup_lt_is_Some_2 (channels s) (Z.to_nat chan) ltac:(lia)) as [cp Hcp].
      destruct (Hstream chan cp Hchan Hcp) as (_ & Hlen & Hout).
      destruct (Hstream' chan cp Hchan Hcp) as (_ & Hlen' & Hout').
      rewrite (Hsame chan Hchan) in Hlen', Hout'.
      apply list_eq. intros i.
      destruct (Nat.lt_ge_cases i (length (stream_plane chan frames))) as [Hlt|Hge].
      * destruct (Hout i Hlt) as (v & g & Hv & Hg & ->).
        destruct (Hout' i Hlt) as (v' & g' & Hv' & Hg' & ->).
        congruence.
      * rewrite !lookup_ge_None_2 by lia. reflexivity.
  - destruct H'.
  - exfalso. destruct H' as [_ (chan & cp & Hchan & Hcp & i & Hi & Hg)].
    rewrite (Hsame chan Hchan) in Hi, Hg.
    destruct (Hstream chan cp Hchan Hcp) as (_ & _ & Hout).
    destruct (Hout i Hi) as (v & g & _ & Hg' & _). congruence.
Qed.

Lemma nodelay_frame_boundaries_witness :
  let s := Reference.unity F64.zero 1 44100 in
  let frames := [Reference.frame_of [[Reference.half; Reference.quarter]]] in
  let frames' := [Reference.frame_of [[Reference.half]];
                  Reference.frame_of [[Reference.quarter]]] in
  exists s1 outs s1' outs',
    feed Reference.libm Reference.av_rescale_q s frames = Ok (s1, outs) /\
    feed Reference.libm Reference.av_rescale_q s frames' = Ok (s1', outs') /\
    channels s1' = channels s1 /\
    forall chan, 0 <= chan < nb_channels s ->
                 stream_plane chan outs' = stream_plane chan outs.
Proof.
  cbv zeta.
  destruct (feed Reference.libm Reference.av_rescale_q (Reference.unity F64.zero 1 44100)
              [Reference.frame_of [[Reference.half; Reference.quarter]]])
    as [[s1 outs]|e|f] eqn:Hfeed; [|vm_compute in Hfeed; discriminate..].
  destruct (nodelay_frame_boundaries Reference.libm Reference.av_rescale_q
              (Reference.unity F64.zero 1 44100) s1
              [Reference.frame_of [[Reference.half; Reference.quarter]]]
              [Reference.frame_of [[Reference.half]];
               Reference.frame_of [[Reference.quarter]]] outs)
    as (s1' & outs' & Hfeed' & Hch & Hout).
  - vm_compute. reflexivity.
  - vm_compute. discriminate.
  - vm_compute. reflexivity.
  - repeat constructor; vm_compute; discriminate.
  - repeat constructor; vm_compute; discriminate.
  - intros chan Hchan. change (nb_channels _) with 1 in Hchan.
    assert (chan = 0) as -> by lia. reflexivity.
  - exact Hfeed.
  - exists s1, outs, s1', outs'. split; [reflexivity|]. split; [exact Hfeed'|].
    split; [exact Hch|exact Hout].
Defined.

(** ** The tokeniser *)

Lemma split_token_tokens (str : string) :
  match items str with
  | it :: its =>
      fst (split_token str) = it /\
      List.filter is_token (items (snd (split_token str))) = List.filter is_token its
  | [] => False
  end.
Proof.
  induction str as [|c str IH]; simpl.
  - split; reflexivity.
  - destruct (Ascii.eqb c "|"); simpl; [split; reflexivity|].
    destruct (items str) as [|it its]; [contradiction|].
    destruct IH as [Hfst Hsnd]. destruct (split_token str) as [tok sp]. simpl in *.
    subst tok. split; [reflexivity|exact Hsnd].
Qed.

Lemma strtok_r_tokens (p : option string) (saveptr : string) :
  match tokens_of (match p with Some str => str | None => saveptr end) with
  | [] => strtok_r p saveptr = (None, EmptyString)
  | t :: rest =>
      exists saveptr', strtok_r p saveptr = (Some t, saveptr') /\ tokens_of saveptr' = rest
  end.
Proof.
  unfold strtok_r. generalize (match p with Some str => str | None => saveptr end).
  clear p saveptr. intros str. induction str as [|c str IH]; [reflexivity|].
  unfold tokens_of in *. cbn [items skip_delimiters].
  destruct (Ascii.eqb c "|") eqn:Hc.
  - cbn [List.filter is_token]. exact IH.
  - pose proof (split_token_tokens str) as Hsplit.
    cbn [split_token]. rewrite Hc.
    destruct (items str) as [|it its]; [contradiction|].
    destruct Hsplit as [Hfst Hsnd]. destruct (split_token str) as [tok sp]. simpl in *.
    subst tok. exists sp. split; [reflexivity|exact Hsnd].
Qed.

Lemma tokens_of_length (str : string) :
  (length (tokens_of str) <= length (items str))%nat.
Proof. unfold tokens_of. apply List.filter_length_le. Qed.

Lemma tokens_of_all (its : list string) :
  Forall (fun it => it <> EmptyString) its -> List.filter is_token its = its.
Proof.
  induction 1 as [|it its Hit _ IH]; [reflexivity|]. simpl.
  destruct it; [contradiction|]. simpl. f_equal. exact IH.
Qed.

Lemma tokens_of_short (its : list string) :
  Exists (fun it => it = EmptyString) its ->
  (length (List.filter is_token its) < length its)%nat.
Proof.
  induction 1 as [it its ->|it its _ IH]; simpl.
  - pose proof (List.filter_length_le is_token its). lia.
  - destruct (is_token it); simpl; [lia|].
    pose proof (List.filter_length_le is_token its). lia.
Qed.

Lemma tokens_of_full (its : list string) :
  length (List.filter is_token its) = length its ->
  Forall (fun it => it <> EmptyString) its.
Proof.
  induction its as [|it its IH]; simpl; [constructor|].
  pose proof (List.filter_length_le is_token its).
  destruct it as [|c it]; simpl; [lia|].
  intros [= H']. constructor; [discriminate|apply IH; exact H'].
Qed.

(** ** The loops over the time constants, on any list *)

Lemma values_read_cons (sscanf_f : string -> option spec_float) (it : string)
    (its : list string) :
  values_read sscanf_f (it :: its)
  = match sscanf_f it with Some _ => 1 | None => 0 end + values_read sscanf_f its.
Proof.
  unfold values_read. rewrite filter_cons. destruct (sscanf_f it) as [v|].
  - rewrite decide_True by eauto. cbn [length]. lia.
  - rewrite decide_False by (intros [? [=]]). lia.
Qed.

Lemma parse_time_tokens (sscanf_f : string -> option spec_float)
    (set : spec_float -> ChanParam -> ChanParam) (get : ChanParam -> spec_float) :
  (forall v cp, get (set v cp) = v) ->
  forall (n : nat) (toks : list string) (i : Z) (tk : tokens) (cnt : Z)
         (chans : list ChanParam),
  at_tokens tk toks -> 0 <= i -> i + Z.of_nat n <= Z.of_nat (length chans) ->
  (forall j cp, i <= Z.of_nat j -> chans !! j = Some cp -> get cp = F32.zero) ->
  within (fun e => e = EINVAL /\ has_negative sscanf_f (take n toks) = true)
         (fun f => f = NullString /\ has_negative sscanf_f (take n toks) = false /\
                   (length toks < n)%nat)
         (fun '(tk', cnt', chans') =>
            at_tokens tk' (drop n toks) /\ (n <= length toks)%nat /\
            has_negative sscanf_f (take n toks) = false /\
            cnt' = cnt + values_read sscanf_f (take n toks) /\
            length chans' = length chans /\
            forall j cp, chans !! j = Some cp ->
                         chans' !! j = Some (time_slot sscanf_f set toks i n j cp))
         (for_range n i (parse_time sscanf_f set get) (tk, cnt, chans)).
Proof.
  intros Hget. induction n as [|n IH]; intros toks i tk cnt chans Hat Hi Hlen Hzero.
  - simpl. split_and!; try reflexivity.
    + exact Hat.
    + lia.
    + unfold values_read. simpl. lia.
    + intros j cp Hcp. rewrite Hcp. f_equal. unfold time_slot.
      destruct (Z.leb_spec i (Z.of_nat j)), (Z.ltb_spec (Z.of_nat j) (i + Z.of_nat 0));
        simpl; try reflexivity. lia.
  - cbn [for_range].
    pose proof (strtok_r_tokens (tok_p tk) (tok_saveptr tk)) as Htok.
    unfold at_tokens in Hat. rewrite Hat in Htok.
    destruct toks as [|t rest].
    + assert (Hstep : parse_time sscanf_f set get i (tk, cnt, chans)
                      = Undefined NullString)
        by (unfold parse_time; rewrite Htok; reflexivity).
      rewrite Hstep. simpl. split_and!; try reflexivity. lia.
    + destruct Htok as (saveptr' & Htok & Hrest).
      pose proof (read_returns ChannelsOverrun chans i ltac:(lia)) as Hread.
      destruct (read ChannelsOverrun chans i) as [cp| |] eqn:Hrd; try contradiction.
      simpl in Hread.
      assert (Hcp0 : get cp = F32.zero) by (apply (Hzero (Z.to_nat i)); [lia|exact Hread]).
      set (tk1 := {| tok_p := None; tok_saveptr := saveptr' |}) in *.
      assert (Hstep : parse_time sscanf_f set get i (tk, cnt, chans)
                = match sscanf_f t with
                  | Some v => if F32.ltb v F32.zero then Error EINVAL
                              else Ok (tk1, cnt + 1, <[Z.to_nat i := set v cp]> chans)
                  | None => Ok (tk1, cnt + 0, <[Z.to_nat i := cp]> chans)
                  end).
      { unfold parse_time. rewrite Htok, Hrd. cbn [mbind result_bind].
        destruct (sscanf_f t) as [v|]; rewrite write_returns by lia;
          cbn [mbind result_bind].
        - rewrite Hget. reflexivity.
        - rewrite Hcp0, F32_zero_not_negative. reflexivity. }
      rewrite Hstep. clear Hstep.
      cbn [take has_negative existsb]. fold (has_negative sscanf_f (take n rest)).
      rewrite values_read_cons.
      assert (Hnext : forall (v' : ChanParam) (got : Z),
                got = match sscanf_f t with Some _ => 1 | None => 0 end ->
                v' = match sscanf_f t with Some v => set v cp | None => cp end ->
                within
                  (fun e => e = EINVAL /\ false || has_negative sscanf_f (take n rest) = true)
                  (fun f => f = NullString /\
                            false || has_negative sscanf_f (take n rest) = false /\
                            (length (t :: rest) < S n)%nat)
                  (fun '(tk', cnt', chans') =>
                     at_tokens tk' (drop (S n) (t :: rest)) /\
                     (S n <= length (t :: rest))%nat /\
                     false || has_negative sscanf_f (take n rest) = false /\
                     cnt' = cnt + (got + values_read sscanf_f (take n rest)) /\
                     length chans' = length chans /\
                     forall j cp0, chans !! j = Some cp0 ->
                       chans' !! j = Some (time_slot sscanf_f set (t :: rest) i (S n) j cp0))
                  (for_range n (i + 1) (parse_time sscanf_f set get)
                     (tk1, cnt + got, <[Z.to_nat i := v']> chans))).
      { intros v' got Hgot Hv'eq.
        eapply within_mono;
          [|eapply within_weaken;
            [| |apply (IH rest (i + 1) tk1 (cnt + got) (<[Z.to_nat i := v']> chans))]].
        - intros [[tk' cnt'] chans'] (Hat' & Hn' & Hneg' & Hcnt' & Hlen' & Hslots).
          rewrite length_insert in Hlen'. simpl length.
          split_and!; try assumption; try lia.
          intros j cp0 Hcp0'. destruct (Nat.eq_dec j (Z.to_nat i)) as [->|Hne].
          + rewrite Hread in Hcp0'. injection Hcp0' as <-.
            rewrite (Hslots (Z.to_nat i) v') by (apply list_lookup_insert_eq; lia).
            f_equal. unfold time_slot.
            destruct (Z.leb_spec (i + 1) (Z.of_nat (Z.to_nat i))); [lia|]. simpl.
            destruct (Z.leb_spec i (Z.of_nat (Z.to_nat i))); [|lia].
            destruct (Z.ltb_spec (Z.of_nat (Z.to_nat i)) (i + Z.of_nat (S n))); [|lia].
            simpl. rewrite Nat.sub_diag. simpl. exact Hv'eq.
          + rewrite (Hslots j cp0) by (rewrite list_lookup_insert_ne by lia; exact Hcp0').
            f_equal. unfold time_slot.
            destruct (Z.leb_spec (i + 1) (Z.of_nat j)), (Z.leb_spec i (Z.of_nat j));
              try lia; simpl; [|reflexivity].
            destruct (Z.ltb_spec (Z.of_nat j) (i + 1 + Z.of_nat n)),
                     (Z.ltb_spec (Z.of_nat j) (i + Z.of_nat (S n))); try lia;
              [|reflexivity].
            replace (j - Z.to_nat i)%nat with (S (j - Z.to_nat (i + 1))) by lia.
            reflexivity.
        - intros e He. exact He.
        - intros f (Hf & Hn' & Hlt). split_and!; try assumption. simpl. lia.
        - exact Hrest.
        - lia.
        - rewrite length_insert. lia.
        - intros j cp0 Hj. rewrite list_lookup_insert_ne by lia. apply Hzero. lia. }
      destruct (sscanf_f t) as [v|] eqn:Hscan.
      * destruct (F32.ltb v F32.zero) eqn:Hneg.
        -- simpl. split; reflexivity.
        -- cbn [mbind result_bind]. apply Hnext; reflexivity.
      * cbn [mbind result_bind]. apply Hnext; reflexivity.
Qed.

(** ** The coefficient of a channel without a time constant *)

Lemma binary_round_aux_sign (prec emax : Z) (m e : Z) (l : location) :
  sign_clear (binary_round_aux prec emax false m e l) = true.
Proof.
  unfold binary_round_aux.
  destruct (shr_fexp prec emax m e l) as [mrs' e'].
  destruct (shr_fexp prec emax _ e' loc_Exact) as [mrs'' e''].
  destruct (shr_m mrs''); [reflexivity| |reflexivity].
  destruct (e'' <=? emax - prec); reflexivity.
Qed.

Lemma of_Z_sign (n : Z) : 0 < n -> sign_clear (F64.of_Z n) = true.
Proof.
  intros Hn. destruct n as [|p|p]; try lia.
  unfold F64.of_Z, binary_normalize, binary_round.
  destruct (shl_align _ _ _) as [mz ez]. apply binary_round_aux_sign.
Qed.

Lemma div_one_sign (v : spec_float) :
  sign_clear v = true -> sign_clear (F64.div F64.one v) = true.
Proof.
  destruct v as [[]|[]| |[] m e]; simpl; try congruence.
  intros _. unfold F64.div, F64.one, SFdiv.
  destruct (SFdiv_core_binary _ _ _ _ _ _) as [[mz ez] lz].
  apply binary_round_aux_sign.
Qed.

Lemma sign_clear_not_below_zero (v : spec_float) :
  sign_clear v = true -> SFltb v (S754_zero false) = false.
Proof. destruct v as [[]|[]| |[] m e]; intros H; try discriminate H; reflexivity. Qed.

Lemma coefficient_zero (libm : Libm) (sample_rate : Z) :
  0 < sample_rate -> coefficient libm sample_rate F32.zero = F32.one.
Proof.
  intros Hsr. unfold coefficient, F64.gtb. simpl F64.of_f32.
  rewrite sign_clear_not_below_zero; [reflexivity|].
  apply div_one_sign, of_Z_sign. exact Hsr.
Qed.

(** ** The two loops over the time constants *)

Lemma tokens_short_empty (its : list string) :
  (length (List.filter is_token its) < length its)%nat ->
  Exists (fun it => it = EmptyString) its.
Proof.
  induction its as [|it its IH]; simpl; [lia|].
  destruct it as [|c it]; simpl; [intros _; apply Exists_cons_hd; reflexivity|].
  intros H. apply Exists_cons_tl, IH. lia.
Qed.

Lemma empty_not_all (its : list string) :
  Exists (fun it => it = EmptyString) its ->
  Forall (fun it => it <> EmptyString) its -> False.
Proof.
  intros Hex Hall. apply Exists_exists in Hex as (it & Hin & ->).
  rewrite Forall_forall in Hall. exact (Hall _ Hin eq_refl).
Qed.

Lemma time_slot_full (sscanf_f : string -> option spec_float)
    (set : spec_float -> ChanParam -> ChanParam) (toks : list string) (j : nat)
    (cp : ChanParam) :
  time_slot sscanf_f set toks 0 (length toks) j cp
  = match toks !! j with
    | Some t => match sscanf_f t with Some v => set v cp | None => cp end
    | None => cp
    end.
Proof.
  unfold time_slot. destruct (Z.leb_spec 0 (Z.of_nat j)); [|lia]. simpl.
  rewrite Nat.sub_0_r.
  destruct (Z.ltb_spec (Z.of_nat j) (0 + Z.of_nat (length toks))); [reflexivity|].
  rewrite lookup_ge_None_2 by lia. reflexivity.
Qed.

(** What the two loops leave in the channels, and how they fail: on the
    first negative value, or on the NULL that [strtok_r] returns when an
    item is empty. *)
Lemma parse_times_tokens (sscanf_f : string -> option spec_float) (s : CompandContext)
    (nchan : Z) :
  count_items (attacks s) <= nchan -> count_items (decays s) <= nchan ->
  within
    (fun e => e = EINVAL /\
       (has_negative sscanf_f (tokens_of (attacks s)) = true \/
        Forall (fun it => it <> EmptyString) (items (attacks s)) /\
        has_negative sscanf_f (items (attacks s)) = false /\
        has_negative sscanf_f (tokens_of (decays s)) = true))
    (fun f => f = NullString /\
       (has_negative sscanf_f (tokens_of (attacks s)) = false /\
        Exists (fun it => it = EmptyString) (items (attacks s)) \/
        Forall (fun it => it <> EmptyString) (items (attacks s)) /\
        has_negative sscanf_f (items (attacks s)) = false /\
        has_negative sscanf_f (tokens_of (decays s)) = false /\
        Exists (fun it => it = EmptyString) (items (decays s))))
    (fun '(na, nd, chans, _) =>
       Forall (fun it => it <> EmptyString) (items (attacks s)) /\
       Forall (fun it => it <> EmptyString) (items (decays s)) /\
       has_negative sscanf_f (items (attacks s)) = false /\
       has_negative sscanf_f (items (decays s)) = false /\
       na = values_read sscanf_f (items (attacks s)) /\
       nd = values_read sscanf_f (items (decays s)) /\
       length chans = Z.to_nat nchan /\
       forall j, (j < Z.to_nat nchan)%nat ->
         chans !! j = Some {| attack := time_value sscanf_f (items (attacks s)) j;
                              decay := time_value sscanf_f (items (decays s)) j;
                              volume := F32.zero |})
    (parse_times sscanf_f s nchan).
Proof.
  intros Hna Hnd. unfold parse_times. rewrite !for_upto_items.
  rewrite count_items_length in Hna, Hnd.
  set (chans0 := replicate (Z.to_nat nchan) _).
  pose proof (tokens_of_length (attacks s)) as Hla.
  pose proof (tokens_of_length (decays s)) as Hld.
  apply within_bind.
  eapply within_mono;
    [|eapply within_weaken;
      [| |apply (parse_time_tokens sscanf_f set_attack attack ltac:(reflexivity)
                   (length (items (attacks s))) (tokens_of (attacks s)) 0
                   {| tok_p := Some (attacks s); tok_saveptr := EmptyString |} 0 chans0)]].
  - intros [[tk na] chans1] (_ & Hfull & Hneg & Hcnt & Hlen1 & Hslots).
    assert (Hall : Forall (fun it => it <> EmptyString) (items (attacks s)))
      by (apply tokens_of_full; unfold tokens_of in *; lia).
    assert (Hta : tokens_of (attacks s) = items (attacks s))
      by (apply tokens_of_all; exact Hall).
    rewrite Hta in *. rewrite take_ge in * by lia.
    rewrite for_upto_items. apply within_bind.
    eapply within_mono;
      [|eapply within_weaken;
        [| |apply (parse_time_tokens sscanf_f set_decay decay ltac:(reflexivity)
                     (length (items (decays s))) (tokens_of (decays s)) 0
                     {| tok_p := Some (decays s); tok_saveptr := tok_saveptr tk |}
                     0 chans1)]].
    + intros [[tk' nd] chans2] (_ & Hfull' & Hneg' & Hcnt' & Hlen2 & Hslots').
      assert (Hall' : Forall (fun it => it <> EmptyString) (items (decays s)))
        by (apply tokens_of_full; unfold tokens_of in *; lia).
      assert (Htd : tokens_of (decays s) = items (decays s))
        by (apply tokens_of_all; exact Hall').
      rewrite Htd in *. rewrite take_ge in * by lia.
      simpl. split_and!; try assumption; try lia.
      * rewrite Hlen2, Hlen1. apply length_replicate.
      * intros j Hj.
        assert (Hj0 : chans0 !! j = Some (Build_ChanParam F32.zero F32.zero F32.zero))
          by (apply lookup_replicate; auto).
        pose proof (Hslots j _ Hj0) as H1. rewrite time_slot_full in H1.
        pose proof (Hslots' j _ H1) as H2. rewrite time_slot_full in H2.
        rewrite H2. f_equal. unfold time_value.
        destruct (items (attacks s) !! j) as [ta|]; [destruct (sscanf_f ta)|];
          (destruct (items (decays s) !! j) as [td|]; [destruct (sscanf_f td)|]);
          reflexivity.
    + intros e [-> He]. split; [reflexivity|]. right. rewrite take_ge in He by lia. auto.
    + intros f (-> & Hf & Hlt). split; [reflexivity|]. right.
      rewrite take_ge in Hf by lia. split_and!; try assumption.
      apply tokens_short_empty. exact Hlt.
    + reflexivity.
    + lia.
    + rewrite Hlen1. unfold chans0. rewrite length_replicate. lia.
    + intros j cp _ Hcp.
      assert (Hj : (j < Z.to_nat nchan)%nat).
      { apply lookup_lt_Some in Hcp. rewrite Hlen1 in Hcp. unfold chans0 in Hcp.
        rewrite length_replicate in Hcp. exact Hcp. }
      assert (Hj0 : chans0 !! j = Some (Build_ChanParam F32.zero F32.zero F32.zero))
        by (apply lookup_replicate; auto).
      pose proof (Hslots j _ Hj0) as H1. rewrite time_slot_full in H1.
      rewrite Hcp in H1. injection H1 as ->.
      destruct (items (attacks s) !! j) as [ta|]; [destruct (sscanf_f ta)|]; reflexivity.
  - intros e [-> He]. split; [reflexivity|]. left. rewrite take_ge in He by lia. exact He.
  - intros f (-> & Hf & Hlt). split; [reflexivity|]. left.
    rewrite take_ge in Hf by lia. split; [exact Hf|].
    apply tokens_short_empty. exact Hlt.
  - reflexivity.
  - lia.
  - unfold chans0. rewrite length_replicate. lia.
  - intros j cp _ Hcp. apply lookup_replicate in Hcp as [-> _]. reflexivity.
Qed.

Lemma config_output_times (libm : Libm) (sscanf_f : string -> option spec_float)
    (sscanf_ff : string -> option (spec_float * spec_float)) (host : Host)
    (s : CompandContext) (nchan sample_rate : Z) :
  0 < nchan -> count_items (attacks s) <= nchan -> count_items (decays s) <= nchan ->
  arrays_ok host = true ->
  match parse_times sscanf_f s nchan with
  | Ok _ => True
  | Error e => config_output libm sscanf_f sscanf_ff host s nchan sample_rate = Error e
  | Undefined f =>
      config_output libm sscanf_f sscanf_ff host s nchan sample_rate = Undefined f
  end.
Proof.
  intros Hn Ha Hd Harr. unfold config_output.
  destruct (Z.leb_spec nchan 0); [lia|].
  destruct (Z.gtb_spec (count_items (attacks s)) nchan); [lia|].
  destruct (Z.gtb_spec (count_items (decays s)) nchan); [lia|].
  rewrite Harr. simpl. destruct (parse_times sscanf_f s nchan); [exact I|reflexivity..].
Qed.

(** X7: a negative attack or decay time makes the setup fail with [EINVAL]: in
    the attacks, whatever else the lists hold, and in the decays when the
    loop over the attacks has gone through. *)
Theorem negative_time_rejected (libm : Libm) (sscanf_f : string -> option spec_float)
    (sscanf_ff : string -> option (spec_float * spec_float)) (host : Host)
    (s : CompandContext) (nchan sample_rate : Z) :
  0 < nchan -> count_items (attacks s) <= nchan -> count_items (decays s) <= nchan ->
  arrays_ok host = true ->
  has_negative sscanf_f (tokens_of (attacks s)) = true \/
  Forall (fun it => it <> EmptyString) (items (attacks s)) /\
  has_negative sscanf_f (items (attacks s)) = false /\
  has_negative sscanf_f (tokens_of (decays s)) = true ->
  config_output libm sscanf_f sscanf_ff host s nchan sample_rate = Error EINVAL.
Proof.
  intros Hn Ha Hd Harr Hneg.
  pose proof (config_output_times libm sscanf_f sscanf_ff host s nchan sample_rate
                Hn Ha Hd Harr) as Hcfg.
  pose proof (parse_times_tokens sscanf_f s nchan Ha Hd) as Hpt.
  destruct (parse_times sscanf_f s nchan) as [[[[na nd] chans] sp]|e|f]; simpl in Hpt.
  - exfalso. destruct Hpt as (Hall & Hall' & Hna & Hnd & _).
    rewrite <- (tokens_of_all _ Hall) in Hna. rewrite <- (tokens_of_all _ Hall') in Hnd.
    unfold tokens_of in Hneg.
    destruct Hneg as [Hneg|(_ & _ & Hneg)]; congruence.
  - destruct Hpt as [-> _]. exact Hcfg.
  - exfalso. destruct Hpt as (_ & [[Hf Hex]|(Hall & Hna & Hf & _)]).
    + destruct Hneg as [Hneg|(Hall & Hna & _)]; [congruence|].
      eauto using empty_not_all.
    + destruct Hneg as [Hneg|(_ & _ & Hneg)]; [|congruence].
      rewrite <- (tokens_of_all _ Hall) in Hna. unfold tokens_of in *. congruence.
Qed.

Lemma negative_time_rejected_witness :
  config_output Reference.libm Reference.sscanf_f Reference.sscanf_ff Reference.host
    (Reference.priv "0.3|-1" "0.8" "0/0" Reference.curve_default F64.zero F64.zero F64.zero)
    2 44100
  = Error EINVAL.
Proof.
  apply (negative_time_rejected Reference.libm Reference.sscanf_f Reference.sscanf_ff
           Reference.host
           (Reference.priv "0.3|-1" "0.8" "0/0" Reference.curve_default F64.zero F64.zero
              F64.zero) 2 44100).
  - lia.
  - vm_compute. discriminate.
  - vm_compute. discriminate.
  - reflexivity.
  - left. vm_compute. reflexivity.
Defined.

(** X8: an empty item (an empty list, a ['|'] at either end, two in a row) is
    counted by [count_items] and skipped by [strtok_r], so the loop asks for
    one token more than there are and hands the NULL it gets to [sscanf]:
    in the attacks when none of them is negative, and in the decays when
    the loop over the attacks has gone through and no decay is negative. *)
Theorem empty_item_null_string (libm : Libm) (sscanf_f : string -> option spec_float)
    (sscanf_ff : string -> option (spec_float * spec_float)) (host : Host)
    (s : CompandContext) (nchan sample_rate : Z) :
  0 < nchan -> count_items (attacks s) <= nchan -> count_items (decays s) <= nchan ->
  arrays_ok host = true ->
  has_negative sscanf_f (tokens_of (attacks s)) = false /\
  Exists (fun it => it = EmptyString) (items (attacks s)) \/
  Forall (fun it => it <> EmptyString) (items (attacks s)) /\
  has_negative sscanf_f (items (attacks s)) = false /\
  has_negative sscanf_f (tokens_of (decays s)) = false /\
  Exists (fun it => it = EmptyString) (items (decays s)) ->
  config_output libm sscanf_f sscanf_ff host s nchan sample_rate = Undefined NullString.
Proof.
  intros Hn Ha Hd Harr Hempty.
  pose proof (config_output_times libm sscanf_f sscanf_ff host s nchan sample_rate
                Hn Ha Hd Harr) as Hcfg.
  pose proof (parse_times_tokens sscanf_f s nchan Ha Hd) as Hpt.
  destruct (parse_times sscanf_f s nchan) as [[[[na nd] chans] sp]|e|f]; simpl in Hpt.
  - exfalso. destruct Hpt as (Hall & Hall' & _).
    destruct Hempty as [[_ Hex]|(_ & _ & _ & Hex)]; eauto using empty_not_all.
  - exfalso. destruct Hpt as (_ & [He|(Hall & Hna & He)]).
    + destruct Hempty as [[Hneg _]|(Hall & Hna & _)]; [congruence|].
      rewrite <- (tokens_of_all _ Hall) in Hna. unfold tokens_of in *. congruence.
    + destruct Hempty as [[_ Hex]|(_ & _ & Hneg & _)]; [|congruence].
      eauto using empty_not_all.
  - destruct Hpt as [-> _]. exact Hcfg.
Qed.

Lemma empty_item_null_string_witness :
  config_output Reference.libm Reference.sscanf_f Reference.sscanf_ff Reference.host
    (Reference.priv "0.3|" "0.8" "0/0" Reference.curve_default F64.zero F64.zero F64.zero)
    2 44100
  = Undefined NullString.
Proof.
  apply (empty_item_null_string Reference.libm Reference.sscanf_f Reference.sscanf_ff
           Reference.host
           (Reference.priv "0.3|" "0.8" "0/0" Reference.curve_default F64.zero F64.zero
              F64.zero) 2 44100).
  - lia.
  - vm_compute. discriminate.
  - vm_compute. discriminate.
  - reflexivity.
  - left. split; [vm_compute; reflexivity|].
    apply Exists_cons_tl, Exists_cons_hd. reflexivity.
Defined.

(** ** The channels after the setup *)

Lemma init_channels_slots (libm : Libm) (sample_rate : Z) (vol : spec_float)
    (nchan : Z) (chans : list ChanParam) :
  0 <= nchan -> Z.of_nat (length chans) = nchan ->
  returns (fun chans' =>
             length chans' = length chans /\
             forall j cp, chans !! j = Some cp ->
               chans' !! j
               = Some {| attack := coefficient libm sample_rate (attack cp);
                         decay := coefficient libm sample_rate (decay cp);
                         volume := F32.round (pow libm (F64.of_Z 10)
                                                (F64.div vol (F64.of_Z 20))) |})
          (for_upto 0 nchan (init_channel libm sample_rate vol) chans).
Proof.
  intros Hn Hlen.
  eapply returns_mono;
    [|apply (for_upto_within (fun _ => False) (fun _ => False)
           (fun k chans' =>
              length chans' = length chans /\
              forall j cp, chans !! j = Some cp ->
                chans' !! j
                = Some (if Z.of_nat j <? k
                        then {| attack := coefficient libm sample_rate (attack cp);
                                decay := coefficient libm sample_rate (decay cp);
                                volume := F32.round (pow libm (F64.of_Z 10)
                                                       (F64.div vol (F64.of_Z 20))) |}
                        else cp)))].
  - intros chans' [Hlen' Hslots]. split; [exact Hlen'|]. intros j cp Hcp.
    rewrite (Hslots _ _ Hcp). pose proof (lookup_lt_Some _ _ _ Hcp).
    destruct (Z.ltb_spec (Z.of_nat j) nchan); [reflexivity|lia].
  - exact Hn.
  - split; [reflexivity|]. intros j cp Hcp.
    destruct (Z.ltb_spec (Z.of_nat j) 0); [lia|exact Hcp].
  - intros k st Hk [Hlen' Hslots]. unfold init_channel.
    destruct (lookup_lt_is_Some_2 chans (Z.to_nat k) ltac:(lia)) as [cp Hcp].
    pose proof (Hslots _ _ Hcp) as Hst.
    destruct (Z.ltb_spec (Z.of_nat (Z.to_nat k)) k); [lia|].
    rewrite (read_Ok ChannelsOverrun st k cp) by (lia || exact Hst).
    cbn [mbind result_bind]. rewrite write_returns by lia. simpl.
    split; [rewrite length_insert; exact Hlen'|].
    intros j cp' Hcp'. destruct (Nat.eq_dec j (Z.to_nat k)) as [->|Hne].
    + rewrite Hcp in Hcp'. injection Hcp' as <-.
      rewrite list_lookup_insert_eq by lia.
      destruct (Z.ltb_spec (Z.of_nat (Z.to_nat k)) (k + 1)); [reflexivity|lia].
    + rewrite list_lookup_insert_ne by lia. rewrite (Hslots _ _ Hcp').
      destruct (Z.ltb_spec (Z.of_nat j) k), (Z.ltb_spec (Z.of_nat j) (k + 1));
        try reflexivity; lia.
Qed.

(** X9: what a successful setup leaves in the channels: the coefficients of the
    time constants read from the items of the two lists, and the initial
    volume; a channel for which no value is read has the time constant 0 of
    the allocation, whose coefficient at a positive sample rate is 1.0. *)
Theorem channel_parameters (libm : Libm) (sscanf_f : string -> option spec_float)
    (sscanf_ff : string -> option (spec_float * spec_float)) (host : Host)
    (s s' : CompandContext) (nchan sample_rate : Z) :
  config_output libm sscanf_f sscanf_ff host s nchan sample_rate = Ok s' ->
  Z.of_nat (length (channels s')) = nchan /\
  (forall j, (j < Z.to_nat nchan)%nat ->
     channels s' !! j
     = Some {| attack := coefficient libm sample_rate
                           (time_value sscanf_f (items (attacks s)) j);
               decay := coefficient libm sample_rate
                          (time_value sscanf_f (items (decays s)) j);
               volume := F32.round (pow libm (F64.of_Z 10)
                                      (F64.div (initial_volume s) (F64.of_Z 20))) |}) /\
  (0 < sample_rate ->
   forall j cp, channels s' !! j = Some cp ->
     ((length (items (attacks s)) <= j)%nat -> attack cp = F32.one) /\
     ((length (items (decays s)) <= j)%nat -> decay cp = F32.one)).
Proof.
  intros Hcfg.
  destruct (config_output_Ok _ _ _ _ _ _ _ _ Hcfg)
    as (Hn & Ha & Hd & nb & chans & saveptr & num & segs0 & segs & first & chans'
        & Hpt & _ & _ & _ & Hinit & Hdelay).
  destruct (setup_delay_Ok _ _ _ _ _ Hdelay) as (n & _ & _ & _ & Hch & _).
  cbn [channels set_out_min_lin set_in_min_lin set_segments set_channels] in Hch.
  pose proof (parse_times_tokens sscanf_f s nchan Ha Hd) as Htimes.
  rewrite Hpt in Htimes. destruct Htimes as (_ & _ & _ & _ & _ & _ & Hlen & Hslots).
  pose proof (init_channels_slots libm sample_rate (initial_volume s) nchan chans
                ltac:(lia) ltac:(lia)) as Hi.
  rewrite Hinit in Hi. destruct Hi as [Hlen' Hslots'].
  assert (Hall : forall j, (j < Z.to_nat nchan)%nat ->
     channels s' !! j
     = Some {| attack := coefficient libm sample_rate
                           (time_value sscanf_f (items (attacks s)) j);
               decay := coefficient libm sample_rate
                          (time_value sscanf_f (items (decays s)) j);
               volume := F32.round (pow libm (F64.of_Z 10)
                                      (F64.div (initial_volume s) (F64.of_Z 20))) |}).
  { intros j Hj. rewrite Hch. rewrite (Hslots' _ _ (Hslots j Hj)). reflexivity. }
  split; [rewrite Hch; lia|]. split; [exact Hall|].
  intros Hsr j cp Hcp.
  assert (Hj : (j < Z.to_nat nchan)%nat).
  { apply lookup_lt_Some in Hcp. rewrite Hch in Hcp. lia. }
  rewrite (Hall j Hj) in Hcp. injection Hcp as <-. simpl.
  unfold time_value. split; intros Hge; rewrite lookup_ge_None_2 by exact Hge;
    apply coefficient_zero; exact Hsr.
Qed.

Lemma channel_parameters_witness :
  let s := Reference.unity_options F64.zero in
  let s' := Reference.unity F64.zero 2 44100 in
  Z.of_nat (length (channels s')) = 2 /\
  (forall j, (j < Z.to_nat 2)%nat ->
     channels s' !! j
     = Some {| attack := coefficient Reference.libm 44100
                           (time_value Reference.sscanf_f (items (attacks s)) j);
               decay := coefficient Reference.libm 44100
                          (time_value Reference.sscanf_f (items (decays s)) j);
               volume := F32.round (pow Reference.libm (F64.of_Z 10)
                                      (F64.div (initial_volume s) (F64.of_Z 20))) |}) /\
  (0 < 44100 ->
   forall j cp, channels s' !! j = Some cp ->
     ((length (items (attacks s)) <= j)%nat -> attack cp = F32.one) /\
     ((length (items (decays s)) <= j)%nat -> decay cp = F32.one)).
Proof.
  cbv zeta.
  apply (channel_parameters Reference.libm Reference.sscanf_f Reference.sscanf_ff
           Reference.host (Reference.unity_options F64.zero)
           (Reference.unity F64.zero 2 44100) 2 44100).
  vm_compute. reflexivity.
Defined.

(** ** What the setup takes from the context it finds *)




(** ** Timestamps *)

Lemma within_and (E : averror -> Prop) (F : fault -> Prop) {A : Type}
    (P Q : A -> Prop) (r : result A) :
  within E F P r -> whenever Q r -> within E F (fun v => P v /\ Q v) r.
Proof. destruct r; simpl; auto. Qed.

Lemma set_plane_keeps (chan : Z) (plane : list spec_float) (f f' : AVFrame) :
  set_plane chan plane f = Ok f' ->
  nb_samples f' = nb_samples f /\ frame_pts f' = frame_pts f.
Proof.
  unfold set_plane. intros H. apply bind_Ok in H as (planes & _ & [= <-]).
  split; reflexivity.
Qed.

Lemma delay_sample_stamped (libm : Libm) (rescale : Z -> Z) (s : CompandContext)
    (frame : AVFrame) (alloc_ok : bool) (chan : Z) (src : list spec_float) (pts0 : Z)
    (j : Z) (st : delay_locals) :
  stamped rescale pts0 (l_out_frame st) (l_pts st) ->
  whenever (fun st' => stamped rescale pts0 (l_out_frame st') (l_pts st'))
           (delay_sample libm rescale s frame alloc_ok chan src j st).
Proof.
  intros Hst. unfold delay_sample.
  apply within_bind. eapply within_mono; [|apply whenever_any]. intros inp _.
  apply within_bind.
  eapply within_mono with
    (P := fun '(_, _, out_frame, pts') => stamped rescale pts0 out_frame pts').
  - intros [[[count oindex] out_frame] pts'] H.
    apply within_bind. eapply within_mono; [|apply whenever_any]. intros dbuf _.
    exact H.
  - destruct (l_count st >=? delay_samples s); [|exact Hst].
    apply within_bind.
    eapply within_mono with
      (P := fun '(f, pts') => frame_pts f = pts0 /\ pts' = pts0 + rescale (nb_samples f)).
    + intros [f pts'] [Hf Hpts].
      apply within_bind. eapply within_mono; [|apply whenever_any]. intros dst _.
      apply within_bind. eapply within_mono; [|apply whenever_any]. intros d _.
      apply within_bind. eapply within_mono; [|apply whenever_any]. intros g _.
      apply within_bind. eapply within_mono; [|apply whenever_any]. intros dst' _.
      destruct (set_plane chan dst' f) as [f'| |] eqn:Hset; simpl; try exact I.
      apply set_plane_keeps in Hset as [-> ->]. auto.
    + destruct (l_out_frame st) as [f|]; [exact Hst|].
      destruct alloc_ok; [|exact I]. simpl in Hst |- *. subst pts0. auto.
Qed.

Lemma compand_delay_stamped (libm : Libm) (rescale : Z -> Z) (s : CompandContext)
    (frame : AVFrame) (alloc_ok : bool) :
  whenever (fun '(s', out) => stamped rescale (pts s) out (pts s'))
           (compand_delay libm rescale s frame alloc_ok).
Proof.
  unfold compand_delay. apply within_bind.
  eapply within_mono;
    [|apply (for_upto_invariant _ _
               (fun st => stamped rescale (pts s) (c_out_frame st) (pts (c_ctx st))))].
  - intros st H. exact H.
  - reflexivity.
  - intros chan st Hst. unfold delay_channel.
    destruct (delay_frame (c_ctx st)) as [dframe|]; [|exact I].
    apply within_bind. eapply within_mono; [|apply whenever_any]. intros src _.
    apply within_bind. eapply within_mono; [|apply whenever_any]. intros dbuf _.
    apply within_bind. eapply within_mono; [|apply whenever_any]. intros cp _.
    apply within_bind.
    eapply within_mono;
      [|apply (for_upto_invariant _ _
                 (fun l => stamped rescale (pts s) (l_out_frame l) (l_pts l)))].
    + intros l Hl.
      apply within_bind. eapply within_mono; [|apply whenever_any]. intros planes _.
      apply within_bind. eapply within_mono; [|apply whenever_any]. intros chans _.
      exact Hl.
    + exact Hst.
    + intros j l Hl. apply delay_sample_stamped. exact Hl.
Qed.




(** ** A stream shorter than the delay *)

(** While the delay line fills from slot 0, sample [j] goes to slot [j], and
    the slots behind it keep what they held. *)
Lemma delay_sample_fills (libm : Libm) (rescale : Z -> Z) (s : CompandContext)
    (frame : AVFrame) (alloc_ok : bool) (chan : Z) (src dbuf0 : list spec_float)
    (j : Z) (st : delay_locals) :
  0 <= j -> j + 1 < delay_samples s ->
  l_dindex st = j /\ (forall k, (Z.to_nat j <= k)%nat -> l_dbuf st !! k = dbuf0 !! k) ->
  whenever (fun st' => l_dindex st' = j + 1 /\
                       forall k, (Z.to_nat (j + 1) <= k)%nat -> l_dbuf st' !! k = dbuf0 !! k)
           (delay_sample libm rescale s frame alloc_ok chan src j st).
Proof.
  intros Hj Hlt [Hdi Hslots]. unfold delay_sample.
  apply within_bind. eapply within_mono; [|apply whenever_any]. intros inp _.
  apply within_bind. eapply within_mono; [|apply whenever_any].
  intros [[[count oindex] out_frame] pts'] _.
  destruct (write DelayBufferOverrun (l_dbuf st) (l_dindex st) inp) as [dbuf| |] eqn:Hw;
    simpl; try exact I.
  apply write_inv in Hw as [Hb ->]. rewrite Hdi. split.
  - unfold MOD. destruct (Z.geb_spec (j + 1) (delay_samples s)); lia.
  - intros k Hk. rewrite list_lookup_insert_ne by lia. apply Hslots. lia.
Qed.

Lemma compand_delay_fills (libm : Libm) (rescale : Z -> Z) (s : CompandContext)
    (frame : AVFrame) (alloc_ok : bool) :
  delay_index s = 0 -> 0 <= nb_samples frame < delay_samples s ->
  whenever (fun '(s', _) =>
              forall dframe dbuf chan, delay_frame s = Some dframe ->
                extended_data dframe !! chan = Some dbuf ->
                exists dframe' dbuf',
                  delay_frame s' = Some dframe' /\
                  extended_data dframe' !! chan = Some dbuf' /\
                  forall k, (Z.to_nat (nb_samples frame) <= k)%nat ->
                            dbuf' !! k = dbuf !! k)
           (compand_delay libm rescale s frame alloc_ok).
Proof.
  intros Hidx Hn. unfold compand_delay. apply within_bind.
  eapply within_mono;
    [|apply (for_upto_invariant _ _
               (fun st => (delay_index (c_ctx st) = 0 /\
                           delay_samples (c_ctx st) = delay_samples s) /\
                  forall dframe dbuf chan, delay_frame s = Some dframe ->
                    extended_data dframe !! chan = Some dbuf ->
                    exists dframe' dbuf',
                      delay_frame (c_ctx st) = Some dframe' /\
                      extended_data dframe' !! chan = Some dbuf' /\
                      forall k, (Z.to_nat (nb_samples frame) <= k)%nat ->
                                dbuf' !! k = dbuf !! k))].
  - intros st [_ H]. exact H.
  - split; [split; [exact Hidx|reflexivity]|]. intros dframe dbuf chan Hdf Hdbuf. eauto.
  - intros chan st [[Hidx' Hds] Hinv]. unfold delay_channel.
    destruct (delay_frame (c_ctx st)) as [dframe1|] eqn:Hdf1; [|exact I].
    apply within_bind. eapply within_mono; [|apply whenever_any]. intros src _.
    destruct (read DelayBufferOverrun (extended_data dframe1) chan) as [dbuf1| |] eqn:Hrd;
      simpl; try exact I.
    apply read_inv in Hrd as [Hchan Hdbuf1].
    apply within_bind. eapply within_mono; [|apply whenever_any]. intros cp _.
    apply within_bind.
    eapply within_mono;
      [|apply (for_upto_within _ _
                 (fun j l => l_dindex l = j /\
                             forall k, (Z.to_nat j <= k)%nat -> l_dbuf l !! k = dbuf1 !! k))].
    + intros l [_ Hl].
      destruct (write DelayBufferOverrun (extended_data dframe1) chan (l_dbuf l))
        as [planes| |] eqn:Hw; simpl; try exact I.
      apply write_inv in Hw as [Hb ->].
      apply within_bind. eapply within_mono; [|apply whenever_any]. intros chans _.
      simpl. split; [split; [exact Hidx'|exact Hds]|].
      intros dframe dbuf c Hdf Hdbuf.
      destruct (Hinv dframe dbuf c Hdf Hdbuf) as (dframe' & dbuf' & Hdf' & Hdbuf' & Hk).
      injection Hdf' as <-.
      eexists. destruct (Nat.eq_dec c (Z.to_nat chan)) as [->|Hne].
      * exists (l_dbuf l). split; [reflexivity|]. simpl.
        split; [apply list_lookup_insert_eq; lia|].
        intros k Hk'. rewrite Hl by exact Hk'.
        rewrite Hdbuf1 in Hdbuf'. injection Hdbuf' as <-. apply Hk. exact Hk'.
      * exists dbuf'. split; [reflexivity|]. simpl.
        split; [rewrite list_lookup_insert_ne by lia; exact Hdbuf'|exact Hk].
    + lia.
    + simpl. split; [exact Hidx'|]. intros k _. reflexivity.
    + intros j l Hj Hl. apply delay_sample_fills; [lia|lia|exact Hl].
Qed.

(** X12: a stream that ends before the delay line is half full: the frame fills
    the slots from 0 on and emits nothing, and the drain then starts at
    [delay_index], behind the samples: what it emits is made of the slots
    that no sample was written to, as the context held them before the
    frame, and none of the input comes out. *)
Theorem short_stream_drain (libm : Libm) (rescale : Z -> Z) (s0 s1 s2 : CompandContext)
    (frame : AVFrame) (alloc_ok : bool) (out out2 : option AVFrame) :
  delay_wf s0 -> delay_count s0 = 0 -> delay_index s0 = 0 ->
  frame_ok (nb_channels s0) frame ->
  0 < nb_samples frame -> 2 * nb_samples frame <= delay_samples s0 ->
  compand_delay libm rescale s0 frame alloc_ok = Ok (s1, out) ->
  compand_drain libm rescale s1 true = Ok (s2, out2) ->
  out = None /\
  exists f, out2 = Some f /\ nb_samples f = Z.min 2048 (nb_samples frame) /\
    forall chan dst k, 0 <= chan < nb_channels s0 ->
      extended_data f !! Z.to_nat chan = Some dst ->
      0 <= k < Z.min 2048 (nb_samples frame) ->
      exists dframe0 dbuf0 d cp g,
        delay_frame s0 = Some dframe0 /\
        extended_data dframe0 !! Z.to_nat chan = Some dbuf0 /\
        dbuf0 !! Z.to_nat (nb_samples frame + k) = Some d /\
        channels s1 !! Z.to_nat chan = Some cp /\
        get_volume libm s1 (volume cp) = Ok g /\
        dst !! Z.to_nat k = Some (av_clipf (F32.mul d g) F32.neg_one F32.one).
Proof.
  intros Hwf Hcount Hindex Hframe Hn Hhalf Hdelay Hdrain.
  pose proof (compand_delay_safe libm rescale s0 frame alloc_ok Hwf Hframe) as Hpost.
  rewrite Hdelay in Hpost.
  destruct Hpost as (Hwf1 & (Hds & Hnc & _) & Hcount1 & Hindex1 & _ & _ & Hnone).
  pose proof (compand_delay_fills libm rescale s0 frame alloc_ok Hindex ltac:(lia))
    as Hfills.
  rewrite Hdelay in Hfills. simpl in Hfills.
  rewrite Hcount in Hcount1. rewrite Hindex in Hindex1.
  rewrite Z.add_0_l, Z.min_r in Hcount1 by lia.
  rewrite Z.add_0_l, Z.mod_small in Hindex1 by lia.
  split; [apply Hnone; unfold first_out; lia|].
  pose proof (compand_drain_safe libm rescale s1 true Hwf1) as Hpost2.
  rewrite Hdrain in Hpost2.
  destruct Hpost2 as (_ & _ & _ & _ & _ & _ & f & -> & Hnb & _ & Hplanes).
  rewrite Hcount1 in Hnb, Hplanes.
  exists f. split; [reflexivity|]. split; [exact Hnb|].
  intros chan dst k Hchan Hdst Hk.
  destruct (Hplanes chan dst ltac:(lia) Hdst k Hk)
    as (v & Hv & dframe1 & dbuf1 & cp & d & g & Hdf1 & Hdbuf1 & Hcp & Hd & Hg & ->).
  rewrite Hindex1, Hds, Z.mod_small in Hd by lia.
  destruct (wf_delay_frame s0 Hwf) as (dframe0 & Hdf0 & Hpl0 & _).
  destruct (lookup_lt_is_Some_2 (extended_data dframe0) (Z.to_nat chan) ltac:(lia))
    as [dbuf0 Hdbuf0].
  destruct (Hfills dframe0 dbuf0 (Z.to_nat chan) Hdf0 Hdbuf0)
    as (dframe1' & dbuf1' & Hdf1' & Hdbuf1' & Hslots).
  rewrite Hdf1 in Hdf1'. injection Hdf1' as <-.
  rewrite Hdbuf1 in Hdbuf1'. injection Hdbuf1' as <-.
  exists dframe0, dbuf0, d, cp, g. split_and!; try assumption.
  rewrite <- Hslots by lia. exact Hd.
Qed.

Lemma short_stream_drain_witness :
  let s0 := Reference.unity Reference.delay_2_11 1 8000 in
  let frame := Reference.frame_of [[Reference.half]] in
  exists s1 out s2 out2,
    compand_delay Reference.libm Reference.av_rescale_q s0 frame true = Ok (s1, out) /\
    compand_drain Reference.libm Reference.av_rescale_q s1 true = Ok (s2, out2) /\
    out = None /\
    exists f, out2 = Some f /\ nb_samples f = Z.min 2048 (nb_samples frame) /\
      forall chan dst k, 0 <= chan < nb_channels s0 ->
        extended_data f !! Z.to_nat chan = Some dst ->
        0 <= k < Z.min 2048 (nb_samples frame) ->
        exists dframe0 dbuf0 d cp g,
          delay_frame s0 = Some dframe0 /\
          extended_data dframe0 !! Z.to_nat chan = Some dbuf0 /\
          dbuf0 !! Z.to_nat (nb_samples frame + k) = Some d /\
          channels s1 !! Z.to_nat chan = Some cp /\
          get_volume Reference.libm s1 (volume cp) = Ok g /\
          dst !! Z.to_nat k = Some (av_clipf (F32.mul d g) F32.neg_one F32.one).
Proof.
  cbv zeta.
  destruct (compand_delay Reference.libm Reference.av_rescale_q
              (Reference.unity Reference.delay_2_11 1 8000)
              (Reference.frame_of [[Reference.half]]) true)
    as [[s1 out]|e|f] eqn:Hdelay; [|vm_compute in Hdelay; discriminate..].
  assert (Hs1 : s1 = match compand_delay Reference.libm Reference.av_rescale_q
                             (Reference.unity Reference.delay_2_11 1 8000)
                             (Reference.frame_of [[Reference.half]]) true with
                     | Ok (s1, _) => s1
                     | _ => Reference.unity Reference.delay_2_11 1 8000
                     end) by (rewrite Hdelay; reflexivity).
  destruct (compand_drain Reference.libm Reference.av_rescale_q s1 true)
    as [[s2 out2]|e|f] eqn:Hdrain;
    [|rewrite Hs1 in Hdrain; vm_compute in Hdrain; discriminate..].
  clear Hs1.
  exists s1, out, s2, out2. split; [reflexivity|]. split; [exact Hdrain|].
  apply (short_stream_drain Reference.libm Reference.av_rescale_q
           (Reference.unity Reference.delay_2_11 1 8000) s1 s2
           (Reference.frame_of [[Reference.half]]) true out out2).
  - apply (config_output_delay_wf Reference.libm Reference.sscanf_f Reference.sscanf_ff
             Reference.host (Reference.unity_options Reference.delay_2_11) _ 1 8000);
      vm_compute; reflexivity.
  - vm_compute. reflexivity.
  - vm_compute. reflexivity.
  - split; [vm_compute; discriminate|]. split; [reflexivity|]. repeat constructor.
  - vm_compute. reflexivity.
  - vm_compute. discriminate.
  - exact Hdelay.
  - exact Hdrain.
Defined.

(** ** A second setup on a delay line in use *)

Lemma config_output_delay_shape (libm : Libm) (sscanf_f : string -> option spec_float)
    (sscanf_ff : string -> option (spec_float * spec_float)) (host : Host)
    (s s' : CompandContext) (nchan sample_rate : Z) :
  config_output libm sscanf_f sscanf_ff host s nchan sample_rate = Ok s' ->
  compand s' = use_compand_delay ->
  0 < delay_samples s' /\ 0 < nchan /\ nb_channels s' = nchan /\
  Z.of_nat (length (channels s')) = nchan /\
  delay_count s' = delay_count s /\ delay_index s' = delay_index s /\
  exists f, delay_frame s' = Some f /\
            planes_ok nchan (delay_samples s') (extended_data f).
Proof.
  intros Hcfg Hmode.
  destruct (config_output_Ok _ _ _ _ _ _ _ _ Hcfg)
    as (Hn & _ & _ & nb & chans & saveptr & num & segs0 & segs & first & chans'
        & Hpt & _ & _ & _ & Hinit & Hdelay).
  destruct (setup_delay_Ok _ _ _ _ _ Hdelay)
    as (n & _ & Hds & Hnc & Hch & _ & _ & _ & Hcount & Hindex & Hle & Hgt).
  simpl in Hnc, Hch, Hcount, Hindex.
  assert (Hpos : 0 < n).
  { destruct (Z.lt_ge_cases 0 n) as [|Hn0]; [assumption|].
    destruct (Hle ltac:(lia)) as [Hno _]. congruence. }
  destruct (Hgt Hpos) as (_ & f & Hf & _ & Hplanes).
  pose proof (parse_times_length sscanf_f s nchan) as Hlen. rewrite Hpt in Hlen.
  simpl in Hlen.
  pose proof (init_channels_returns libm sample_rate (initial_volume s) nchan chans
                ltac:(lia) ltac:(lia)) as Hlen'.
  rewrite Hinit in Hlen'. simpl in Hlen'.
  split_and!; try congruence; try lia.
  - rewrite Hch. lia.
  - exists f. split; [exact Hf|]. rewrite Hds. apply Hplanes. lia.
Qed.

Lemma for_upto_first {St : Type} (hi : Z) (body : Z -> St -> result St) (st : St) :
  0 < hi ->
  for_upto 0 hi body st = (st' ← body 0 st; for_range (Z.to_nat (hi - 1)) 1 body st').
Proof.
  intros Hhi. unfold for_upto. rewrite Z.sub_0_r.
  replace (Z.to_nat hi) with (S (Z.to_nat (hi - 1))) by lia. reflexivity.
Qed.

(** X13: the setup hands on [delay_index] as it finds it.  When it puts a context
    in delay mode whose index is not below the new capacity (a delay line
    that was in use with a larger one), the first sample of the next frame
    is read from or written to a slot outside the delay buffer. *)
Theorem stale_delay_index (libm : Libm) (sscanf_f : string -> option spec_float)
    (sscanf_ff : string -> option (spec_float * spec_float)) (host : Host)
    (rescale : Z -> Z) (s s' : CompandContext) (nchan sample_rate : Z)
    (frame : AVFrame) :
  config_output libm sscanf_f sscanf_ff host s nchan sample_rate = Ok s' ->
  compand s' = use_compand_delay ->
  delay_samples s' <= delay_index s ->
  frame_ok nchan frame -> 0 < nb_samples frame ->
  delay_index s' = delay_index s /\
  filter_frame libm rescale s' frame false true = Undefined DelayBufferOverrun.
Proof.
  intros Hcfg Hmode Hstale [_ [Hplanes Hlens]] Hn.
  destruct (config_output_delay_shape _ _ _ _ _ _ _ _ Hcfg Hmode)
    as (Hds & Hnchan & Hnc & Hch & _ & Hindex & f & Hf & [Hfp Hfl]).
  split; [exact Hindex|].
  destruct (lookup_lt_is_Some_2 (extended_data frame) 0 ltac:(lia)) as [src Hsrc].
  destruct (lookup_lt_is_Some_2 (extended_data f) 0 ltac:(lia)) as [dbuf Hdbuf].
  destruct (lookup_lt_is_Some_2 (channels s') 0 ltac:(lia)) as [cp Hcp].
  assert (Hsrclen : Z.of_nat (length src) = nb_samples frame).
  { rewrite Forall_forall in Hlens. apply Hlens. eapply list_elem_of_lookup_2, Hsrc. }
  assert (Hdlen : Z.of_nat (length dbuf) = delay_samples s').
  { rewrite Forall_forall in Hfl. apply Hfl. eapply list_elem_of_lookup_2, Hdbuf. }
  destruct (lookup_lt_is_Some_2 src 0 ltac:(lia)) as [inp Hinp].
  assert (Hsample : forall st, l_dindex st = delay_index s' -> l_dbuf st = dbuf ->
            l_out_frame st = None ->
            delay_sample libm rescale s' frame true 0 src 0 st
            = Undefined DelayBufferOverrun).
  { intros st Hdi Hdb Hout. unfold delay_sample.
    rewrite (read_Ok FrameOverrun src 0 inp) by (lia || exact Hinp).
    cbn [mbind result_bind]. rewrite Hdi, Hdb, Hout.
    assert (Hrd : read DelayBufferOverrun dbuf (delay_index s')
                  = Undefined DelayBufferOverrun).
    { unfold read. destruct (Z.ltb_spec (delay_index s') 0); [reflexivity|].
      rewrite lookup_ge_None_2 by lia. reflexivity. }
    assert (Hwr : write DelayBufferOverrun dbuf (delay_index s') inp
                  = Undefined DelayBufferOverrun).
    { unfold write.
      destruct (Z.ltb_spec (delay_index s') (Z.of_nat (length dbuf))); [lia|].
      rewrite andb_false_r. reflexivity. }
    destruct (l_count st >=? delay_samples s').
    - cbn [mbind result_bind].
      rewrite (read_Ok FrameOverrun _ 0
                 (replicate (Z.to_nat (nb_samples frame - 0)) F32.zero)).
      + cbn [mbind result_bind]. rewrite Hrd. reflexivity.
      + lia.
      + simpl. apply lookup_replicate. split; [reflexivity|lia].
    - cbn [mbind result_bind]. rewrite Hwr. reflexivity. }
  assert (Hchannel : delay_channel libm rescale frame true 0
                       {| c_ctx := s'; c_count := 0; c_dindex := 0; c_out_frame := None |}
                     = Undefined DelayBufferOverrun).
  { unfold delay_channel. cbn [c_ctx c_out_frame]. rewrite Hf.
    rewrite (read_Ok FrameOverrun (extended_data frame) 0 src) by (lia || exact Hsrc).
    rewrite (read_Ok DelayBufferOverrun (extended_data f) 0 dbuf) by (lia || exact Hdbuf).
    rewrite (read_Ok ChannelsOverrun (channels s') 0 cp) by (lia || exact Hcp).
    cbn [mbind result_bind]. rewrite for_upto_first by lia.
    rewrite Hsample by reflexivity. reflexivity. }
  unfold filter_frame. rewrite Hmode. unfold compand_delay.
  rewrite Hnc, for_upto_first by lia. rewrite Hchannel. reflexivity.
Qed.

Lemma stale_delay_index_witness :
  exists s s',
    Reference.config s 1 4000 = Ok s' /\
    delay_samples s' <= delay_index s /\
    delay_index s' = delay_index s /\
    filter_frame Reference.libm Reference.av_rescale_q s'
      (Reference.frame_of [[Reference.half]]) false true
    = Undefined DelayBufferOverrun.
Proof.
  destruct (feed Reference.libm Reference.av_rescale_q
              (Reference.unity Reference.delay_2_11 1 8000)
              [Reference.frame_of [[Reference.half; Reference.quarter]]])
    as [[s outs]|e|f] eqn:Hfeed; [|vm_compute in Hfeed; discriminate..].
  assert (Hs : s = match feed Reference.libm Reference.av_rescale_q
                           (Reference.unity Reference.delay_2_11 1 8000)
                           [Reference.frame_of [[Reference.half; Reference.quarter]]] with
                   | Ok (s, _) => s
                   | _ => Reference.unity Reference.delay_2_11 1 8000
                   end) by (rewrite Hfeed; reflexivity).
  clear Hfeed.
  destruct (Reference.config s 1 4000) as [s'|e|f] eqn:Hcfg;
    [|rewrite Hs in Hcfg; vm_compute in Hcfg; discriminate..].
  assert (Hs' : s' = match Reference.config s 1 4000 with Ok s' => s' | _ => s end)
    by (rewrite Hcfg; reflexivity).
  exists s, s'. split; [exact Hcfg|].
  assert (Hstale : delay_samples s' <= delay_index s)
    by (rewrite Hs', Hs; vm_compute; discriminate).
  split; [exact Hstale|].
  apply (stale_delay_index Reference.libm Reference.sscanf_f Reference.sscanf_ff
           Reference.host Reference.av_rescale_q s s' 1 4000
           (Reference.frame_of [[Reference.half]])).
  - exact Hcfg.
  - rewrite Hs', Hs. vm_compute. reflexivity.
  - exact Hstale.
  - split; [vm_compute; discriminate|]. split; [reflexivity|]. repeat constructor.
  - vm_compute. reflexivity.
Defined.

(** ** A level that does not move *)

Lemma F32_sub_self (v : spec_float) :
  finite_level v = true -> F32.sub v v = F32.zero.
Proof.
  destruct v as [[]| | |s m e]; try discriminate; intros _; [reflexivity|].
  unfold F32.sub, SFsub. rewrite Z.sub_diag. reflexivity.
Qed.

(** X14: a sample whose magnitude is the level the envelope has leaves the
    envelope where it is, whatever the coefficients, so long as they are
    finite. *)
Theorem update_volume_steady (cp : ChanParam) :
  finite_level (volume cp) = true -> finite_coefficient (decay cp) = true ->
  update_volume cp (volume cp) = cp.
Proof.
  intros Hv Hd. unfold update_volume. rewrite (F32_sub_self _ Hv).
  change (F32.gtb F32.zero F32.zero) with false. cbv iota.
  destruct cp as [a d v]. simpl in *. f_equal.
  destruct d as [sd| | |sd md ed]; try discriminate;
    destruct v as [[]| | |sv mv ev]; try discriminate; try reflexivity;
    destruct sd; reflexivity.
Qed.

Lemma update_volume_steady_witness :
  update_volume {| attack := Reference.half; decay := Reference.quarter;
                   volume := Reference.half |} Reference.half
  = {| attack := Reference.half; decay := Reference.quarter; volume := Reference.half |}.
Proof.
  apply (update_volume_steady
           {| attack := Reference.half; decay := Reference.quarter;
              volume := Reference.half |}); reflexivity.
Defined.


Lemma read_ext {A : Type} (f : fault) (arr arr' : list A) (i : Z) :
  arr !! Z.to_nat i = arr' !! Z.to_nat i -> read f arr i = read f arr' i.
Proof. intros H. unfold read. rewrite H. reflexivity. Qed.

Lemma nodelay_samples_inplace (libm : Libm) (s : CompandContext)
    (src : list spec_float) (n : nat) :
  forall (j : Z) (cp : ChanParam) (buf : list spec_float),
  0 <= j ->
  (forall k, (Z.to_nat j <= k)%nat -> buf !! k = src !! k) ->
  for_range n j (nodelay_sample_inplace libm s) (cp, buf)
  = for_range n j (nodelay_sample libm s src) (cp, buf).
Proof.
  induction n as [|n IH]; intros j cp buf Hj Hrest; [reflexivity|].
  cbn [for_range].
  assert (Hstep : nodelay_sample_inplace libm s j (cp, buf)
                  = nodelay_sample libm s src j (cp, buf)).
  { unfold nodelay_sample_inplace, nodelay_sample.
    rewrite (read_ext FrameOverrun buf src j) by (apply Hrest; lia). reflexivity. }
  rewrite Hstep.
  destruct (nodelay_sample libm s src j (cp, buf)) as [[cp' buf']| |] eqn:Hbody;
    [|reflexivity..].
  cbn [mbind result_bind]. unfold nodelay_sample in Hbody.
  apply bind_Ok in Hbody as (v & _ & Hbody).
  apply bind_Ok in Hbody as (g & _ & Hbody).
  apply bind_Ok in Hbody as (buf'' & Hw & [= <- <-]).
  apply write_inv in Hw as [Hb ->].
  apply IH; [lia|]. intros k Hk. rewrite list_lookup_insert_ne by lia.
  apply Hrest. lia.
Qed.

Lemma nodelay_channels_inplace (libm : Libm) (frame : AVFrame) (n : nat) :
  forall (chan : Z) (s : CompandContext) (out : AVFrame),
  0 <= chan -> nb_samples out = nb_samples frame ->
  (forall c, (Z.to_nat chan <= c)%nat -> extended_data out !! c = extended_data frame !! c) ->
  for_range n chan (nodelay_channel_inplace libm) (s, out)
  = for_range n chan (nodelay_channel libm frame) (s, out).
Proof.
  induction n as [|n IH]; intros chan s out Hchan Hnb Hrest; [reflexivity|].
  cbn [for_range].
  assert (Hstep : nodelay_channel_inplace libm chan (s, out)
                  = nodelay_channel libm frame chan (s, out)).
  { unfold nodelay_channel_inplace, nodelay_channel.
    rewrite <- (read_ext FrameOverrun (extended_data out) (extended_data frame) chan)
      by (apply Hrest; lia).
    destruct (read FrameOverrun (extended_data out) chan) as [buf| |]; [|reflexivity..].
    cbn [mbind result_bind].
    destruct (read ChannelsOverrun (channels s) chan) as [cp| |]; [|reflexivity..].
    cbn [mbind result_bind]. rewrite Hnb. unfold for_upto.
    rewrite (nodelay_samples_inplace libm s buf) by (lia || reflexivity).
    reflexivity. }
  rewrite Hstep.
  destruct (nodelay_channel libm frame chan (s, out)) as [[s' out']| |] eqn:Hbody;
    [|reflexivity..].
  cbn [mbind result_bind]. unfold nodelay_channel in Hbody.
  apply bind_Ok in Hbody as (src & _ & Hbody).
  apply bind_Ok in Hbody as (dst & _ & Hbody).
  apply bind_Ok in Hbody as (cp & _ & Hbody).
  apply bind_Ok in Hbody as ([cp' dst'] & _ & Hbody).
  apply bind_Ok in Hbody as (chans & _ & Hbody).
  apply bind_Ok in Hbody as (out'' & Hset & [= <- <-]).
  unfold set_plane in Hset. apply bind_Ok in Hset as (planes & Hw & [= <-]).
  apply write_inv in Hw as [Hb ->].
  apply IH; [lia|exact Hnb|]. intros c Hc. simpl.
  rewrite list_lookup_insert_ne by lia. apply Hrest. lia.
Qed.

(** X15: processing in place: the loop reads sample [i] of a channel before it
    writes it and reads no sample twice, so it makes no difference that the
    input and the output are one array.  The model of [compand_nodelay],
    which keeps the two apart, and the one on a single array agree on every
    context and frame, in what they return and in how they fail. *)
Theorem compand_nodelay_in_place (libm : Libm) (s : CompandContext) (frame : AVFrame)
    (alloc_ok : bool) :
  compand_nodelay_inplace libm s frame = compand_nodelay libm s frame true alloc_ok.
Proof.
  unfold compand_nodelay_inplace, compand_nodelay. cbn [mbind result_bind].
  unfold for_upto. rewrite (nodelay_channels_inplace libm frame); try reflexivity; lia.
Qed.

(** ** While the delay line fills *)

Lemma read_unevaluated {A : Type} (f : fault) (arr : list A) (i : Z) (post : A -> Prop) :
  f <> SegmentsOverrun -> (forall v, post v) ->
  within (fun _ => False) (fun f => f <> SegmentsOverrun) post (read f arr i).
Proof.
  intros Hf Hpost. unfold read. destruct (i <? 0); [exact Hf|].
  destruct (arr !! Z.to_nat i); [apply Hpost|exact Hf].
Qed.

Lemma write_unevaluated {A : Type} (f : fault) (arr : list A) (i : Z) (v : A)
    (post : list A -> Prop) :
  f <> SegmentsOverrun -> (forall v, post v) ->
  within (fun _ => False) (fun f => f <> SegmentsOverrun) post (write f arr i v).
Proof.
  intros Hf Hpost. unfold write. destruct (_ && _); [apply Hpost|exact Hf].
Qed.

Lemma delay_sample_unevaluated (libm : Libm) (rescale : Z -> Z) (s : CompandContext)
    (frame : AVFrame) (alloc_ok : bool) (chan : Z) (src : list spec_float)
    (count0 j : Z) (st : delay_locals) :
  count0 + j < delay_samples s -> l_count st = count0 + j ->
  within (fun _ => False) (fun f => f <> SegmentsOverrun)
         (fun st' => l_count st' = count0 + (j + 1))
         (delay_sample libm rescale s frame alloc_ok chan src j st).
Proof.
  intros Hlt Hcount. unfold delay_sample.
  apply within_bind.
  destruct (read FrameOverrun src j) as [inp| |] eqn:Hrd.
  - simpl. destruct (Z.geb_spec (l_count st) (delay_samples s)); [lia|].
    cbn [mbind result_bind].
    apply within_bind.
    destruct (write DelayBufferOverrun (l_dbuf st) (l_dindex st) inp) as [dbuf| |] eqn:Hw.
    + simpl. lia.
    + unfold write in Hw. destruct (_ && _); discriminate.
    + unfold write in Hw. destruct (_ && _); [discriminate|].
      injection Hw as <-. simpl. discriminate.
  - unfold read in Hrd. destruct (j <? 0); [discriminate|].
    destruct (src !! _); discriminate.
  - unfold read in Hrd. simpl.
    destruct (j <? 0); [injection Hrd as <-; discriminate|].
    destruct (src !! _); [discriminate|]. injection Hrd as <-. discriminate.
Qed.

Lemma compand_delay_unevaluated (libm : Libm) (rescale : Z -> Z) (s : CompandContext)
    (frame : AVFrame) (alloc_ok : bool) :
  0 <= nb_samples frame ->
  delay_count s + nb_samples frame <= delay_samples s ->
  unevaluated (compand_delay libm rescale s frame alloc_ok).
Proof.
  intros Hn Hfill. unfold unevaluated, compand_delay. apply within_bind.
  eapply within_mono;
    [|apply (for_upto_invariant _ _
               (fun st => delay_count (c_ctx st) = delay_count s /\
                          delay_samples (c_ctx st) = delay_samples s))].
  - intros st _. exact I.
  - split; reflexivity.
  - intros chan st [Hc Hd]. unfold delay_channel.
    destruct (delay_frame (c_ctx st)) as [dframe|]; [|simpl; discriminate].
    apply within_bind, read_unevaluated; [discriminate|]. intros src.
    apply within_bind, read_unevaluated; [discriminate|]. intros dbuf.
    apply within_bind, read_unevaluated; [discriminate|]. intros cp.
    apply within_bind.
    eapply within_mono;
      [|apply (for_upto_within _ _
                 (fun j l => l_count l = delay_count s + j))].
    + intros l _.
      apply within_bind, write_unevaluated; [discriminate|]. intros planes.
      apply within_bind, write_unevaluated; [discriminate|]. intros chans.
      simpl. split; [exact Hc|exact Hd].
    + exact Hn.
    + simpl. lia.
    + intros j l Hj Hl. apply delay_sample_unevaluated; [lia|exact Hl].
Qed.

(** X16: while the delay line fills, a frame is taken in whole: when the buffer
    has room for all its samples, [compand_delay] stores them and returns,
    without a frame and without asking for a buffer or evaluating the
    curve, so that it cannot fail, whatever the host and the curve are. *)
Theorem delay_filling_returns (libm : Libm) (rescale : Z -> Z) (s : CompandContext)
    (frame : AVFrame) (alloc_ok : bool) :
  delay_wf s -> frame_ok (nb_channels s) frame ->
  delay_count s + nb_samples frame <= delay_samples s ->
  exists s',
    compand_delay libm rescale s frame alloc_ok = Ok (s', None) /\
    delay_wf s' /\ same_config s s' /\
    delay_count s' = delay_count s + nb_samples frame /\
    delay_index s' = (delay_index s + nb_samples frame) mod delay_samples s /\
    pts s' = pts s.
Proof.
  intros Hwf Hframe Hfill.
  pose proof (compand_delay_safe libm rescale s frame alloc_ok Hwf Hframe) as Hsafe.
  pose proof (compand_delay_unevaluated libm rescale s frame alloc_ok
                (proj1 Hframe) Hfill) as Hun.
  pose proof (compand_delay_stamped libm rescale s frame alloc_ok) as Hst.
  destruct (compand_delay libm rescale s frame alloc_ok) as [[s' out]|e|f];
    simpl in Hsafe, Hun, Hst.
  - destruct Hsafe as (Hwf' & Hcfg & Hcount & Hindex & _ & _ & Hnone).
    assert (out = None) as -> by (apply Hnone; unfold first_out; lia).
    exists s'. split; [reflexivity|]. split_and!; try assumption.
    rewrite Hcount. apply Z.min_r. lia.
  - destruct Hun.
  - contradiction.
Qed.

Lemma delay_filling_returns_witness :
  let s := Reference.unity Reference.delay_2_11 1 8000 in
  let frame := Reference.frame_of [[Reference.half; Reference.quarter]] in
  exists s',
    compand_delay Reference.libm Reference.av_rescale_q s frame false = Ok (s', None) /\
    delay_wf s' /\ same_config s s' /\
    delay_count s' = delay_count s + nb_samples frame /\
    delay_index s' = (delay_index s + nb_samples frame) mod delay_samples s /\
    pts s' = pts s.
Proof.
  cbv zeta.
  apply (delay_filling_returns Reference.libm Reference.av_rescale_q
           (Reference.unity Reference.delay_2_11 1 8000)
           (Reference.frame_of [[Reference.half; Reference.quarter]]) false).
  - apply (config_output_delay_wf Reference.libm Reference.sscanf_f Reference.sscanf_ff
             Reference.host (Reference.unity_options Reference.delay_2_11) _ 1 8000);
      vm_compute; reflexivity.
  - split; [vm_compute; discriminate|]. split; [reflexivity|]. repeat constructor.
  - vm_compute. discriminate.
Defined.

(** ** The delay line as a queue *)

Lemma set_plane_inv (chan : Z) (plane : list spec_float) (f f' : AVFrame) :
  set_plane chan plane f = Ok f' ->
  0 <= chan < Z.of_nat (length (extended_data f)) /\
  nb_samples f' = nb_samples f /\ frame_pts f' = frame_pts f /\
  extended_data f' = <[Z.to_nat chan := plane]> (extended_data f).
Proof.
  unfold set_plane. intros H. apply bind_Ok in H as (planes & Hw & [= <-]).
  apply write_inv in Hw as [Hb ->]. auto.
Qed.

Lemma buffered_store (D M : Z) (X dbuf : list spec_float) (x : spec_float) :
  0 < D -> 0 <= M -> Z.of_nat (length dbuf) = D ->
  X !! Z.to_nat M = Some x ->
  buffered D M X dbuf ->
  buffered D (M + 1) X (<[Z.to_nat (M mod D) := x]> dbuf).
Proof.
  intros HD HM Hlen Hx Hbuf k Hk0 Hk.
  pose proof (Z.mod_pos_bound M D HD) as HMD.
  pose proof (Z.mod_pos_bound k D HD) as HkD.
  destruct (Z.eq_dec k M) as [->|Hne].
  - rewrite list_lookup_insert_eq by lia. symmetry. exact Hx.
  - rewrite list_lookup_insert_ne.
    + apply Hbuf; lia.
    + intros Heq. apply Z2Nat.inj in Heq; try lia.
      assert (Hdiv : (M - k) mod D = 0).
      { rewrite Zminus_mod, Heq, Z.sub_diag. apply Z.mod_0_l. lia. }
      rewrite Z.mod_small in Hdiv by lia. lia.
Qed.

Lemma buffered_oldest (D M : Z) (X dbuf : list spec_float) :
  0 < D -> D <= M -> buffered D M X dbuf ->
  dbuf !! Z.to_nat (M mod D) = X !! Z.to_nat (M - D).
Proof.
  intros HD HM Hbuf. rewrite <- (Hbuf (M - D)) by lia. do 2 f_equal.
  replace (M - D) with (M + (-1) * D) by lia. symmetry. apply Z_mod_plus_full.
Qed.

Lemma delay_sample_content (libm : Libm) (rescale : Z -> Z) (s : CompandContext)
    (frame : AVFrame) (alloc_ok : bool) (cp0 : ChanParam) (chan M : Z)
    (X P : list spec_float) (j : Z) (st : delay_locals) :
  let D := delay_samples s in
  let fo := Z.max 0 (D - Z.min D M) in
  0 < D -> 0 <= M -> 0 <= j ->
  (forall i v, P !! i = Some v -> X !! (Z.to_nat M + i)%nat = Some v) ->
  l_count st = Z.min D (Z.min D M + j) ->
  l_dindex st = (M mod D + j) mod D ->
  l_oindex st = Z.max 0 (j - fo) ->
  Z.of_nat (length (l_dbuf st)) = D ->
  (fo < j -> is_Some (l_out_frame st)) ->
  sample_content libm s cp0 chan M fo X j st ->
  whenever (sample_content libm s cp0 chan M fo X (j + 1))
           (delay_sample libm rescale s frame alloc_ok chan P j st).
Proof.
  intros D fo HD HM Hj HP Hcount Hdindex Hoindex Hdlen Hsome (Hcp & Hbuf & Hout).
  assert (Hidx : l_dindex st = (M + j) mod D)
    by (rewrite Hdindex; apply Z.add_mod_idemp_l; lia).
  unfold delay_sample.
  destruct (read FrameOverrun P j) as [inp| |] eqn:Hrd; simpl; try exact I.
  apply read_inv in Hrd as [_ Hinp].
  assert (HX : X !! Z.to_nat (M + j) = Some inp).
  { replace (Z.to_nat (M + j)) with (Z.to_nat M + Z.to_nat j)%nat by lia.
    apply HP. exact Hinp. }
  assert (Henv : update_volume (l_cp st) (SFabs inp)
                 = envelope cp0 (take (Z.to_nat (M + (j + 1))) X)).
  { replace (Z.to_nat (M + (j + 1))) with (S (Z.to_nat (M + j))) by lia.
    rewrite (take_S_r _ _ _ HX), envelope_snoc, Hcp. reflexivity. }
  fold D. destruct (Z.geb_spec (l_count st) D) as [Hfull|Hfill].
  - (* the buffer is full: one sample out *)
    assert (HMj : D <= M + j) by lia.
    assert (Hfo : fo <= j) by (unfold fo; lia).
    apply within_bind, within_bind.
    eapply within_mono with
      (P := fun '(f0, _) => forall f, l_out_frame st = Some f -> f0 = f).
    2:{ destruct (l_out_frame st) as [f|]; [intros f0 [= <-]; reflexivity|].
        destruct alloc_ok; [|exact I]. simpl. intros f0 [=]. }
    intros [f0 pts'] Hf0.
    destruct (read FrameOverrun (extended_data f0) chan) as [dst| |] eqn:Hdst;
      simpl; try exact I.
    apply read_inv in Hdst as [Hchan Hdst].
    destruct (read DelayBufferOverrun (l_dbuf st) (l_dindex st)) as [d| |] eqn:Hd;
      simpl; try exact I.
    apply read_inv in Hd as [_ Hd].
    destruct (get_volume libm s (volume (update_volume (l_cp st) (SFabs inp))))
      as [g| |] eqn:Hg; simpl; try exact I.
    destruct (write FrameOverrun dst (l_oindex st) _) as [dst'| |] eqn:Hw;
      simpl; try exact I.
    apply write_inv in Hw as [Hob ->].
    destruct (set_plane chan _ f0) as [f1| |] eqn:Hset; simpl; try exact I.
    apply set_plane_inv in Hset as (Hcb & _ & _ & Hplanes).
    destruct (write DelayBufferOverrun (l_dbuf st) (l_dindex st) inp)
      as [dbuf'| |] eqn:Hw; simpl; try exact I.
    apply write_inv in Hw as [Hdb ->].
    split; [exact Henv|]. split.
    + rewrite Hidx. replace (M + (j + 1)) with (M + j + 1) by lia.
      apply buffered_store; try assumption; lia.
    + intros i Hi. simpl.
      exists f1. rewrite Hplanes.
      destruct (Z.eq_dec i j) as [->|Hne].
      * eexists _, _. split; [reflexivity|].
        split; [apply list_lookup_insert_eq; lia|].
        rewrite Hoindex, Z.max_r by lia.
        split; [apply list_lookup_insert_eq; lia|].
        exists d, g. split_and!; [| |reflexivity].
        -- rewrite <- Hd, Hidx. symmetry. apply buffered_oldest; assumption.
        -- rewrite <- Hg, Henv. do 4 f_equal. lia.
      * destruct (Hout i ltac:(lia)) as (f & dst0 & y & Hf & Hdst0 & Hy & Hdel).
        rewrite (Hf0 f Hf) in Hdst. rewrite Hdst0 in Hdst. injection Hdst as <-.
        eexists _, y. split; [reflexivity|].
        split; [apply list_lookup_insert_eq; lia|].
        split; [|exact Hdel].
        rewrite list_lookup_insert_ne; [exact Hy|].
        rewrite Hoindex. lia.
  - (* the buffer fills: nothing out *)
    cbn [mbind result_bind].
    destruct (write DelayBufferOverrun (l_dbuf st) (l_dindex st) inp)
      as [dbuf'| |] eqn:Hw; simpl; try exact I.
    apply write_inv in Hw as [Hdb ->].
    split; [exact Henv|]. split.
    + rewrite Hidx. replace (M + (j + 1)) with (M + j + 1) by lia.
      apply buffered_store; try assumption; lia.
    + intros i Hi. exfalso. unfold fo in Hi. lia.
Qed.

Lemma delay_sample_other_planes (libm : Libm) (rescale : Z -> Z) (s : CompandContext)
    (frame : AVFrame) (alloc_ok : bool) (chan : Z) (P : list spec_float)
    (out_in : option AVFrame) (j : Z) (st : delay_locals) :
  other_planes chan out_in (l_out_frame st) ->
  whenever (fun st' => other_planes chan out_in (l_out_frame st'))
           (delay_sample libm rescale s frame alloc_ok chan P j st).
Proof.
  intros Hother. unfold delay_sample.
  destruct (read FrameOverrun P j) as [inp| |]; simpl; try exact I.
  apply within_bind.
  eapply within_mono with (P := fun '(_, _, out, _) => other_planes chan out_in out).
  - intros [[[count oindex] out] pts'] H.
    destruct (write DelayBufferOverrun _ _ _); simpl; try exact I. exact H.
  - destruct (l_count st >=? delay_samples s); [|exact Hother].
    apply within_bind.
    eapply within_mono with
      (P := fun '(f0, _) => forall f, l_out_frame st = Some f -> f0 = f).
    2:{ destruct (l_out_frame st) as [f|]; [intros f0 [= <-]; reflexivity|].
        destruct alloc_ok; [|exact I]. simpl. intros f0 [=]. }
    intros [f0 pts'] Hf0.
    destruct (read FrameOverrun (extended_data f0) chan) as [dst| |]; simpl; try exact I.
    destruct (read DelayBufferOverrun _ _) as [d| |]; simpl; try exact I.
    destruct (get_volume libm s _) as [g| |]; simpl; try exact I.
    destruct (write FrameOverrun dst _ _) as [dst'| |]; simpl; try exact I.
    destruct (set_plane chan dst' f0) as [f1| |] eqn:Hset; simpl; try exact I.
    apply set_plane_inv in Hset as (_ & _ & _ & Hplanes).
    intros f Hf. destruct (Hother f Hf) as (f' & Hf' & Hsame).
    exists f1. split; [reflexivity|]. intros c Hc.
    rewrite Hplanes, list_lookup_insert_ne by lia.
    rewrite (Hf0 f' Hf'). apply Hsame. exact Hc.
Qed.

Lemma whenever_of (E : averror -> Prop) (F : fault -> Prop) {A : Type}
    (P : A -> Prop) (r : result A) :
  within E F P r -> whenever P r.
Proof. destruct r; simpl; auto. Qed.

Lemma delay_channel_content (libm : Libm) (rescale : Z -> Z) (s : CompandContext)
    (frame : AVFrame) (alloc_ok : bool) (cp0 : Z -> ChanParam)
    (hist : Z -> list spec_float) (M chan : Z) (st : delay_chan_state) :
  delay_wf s -> frame_ok (nb_channels s) frame -> queue_state cp0 hist M s ->
  (forall c P, 0 <= c < nb_channels s -> extended_data frame !! Z.to_nat c = Some P ->
     forall i v, P !! i = Some v -> hist c !! (Z.to_nat M + i)%nat = Some v) ->
  0 <= chan < nb_channels s ->
  chan_inv s frame chan st ->
  channel_content libm s cp0 hist M frame chan st ->
  whenever (channel_content libm s cp0 hist M frame (chan + 1))
           (delay_channel libm rescale frame alloc_ok chan st).
Proof.
  intros Hwf Hframe (HM & Hcount & Hindex & Hqueue) Hhist Hchan Hinv [Hdone Hrest].
  pose proof Hinv as
    (Hcfg & Hc & Hd & Hch & (dframe1 & Hdf1 & Hplanes1) & Hout & Hnone & Hcb & Hdb & _).
  destruct Hcfg as (Hds & Hnc & Hmode & Hsegs & Hin & Hom).
  pose proof (wf_samples s Hwf) as HD.
  destruct Hframe as [Hn Hfr].
  unfold delay_channel. rewrite Hdf1.
  destruct (read FrameOverrun (extended_data frame) chan) as [src| |] eqn:Hsrc;
    simpl; try exact I.
  apply read_inv in Hsrc as [_ Hsrc].
  destruct (read DelayBufferOverrun (extended_data dframe1) chan) as [dbuf| |] eqn:Hdbuf;
    simpl; try exact I.
  apply read_inv in Hdbuf as [_ Hdbuf].
  destruct (read ChannelsOverrun (channels (c_ctx st)) chan) as [cp| |] eqn:Hcp;
    simpl; try exact I.
  apply read_inv in Hcp as [_ Hcp].
  destruct (Hrest chan ltac:(lia)) as [Hcp_s Hplane_s].
  destruct (Hqueue chan Hchan) as (Hcp0 & dframe0 & dbuf0 & Hdf0 & Hdbuf0 & Hbuf0).
  rewrite Hcp_s, Hcp0 in Hcp. injection Hcp as <-.
  destruct (Hplane_s dframe0 Hdf0) as (dframe1' & Hdf1' & Hsame).
  rewrite Hdf1 in Hdf1'. injection Hdf1' as <-.
  rewrite Hsame, Hdbuf0 in Hdbuf. injection Hdbuf as <-.
  assert (Hsrclen : Z.of_nat (length src) = nb_samples frame)
    by exact (planes_ok_lookup _ _ _ _ _ Hfr Hsrc).
  assert (Hdlen : Z.of_nat (length dbuf0) = delay_samples s).
  { rewrite <- Hsame in Hdbuf0. exact (planes_ok_lookup _ _ _ _ _ Hplanes1 Hdbuf0). }
  set (D := delay_samples s) in *.
  set (fo := Z.max 0 (D - Z.min D M)).
  apply within_bind.
  eapply within_mono;
    [|apply (for_upto_within (fun _ => True) (fun _ => True)
               (fun j l => sample_inv (c_ctx st) frame (c_out_frame st) j l /\
                           sample_content libm (c_ctx st) (cp0 chan) chan M fo
                             (hist chan) j l /\
                           other_planes chan (c_out_frame st) (l_out_frame l)));
      [exact Hn| |]].
  - intros l ((Hlc & Hld & Hlo & Hldb & Hlout & Hlsome & Hlnone)
              & (Hlcp & Hlbuf & Hlouts) & Hlother).
    destruct (write DelayBufferOverrun (extended_data dframe1) chan (l_dbuf l))
      as [planes| |] eqn:Hw1; simpl; try exact I.
    apply write_inv in Hw1 as [Hb1 ->].
    destruct (write ChannelsOverrun (channels (c_ctx st)) chan (l_cp l))
      as [chans| |] eqn:Hw2; simpl; try exact I.
    apply write_inv in Hw2 as [Hb2 ->].
    split.
    + intros c Hcr. cbn [c_ctx c_out_frame]. destruct (Z.eq_dec c chan) as [->|Hne].
      * split; [|split].
        -- simpl. rewrite list_lookup_insert_eq by lia. rewrite Hlcp. reflexivity.
        -- eexists _, (l_dbuf l). simpl. split; [reflexivity|]. simpl.
           split; [apply list_lookup_insert_eq; lia|].
           rewrite Hds in Hlbuf. exact Hlbuf.
        -- intros i Hi.
           destruct (Hlouts i Hi) as (f & dst & y & Hf & Hdst & Hy & x & g & Hx & Hg & ->).
           rewrite Hds in Hx, Hg.
           exists f, dst, (av_clipf (F32.mul x g) F32.neg_one F32.one).
           split; [exact Hf|]. split; [exact Hdst|]. split; [exact Hy|].
           exists x, g. split; [exact Hx|]. split; [|reflexivity].
           rewrite <- Hg. symmetry. apply get_volume_ext; assumption.
      * destruct (Hdone c ltac:(lia)) as (Hcpc & (dfc & dbc & Hdfc & Hdbc & Hbufc) & Houtc).
        split; [|split].
        -- simpl. rewrite list_lookup_insert_ne by lia. exact Hcpc.
        -- rewrite Hdf1 in Hdfc. injection Hdfc as <-.
           eexists _, dbc. simpl. split; [reflexivity|]. simpl.
           split; [rewrite list_lookup_insert_ne by lia; exact Hdbc|exact Hbufc].
        -- intros i Hi. destruct (Houtc i Hi) as (f & dst & y & Hf & Hdst & Hy & Hdel).
           destruct (Hlother f Hf) as (f' & Hf' & Hsame').
           exists f', dst, y. split_and!; try assumption.
           rewrite Hsame' by lia. exact Hdst.
    + intros c Hcr. cbn [c_ctx]. simpl. destruct (Hrest c ltac:(lia)) as [Hcpc Hplc].
      split; [rewrite list_lookup_insert_ne by lia; exact Hcpc|].
      intros dframe Hdf. destruct (Hplc dframe Hdf) as (dframe' & Hdf' & Hpl').
      rewrite Hdf1 in Hdf'. injection Hdf' as <-.
      eexists. split; [reflexivity|]. simpl.
      rewrite list_lookup_insert_ne by lia. exact Hpl'.
  - split; [|split].
    + unfold sample_inv, first_out. simpl. rewrite Hds, Hc, Hd, Hnc.
      destruct Hwf as [_ Hidx Hcnt _ _ _].
      split_and!; try lia.
      * rewrite Z.add_0_r, Z.mod_small; lia.
      * exact Hout.
      * reflexivity.
    + split; [|split]; simpl.
      * rewrite Z.add_0_r. reflexivity.
      * rewrite Z.add_0_r, Hds. exact Hbuf0.
      * intros i Hi. unfold fo in Hi. lia.
    + intros f Hf. exists f. split; [exact Hf|]. intros c _. reflexivity.
  - intros j l Hj (Hsi & Hsc & Hop).
    apply (within_and _ _ (sample_inv (c_ctx st) frame (c_out_frame st) (j + 1))
             (fun l' => sample_content libm (c_ctx st) (cp0 chan) chan M fo
                          (hist chan) (j + 1) l' /\
                        other_planes chan (c_out_frame st) (l_out_frame l'))).
    + eapply whenever_of, delay_sample_safe; try eassumption; try lia.
    + apply (within_and _ _
               (sample_content libm (c_ctx st) (cp0 chan) chan M fo (hist chan) (j + 1))
               (fun l' => other_planes chan (c_out_frame st) (l_out_frame l'))).
      * destruct Hsi as (Hlc & Hld & Hlo & Hldb & Hlout & Hlsome & Hlnone).
        unfold first_out in *. rewrite Hds, Hc, Hcount in *. rewrite Hd, Hindex in Hld.
        pose proof (delay_sample_content libm rescale (c_ctx st) frame alloc_ok
                      (cp0 chan) chan M (hist chan) src j l) as Hstep.
        cbv zeta in Hstep. rewrite Hds in Hstep.
        apply Hstep; try assumption; try lia.
        apply (Hhist chan src Hchan Hsrc).
      * apply delay_sample_other_planes. exact Hop.
Qed.

(** What a call of [compand_delay] makes of the queue. *)
Lemma compand_delay_queue (libm : Libm) (rescale : Z -> Z) (s : CompandContext)
    (frame : AVFrame) (alloc_ok : bool) (cp0 : Z -> ChanParam)
    (hist : Z -> list spec_float) (M : Z) :
  delay_wf s -> frame_ok (nb_channels s) frame -> queue_state cp0 hist M s ->
  (forall c P, 0 <= c < nb_channels s -> extended_data frame !! Z.to_nat c = Some P ->
     forall i v, P !! i = Some v -> hist c !! (Z.to_nat M + i)%nat = Some v) ->
  safe (fun '(s', out) =>
          delay_post s frame (s', out) /\
          queue_state cp0 hist (M + nb_samples frame) s' /\
          forall c, 0 <= c < nb_channels s -> frame_output libm s cp0 hist M frame out c)
       (compand_delay libm rescale s frame alloc_ok).
Proof.
  intros Hwf Hframe Hq Hhist.
  eapply safe_mono with
    (P := fun r => delay_post s frame r /\
                   (let '(s', out) := r in
                    (delay_wf s' -> same_config s s' ->
                     delay_count s' = Z.min (delay_samples s) (delay_count s + nb_samples frame) ->
                     delay_index s' = (delay_index s + nb_samples frame) mod delay_samples s ->
                     queue_state cp0 hist (M + nb_samples frame) s') /\
                    forall c, 0 <= c < nb_channels s ->
                              frame_output libm s cp0 hist M frame out c)).
  { intros [s' out] [Hpost [Hqs Hfo]]. split; [exact Hpost|]. split; [|exact Hfo].
    destruct Hpost as (Hwf' & Hcfg & Hcount & Hindex & _). auto. }
  apply within_and; [apply compand_delay_safe; assumption|].
  unfold compand_delay. apply within_bind.
  pose proof (wf_nb_channels s Hwf) as Hnchan.
  eapply within_mono;
    [|apply (for_upto_within (fun _ => True) (fun _ => True)
               (fun chan st => chan_inv s frame chan st /\
                               channel_content libm s cp0 hist M frame chan st));
      [lia| |]].
  - intros st [Hinv [Hdone _]]. simpl.
    destruct Hq as (HM & Hcount & Hindex & _).
    destruct Hinv as ((Hds & Hnc & _) & _).
    split.
    + intros Hwf' Hcfg Hcount' Hindex'. unfold queue_state. simpl in *.
      destruct Hframe as [Hn _]. pose proof (wf_samples s Hwf) as HD.
      rewrite Hds. split; [lia|]. split; [rewrite Hcount', Hcount; lia|].
      split; [rewrite Hindex', Hindex; apply Z.add_mod_idemp_l; lia|].
      intros c Hc. rewrite Hnc in Hc.
      destruct (Hdone c Hc) as (Hcp & Hbuf & _). split; [exact Hcp|exact Hbuf].
    + intros c Hc. destruct (Hdone c Hc) as (_ & _ & Hout). exact Hout.
  - split.
    + destruct Hwf. unfold chan_inv. simpl.
      split_and!; try lia; try reflexivity; try assumption. apply same_config_refl.
    + split; [intros c Hc; lia|]. intros c _. simpl. split; [reflexivity|].
      intros dframe Hdf. eauto.
  - intros chan st Hchan [Hinv Hcontent].
    apply (within_and _ _ (chan_inv s frame (chan + 1))
             (channel_content libm s cp0 hist M frame (chan + 1))).
    + eapply whenever_of, delay_channel_safe; eassumption.
    + apply delay_channel_content; assumption.
Qed.

Lemma delayed_output_ext (libm : Libm) (s s' : CompandContext) (cp : ChanParam)
    (D : Z) (X : list spec_float) (t : Z) (y : spec_float) :
  same_config s s' ->
  delayed_output libm s' cp D X t y -> delayed_output libm s cp D X t y.
Proof.
  intros (_ & _ & _ & Hsegs & Hin & Hout) (x & g & Hx & Hg & ->).
  exists x, g. split; [exact Hx|]. split; [|reflexivity].
  rewrite <- Hg. symmetry. apply get_volume_ext; assumption.
Qed.

Lemma feed_queue (libm : Libm) (rescale : Z -> Z) (cp0 : Z -> ChanParam)
    (hist : Z -> list spec_float) (frames : list AVFrame) :
  forall (s : CompandContext) (M : Z),
  delay_wf s -> compand s = use_compand_delay ->
  Forall (frame_ok (nb_channels s)) frames ->
  queue_state cp0 hist M s ->
  (forall c, 0 <= c < nb_channels s ->
     forall i v, stream_plane c frames !! i = Some v ->
                 hist c !! (Z.to_nat M + i)%nat = Some v) ->
  safe (delay_stream_post libm s cp0 hist M frames) (feed libm rescale s frames).
Proof.
  induction frames as [|f frames IH]; intros s M Hwf Hmode Hframes Hq Hhist.
  - simpl. split; [exact Hwf|]. split; [apply same_config_refl|].
    rewrite Z.add_0_r. split; [exact Hq|].
    intros c Hc. simpl. split; [lia|]. intros t Ht. lia.
  - apply Forall_cons in Hframes as [Hf Hframes]. cbn [feed].
    unfold filter_frame. rewrite Hmode.
    pose proof (wf_samples s Hwf) as HD.
    pose proof Hq as (HM & Hcount & _).
    apply safe_bind.
    eapply safe_mono; [|apply (compand_delay_queue libm rescale s f true cp0 hist M);
                        try assumption].
    + intros [s1 out] ((Hwf1 & Hcfg & _ & _ & Hok & Hsome & Hnone) & Hq1 & Hfo).
      pose proof Hcfg as (Hds & Hnc & Hmode1 & _).
      assert (Hplane : forall c, 0 <= c < nb_channels s ->
                exists P, extended_data f !! Z.to_nat c = Some P /\
                          Z.of_nat (length P) = nb_samples f).
      { intros c Hc. destruct Hf as [_ Hpl].
        destruct (lookup_lt_is_Some_2 (extended_data f) (Z.to_nat c)) as [P HP];
          [destruct Hpl; lia|].
        exists P. split; [exact HP|exact (planes_ok_lookup _ _ _ _ _ Hpl HP)]. }
      apply safe_bind.
      eapply safe_mono; [|apply (IH s1 (M + nb_samples f))].
      * intros [s2 outs] (Hwf2 & Hcfg2 & Hq2 & Hstream). simpl.
        rewrite Hds in *.
        split; [exact Hwf2|]. split; [exact (same_config_trans _ _ _ Hcfg Hcfg2)|].
        split; [rewrite Z.add_assoc; exact Hq2|].
        intros c Hc. rewrite Hnc in Hstream.
        destruct (Hstream c Hc) as [Hlen Houts]. clear Hstream.
        destruct (Hplane c Hc) as (P & HP & HPlen).
        specialize (Hfo c Hc). unfold frame_output in Hfo. cbv zeta in Hfo.
        unfold first_out in *. rewrite Hcount in *.
        destruct Hf as [Hn _].
        destruct out as [fout|].
        -- destruct Hok as (Hnb & Hlenp & Hlens).
           assert (Hlt : Z.max 0 (delay_samples s - Z.min (delay_samples s) M)
                         < nb_samples f).
           { destruct (Z.lt_ge_cases
                         (Z.max 0 (delay_samples s - Z.min (delay_samples s) M))
                         (nb_samples f)) as [|Hge]; [assumption|].
             specialize (Hnone ltac:(lia)). discriminate. }
           destruct (lookup_lt_is_Some_2 (extended_data fout) (Z.to_nat c)) as [dst Hdst];
             [lia|].
           assert (Hdlen : Z.of_nat (length dst)
                           = nb_samples f
                             - Z.max 0 (delay_samples s - Z.min (delay_samples s) M)).
           { rewrite Forall_forall in Hlens. apply Hlens.
             eapply list_elem_of_lookup_2, Hdst. }
           simpl. rewrite (stream_plane_cons c fout outs dst Hdst).
           split; [rewrite length_app; lia|].
           intros t Ht.
           destruct (Z.lt_ge_cases t (M + nb_samples f - delay_samples s)) as [Hfirst|Hlater].
           ++ destruct (Hfo (t + delay_samples s - M) ltac:(lia))
                as (f' & dst' & y & [= <-] & Hdst' & Hy & Hdel).
              rewrite Hdst in Hdst'. injection Hdst' as <-.
              exists y. split.
              ** rewrite lookup_app_l by lia. rewrite <- Hy. f_equal. lia.
              ** replace (M + (t + delay_samples s - M) - delay_samples s) with t in Hdel
                   by lia. exact Hdel.
           ++ destruct (Houts t ltac:(lia)) as (y & Hy & Hdel).
              exists y. split.
              ** rewrite lookup_app_r by lia. rewrite <- Hy. f_equal. lia.
              ** exact (delayed_output_ext _ _ _ _ _ _ _ _ Hcfg Hdel).
        -- assert (Hge : nb_samples f
                         <= Z.max 0 (delay_samples s - Z.min (delay_samples s) M)).
           { destruct (Z.le_gt_cases (nb_samples f)
                         (Z.max 0 (delay_samples s - Z.min (delay_samples s) M)))
               as [|Hgt]; [assumption|].
             destruct (Hsome ltac:(lia)) as [? [=]]. }
           simpl. split; [lia|].
           intros t Ht. destruct (Houts t ltac:(lia)) as (y & Hy & Hdel).
           exists y. split.
           ++ rewrite <- Hy. f_equal. lia.
           ++ exact (delayed_output_ext _ _ _ _ _ _ _ _ Hcfg Hdel).
      * exact Hwf1.
      * congruence.
      * rewrite Hnc. exact Hframes.
      * exact Hq1.
      * intros c Hc i v Hv. rewrite Hnc in Hc.
        destruct (Hplane c Hc) as (P & HP & HPlen). destruct Hf as [Hn _].
        replace (Z.to_nat (M + nb_samples f) + i)%nat
          with (Z.to_nat M + (length P + i))%nat by lia.
        apply (Hhist c Hc). rewrite (stream_plane_cons c f frames P HP).
        rewrite lookup_app_r by lia. rewrite <- Hv. f_equal. lia.
    + intros c P Hc HP i v Hv. apply (Hhist c Hc).
      rewrite (stream_plane_cons c f frames P HP).
      rewrite lookup_app_l by (apply lookup_lt_Some in Hv; exact Hv). exact Hv.
Qed.

Lemma stream_plane_length (nchan chan : Z) (frames : list AVFrame) :
  Forall (frame_ok nchan) frames -> 0 <= chan < nchan ->
  Z.of_nat (length (stream_plane chan frames)) = total_samples frames.
Proof.
  intros Hframes Hchan. induction Hframes as [|f frames [Hn Hpl] _ IH]; [reflexivity|].
  destruct (lookup_lt_is_Some_2 (extended_data f) (Z.to_nat chan)) as [P HP];
    [destruct Hpl; lia|].
  rewrite (stream_plane_cons chan f frames P HP), length_app.
  pose proof (planes_ok_lookup _ _ _ _ _ Hpl HP). simpl. lia.
Qed.

(** From an empty delay line: what [feed] leaves, and what it has emitted. *)
Lemma feed_empty_queue (libm : Libm) (rescale : Z -> Z) (s : CompandContext)
    (frames : list AVFrame) :
  delay_wf s -> compand s = use_compand_delay ->
  delay_count s = 0 -> delay_index s = 0 ->
  Forall (frame_ok (nb_channels s)) frames ->
  safe (fun '(s1, outs) =>
          delay_wf s1 /\ same_config s s1 /\
          delay_count s1 = Z.min (delay_samples s) (total_samples frames) /\
          delay_index s1 = total_samples frames mod delay_samples s /\
          forall chan cp, 0 <= chan < nb_channels s ->
            channels s !! Z.to_nat chan = Some cp ->
            let X := stream_plane chan frames in
            let Y := stream_plane chan outs in
            let D := delay_samples s in
            channels s1 !! Z.to_nat chan = Some (envelope cp X) /\
            Z.of_nat (length Y) = Z.max 0 (Z.of_nat (length X) - D) /\
            (forall t, 0 <= t < Z.of_nat (length X) - D ->
               exists y, Y !! Z.to_nat t = Some y /\ delayed_output libm s cp D X t y) /\
            exists dframe dbuf,
              delay_frame s1 = Some dframe /\
              extended_data dframe !! Z.to_nat chan = Some dbuf /\
              buffered D (Z.of_nat (length X)) X dbuf)
       (feed libm rescale s frames).
Proof.
  intros Hwf Hmode Hcount Hindex Hframes.
  pose proof (wf_samples s Hwf) as HD.
  set (cp0 := fun c : Z => match channels s !! Z.to_nat c with
                           | Some cp => cp
                           | None => Build_ChanParam F32.zero F32.zero F32.zero
                           end).
  eapply safe_mono;
    [|apply (feed_queue libm rescale cp0 (fun c => stream_plane c frames) frames s 0);
      try assumption].
  - intros [s1 outs] (Hwf1 & Hcfg & (_ & Hcount1 & Hindex1 & Hq) & Hstream).
    split; [exact Hwf1|]. split; [exact Hcfg|].
    destruct Hcfg as (Hds & Hnc & _). rewrite Hds, Z.add_0_l in Hcount1, Hindex1.
    split; [exact Hcount1|]. split; [exact Hindex1|].
    intros chan cp Hchan Hcp X Y D.
    pose proof (stream_plane_length _ _ _ Hframes Hchan) as Hlen. fold X in Hlen.
    rewrite Z.add_0_l in Hq, Hstream. rewrite <- Hlen in Hq, Hstream.
    rewrite Hnc in Hq. destruct (Hq chan Hchan) as (Hcp1 & Hbuf).
    destruct (Hstream chan Hchan) as (HlenY & Houts).
    assert (Hcp0 : cp0 chan = cp) by (unfold cp0; rewrite Hcp; reflexivity).
    rewrite Hcp0 in *. rewrite Hds in Hbuf. fold X D in Hcp1, Hbuf, Houts, HlenY.
    rewrite take_ge in Hcp1 by lia.
    replace (Z.max 0 (0 - D)) with 0 in * by lia.
    rewrite Z.sub_0_r in HlenY. fold Y in HlenY, Houts.
    split; [exact Hcp1|]. split; [exact HlenY|]. split; [|exact Hbuf].
    intros t Ht. destruct (Houts t ltac:(lia)) as (y & Hy & Hdel).
    rewrite Z.sub_0_r in Hy. eauto.
  - split; [lia|]. split; [rewrite Hcount; lia|]. split; [rewrite Hindex; reflexivity|].
    intros c Hc.
    destruct (lookup_lt_is_Some_2 (channels s) (Z.to_nat c)) as [cp Hcp];
      [rewrite <- (wf_channels s Hwf) in Hc; lia|].
    split; [unfold cp0; rewrite Hcp; reflexivity|].
    destruct (wf_delay_frame s Hwf) as (dframe & Hdf & Hpl).
    destruct (lookup_lt_is_Some_2 (extended_data dframe) (Z.to_nat c)) as [dbuf Hdbuf];
      [destruct Hpl; lia|].
    exists dframe, dbuf. split; [exact Hdf|]. split; [exact Hdbuf|].
    intros k Hk0 Hk. lia.
  - intros c Hc i v Hv. simpl. exact Hv.
Qed.



Lemma stream_plane_app (chan : Z) (frames frames' : list AVFrame) :
  stream_plane chan (frames ++ frames')
  = stream_plane chan frames ++ stream_plane chan frames'.
Proof. unfold stream_plane. rewrite map_app, concat_app. reflexivity. Qed.

(** The frames of a drain, taken as one sequence. *)
Lemma chunks_from_stream (libm : Libm) (s : CompandContext) (chan : Z)
    (chunks : list AVFrame) :
  0 <= chan < nb_channels s ->
  forall off, chunks_from libm s off chunks ->
  Z.of_nat (length (stream_plane chan chunks)) = total_samples chunks /\
  forall t, 0 <= t < total_samples chunks ->
    exists v, stream_plane chan chunks !! Z.to_nat t = Some v /\
              drained_sample libm s chan (off + t) v.
Proof.
  intros Hchan. induction chunks as [|f chunks IH]; intros off Hchunks.
  - simpl. split; [reflexivity|]. intros t Ht. lia.
  - destruct Hchunks as [(Hnb & Hpl & Hsamples) Hrest].
    destruct (IH _ Hrest) as [Hlen Hstream].
    destruct (lookup_lt_is_Some_2 (extended_data f) (Z.to_nat chan)) as [dst Hdst];
      [destruct Hpl; lia|].
    pose proof (planes_ok_lookup _ _ _ _ _ Hpl Hdst) as Hdlen.
    rewrite (stream_plane_cons chan f chunks dst Hdst). simpl.
    split; [rewrite length_app; lia|].
    intros t Ht. destruct (Z.lt_ge_cases t (nb_samples f)) as [Hlt|Hge].
    + destruct (Hsamples chan dst t Hchan Hdst ltac:(lia)) as (v & Hv & Hdr).
      exists v. split; [rewrite lookup_app_l by lia; exact Hv|exact Hdr].
    + destruct (Hstream (t - nb_samples f) ltac:(lia)) as (v & Hv & Hdr).
      exists v. split.
      * rewrite lookup_app_r by lia. rewrite <- Hv. f_equal. lia.
      * replace (off + t) with (off + nb_samples f + (t - nb_samples f)) by lia.
        exact Hdr.
Qed.

(** X18: a whole stream in the mode with delay, at least as long as the
    delay, from an empty delay line: what [filter_frame] emits and what
    [request_frame] drains at the end of the stream are together, channel
    by channel, as many samples as went in, and sample [t] of the output is
    sample [t] of the input times the gain at the envelope after sample
    [t + delay_samples] (after the last sample, for the samples of the
    drain), clipped. *)
Theorem delay_stream_output (libm : Libm) (rescale : Z -> Z) (s s1 : CompandContext)
    (frames outs : list AVFrame) (n : nat) :
  delay_wf s -> compand s = use_compand_delay ->
  delay_count s = 0 -> delay_index s = 0 ->
  Forall (frame_ok (nb_channels s)) frames ->
  delay_samples s <= total_samples frames ->
  feed libm rescale s frames = Ok (s1, outs) ->
  (forall cp, cp ∈ channels s1 -> exists g, get_volume libm s1 (volume cp) = Ok g) ->
  delay_count s1 <= 2048 * Z.of_nat n ->
  exists s2 chunks,
    requests_at_eof libm rescale n s1 = Ok (s2, chunks) /\
    forall chan cp, 0 <= chan < nb_channels s ->
      channels s !! Z.to_nat chan = Some cp ->
      let X := stream_plane chan frames in
      let Y := stream_plane chan (outs ++ chunks) in
      length Y = length X /\
      forall t, 0 <= t < Z.of_nat (length X) ->
        exists y, Y !! Z.to_nat t = Some y /\
                  delayed_output libm s cp (delay_samples s) X t y.
Proof.
  intros Hwf Hmode Hcount Hindex Hframes Hlong Hfeed Hgain Hn.
  pose proof (wf_samples s Hwf) as HD.
  pose proof (feed_empty_queue libm rescale s frames Hwf Hmode Hcount Hindex Hframes)
    as Hq.
  rewrite Hfeed in Hq. destruct Hq as (Hwf1 & Hcfg & Hcount1 & Hindex1 & Hq).
  pose proof (requests_at_eof_drains libm rescale n s1 Hwf1 Hgain Hn) as Hdrain.
  destruct (requests_at_eof libm rescale n s1) as [[s2 chunks]| |]; try contradiction.
  simpl in Hdrain. destruct Hdrain as (_ & _ & _ & _ & _ & Htotal & Hchunks).
  exists s2, chunks. split; [reflexivity|].
  intros chan cp Hchan Hcp X Y.
  destruct (Hq chan cp Hchan Hcp) as (Hcp1 & HlenY & Houts & dframe & dbuf & Hdf & Hdbuf & Hbuf).
  fold X in Hcp1, HlenY, Houts, Hbuf.
  pose proof (stream_plane_length _ _ _ Hframes Hchan) as HlenX. fold X in HlenX.
  pose proof Hcfg as (Hds & Hnc & _ & Hsegs & Hin & Hout).
  destruct (chunks_from_stream libm s1 chan chunks ltac:(lia) 0 Hchunks)
    as [HlenZ Hstream].
  rewrite Htotal, Hcount1, Z.min_l in HlenZ, Hstream by lia.
  unfold Y. rewrite stream_plane_app. split; [rewrite length_app; lia|].
  intros t Ht.
  destruct (Z.lt_ge_cases t (Z.of_nat (length X) - delay_samples s)) as [Hfed|Hdrained].
  - destruct (Houts t ltac:(lia)) as (y & Hy & Hdel).
    exists y. split; [rewrite lookup_app_l by lia; exact Hy|exact Hdel].
  - destruct (Hstream (t - (Z.of_nat (length X) - delay_samples s)) ltac:(lia))
      as (v & Hv & dframe' & dbuf' & cp' & d & g & Hdf' & Hdbuf' & Hcp' & Hd & Hg & ->).
    rewrite Hdf in Hdf'. injection Hdf' as <-.
    rewrite Hdbuf in Hdbuf'. injection Hdbuf' as <-.
    rewrite Hcp1 in Hcp'. injection Hcp' as <-.
    eexists. split.
    + rewrite lookup_app_r by lia. rewrite <- Hv. f_equal. lia.
    + exists d, g. split; [|split; [|reflexivity]].
      * rewrite <- Hd, <- (Hbuf t) by lia. do 2 f_equal.
        rewrite Hindex1, Hds, <- HlenX, Z.add_0_l, Z.add_mod_idemp_l by lia.
        replace (Z.of_nat (length X) + (t - (Z.of_nat (length X) - delay_samples s)))
          with (t + 1 * delay_samples s) by lia.
        symmetry. apply Z_mod_plus_full.
      * rewrite take_ge by lia. rewrite <- Hg. symmetry.
        apply get_volume_ext; congruence.
Qed.

Lemma delay_stream_output_witness :
  let s := Reference.unity Reference.delay_2_11 1 8000 in
  let frames := [Reference.frame_of [[Reference.half; Reference.quarter]];
                 Reference.frame_of [[Reference.quarter; Reference.half]]] in
  exists s1 outs,
    feed Reference.libm Reference.av_rescale_q s frames = Ok (s1, outs) /\
    exists s2 chunks,
      requests_at_eof Reference.libm Reference.av_rescale_q 1 s1 = Ok (s2, chunks) /\
      forall chan cp, 0 <= chan < nb_channels s ->
        channels s !! Z.to_nat chan = Some cp ->
        let X := stream_plane chan frames in
        let Y := stream_plane chan (outs ++ chunks) in
        length Y = length X /\
        forall t, 0 <= t < Z.of_nat (length X) ->
          exists y, Y !! Z.to_nat t = Some y /\
                    delayed_output Reference.libm s cp (delay_samples s) X t y.
Proof.
  cbv zeta.
  assert (Hwf : delay_wf (Reference.unity Reference.delay_2_11 1 8000)).
  { apply (config_output_delay_wf Reference.libm Reference.sscanf_f Reference.sscanf_ff
             Reference.host (Reference.unity_options Reference.delay_2_11) _ 1 8000);
      vm_compute; reflexivity. }
  assert (Hfr : Forall (frame_ok (nb_channels (Reference.unity Reference.delay_2_11 1 8000)))
                  [Reference.frame_of [[Reference.half; Reference.quarter]];
                   Reference.frame_of [[Reference.quarter; Reference.half]]]).
  { repeat constructor; vm_compute; discriminate. }
  assert (Hfeed : exists s1 outs,
            feed Reference.libm Reference.av_rescale_q
              (Reference.unity Reference.delay_2_11 1 8000)
              [Reference.frame_of [[Reference.half; Reference.quarter]];
               Reference.frame_of [[Reference.quarter; Reference.half]]]
            = Ok (s1, outs) /\
            (forall cp, cp ∈ channels s1 ->
                        exists g, get_volume Reference.libm s1 (volume cp) = Ok g) /\
            delay_count s1 <= 2048 * Z.of_nat 1).
  { do 2 eexists. split; [lazy; reflexivity|]. split.
    - intros cp Hcp. apply list_elem_of_singleton in Hcp. subst cp.
      eexists. lazy. reflexivity.
    - simpl. lia. }
  destruct Hfeed as (s1 & outs & Hfeed & Hgain & Hn).
  exists s1, outs. split; [exact Hfeed|].
  apply (delay_stream_output Reference.libm Reference.av_rescale_q _ s1 _ outs 1
           Hwf eq_refl eq_refl eq_refl Hfr); [|exact Hfeed|exact Hgain|exact Hn].
  vm_compute. discriminate.
Defined.

(** ** The setup stays inside its arrays *)

Lemma modify_segment_within (E : averror -> Prop) (F : fault -> Prop)
    (segs : list segment) (i : Z) (f : segment -> segment)
    (post : list segment -> Prop) :
  0 <= i < Z.of_nat (length segs) ->
  (forall sg, segs !! Z.to_nat i = Some sg -> post (<[Z.to_nat i := f sg]> segs)) ->
  within E F post (modify_segment segs i f).
Proof.
  intros Hi Hpost. destruct (modify_segment_returns segs i f Hi) as (sg & Hsg & ->).
  simpl. apply Hpost. exact Hsg.
Qed.

Lemma parse_point_step (sscanf_ff : string -> option (spec_float * spec_float))
    (toks : list string) (i : Z) (tk : tokens) (cnt : Z) (segs : list segment) :
  at_tokens tk toks -> 0 <= i -> 2 * (i + 1) < Z.of_nat (length segs) ->
  within (fun e => e = EINVAL) (fun f => f = NullString)
         (fun '(tk', cnt', segs') =>
            toks <> [] /\ at_tokens tk' (drop 1 toks) /\ cnt' = cnt + 1 /\
            length segs' = length segs /\
            forall j, (Z.to_nat (2 * (i + 1)) < j)%nat -> segs' !! j = segs !! j)
         (parse_point sscanf_ff i (tk, cnt, segs)).
Proof.
  intros Hat Hi Hlen.
  pose proof (strtok_r_tokens (tok_p tk) (tok_saveptr tk)) as Htok.
  unfold at_tokens in Hat. rewrite Hat in Htok.
  unfold parse_point. destruct toks as [|t rest].
  - rewrite Htok. reflexivity.
  - destruct Htok as (saveptr' & -> & Hrest).
    destruct (sscanf_ff t) as [[px py]|]; [|reflexivity].
    apply within_bind, modify_segment_within; [lia|]. intros sg0 Hsg0.
    set (segs1 := <[Z.to_nat (2 * (i + 1)) := _]> segs).
    assert (Hlen1 : length segs1 = length segs) by apply length_insert.
    apply within_bind.
    eapply within_mono with (P := fun _ => True).
    + intros descending _. destruct descending; [reflexivity|].
      apply within_bind, modify_segment_within; [lia|]. intros sg1 Hsg1.
      simpl. split; [discriminate|]. split; [exact Hrest|]. split; [reflexivity|].
      split; [rewrite length_insert; exact Hlen1|].
      intros j Hj. unfold segs1. rewrite !list_lookup_insert_ne by lia. reflexivity.
    + destruct (i =? 0); [exact I|].
      apply within_bind, returns_within.
      eapply returns_mono; [|apply read_returns; lia]. intros prev _.
      apply within_bind, returns_within.
      eapply returns_mono; [|apply read_returns; lia]. intros cur _. exact I.
Qed.

(** The loop over the points stays inside the segment array, whatever the
    items hold; it returns only when there is a token for every turn. *)
Lemma parse_point_tokens (sscanf_ff : string -> option (spec_float * spec_float))
    (n : nat) :
  forall (toks : list string) (i : Z) (tk : tokens) (cnt : Z) (segs : list segment),
  at_tokens tk toks -> 0 <= i ->
  2 * (i + Z.of_nat n) < Z.of_nat (length segs) ->
  within (fun e => e = EINVAL) (fun f => f = NullString)
         (fun '(tk', cnt', segs') =>
            (n <= length toks)%nat /\
            at_tokens tk' (drop n toks) /\ cnt' = cnt + Z.of_nat n /\
            length segs' = length segs /\
            forall j, (Z.to_nat (2 * (i + Z.of_nat n)) < j)%nat -> segs' !! j = segs !! j)
         (for_range n i (parse_point sscanf_ff) (tk, cnt, segs)).
Proof.
  induction n as [|n IH]; intros toks i tk cnt segs Hat Hi Hlen.
  - simpl. split_and!; try reflexivity; [lia|exact Hat|lia].
  - cbn [for_range]. apply within_bind.
    eapply within_mono; [|apply (parse_point_step sscanf_ff toks i tk cnt segs Hat Hi); lia].
    intros [[tk1 cnt1] segs1] (Hne & Hat1 & -> & Hlen1 & Hfar1).
    eapply within_mono; [|apply (IH (drop 1 toks) (i + 1) tk1 (cnt + 1) segs1)].
    + intros [[tk' cnt'] segs'] (Hn & Hat' & -> & Hlen' & Hfar').
      split; [destruct toks; [contradiction|]; simpl in Hn |- *; rewrite drop_0 in Hn; lia|].
      split; [rewrite drop_drop in Hat'; exact Hat'|].
      split; [lia|]. split; [congruence|].
      intros j Hj. rewrite Hfar' by lia. apply Hfar1. lia.
    + exact Hat1.
    + lia.
    + rewrite Hlen1. lia.
Qed.

Lemma parse_points_within (sscanf_ff : string -> option (spec_float * spec_float))
    (s : CompandContext) (saveptr : string) :
  within (fun e => e = EINVAL) (fun f => f = NullString)
         (fun '(num, segs) =>
            Forall (fun it => it <> EmptyString) (items (points s)) /\
            num = count_items (points s) /\
            Z.of_nat (length segs) = (num + 4) * 2 /\
            forall j, (Z.to_nat (2 * num) < j < length segs)%nat ->
                      segs !! j = Some CompandSegment.zeroed)
         (parse_points sscanf_ff s saveptr).
Proof.
  unfold parse_points, for_upto.
  pose proof (count_items_pos (points s)) as Hpos.
  set (nb := count_items (points s)) in *.
  set (segs0 := replicate (Z.to_nat ((nb + 4) * 2)) CompandSegment.zeroed).
  assert (Hlen0 : length segs0 = Z.to_nat ((nb + 4) * 2)) by apply length_replicate.
  apply within_bind.
  eapply within_mono;
    [|apply (parse_point_tokens sscanf_ff (Z.to_nat (nb - 0)) (tokens_of (points s)) 0);
      [reflexivity|lia|lia]].
  intros [[tk num] segs] (Hn & _ & -> & Hlen & Hfar). simpl.
  split.
  { apply tokens_of_full. pose proof (tokens_of_length (points s)) as Hle.
    unfold tokens_of in *. unfold nb in Hn. rewrite count_items_length in Hn. lia. }
  split; [lia|]. split; [lia|].
  intros j Hj. rewrite Hfar by lia.
  unfold segs0. apply lookup_replicate. split; [reflexivity|lia].
Qed.

Lemma setup_delay_within (host : Host) (s : CompandContext) (nchan sample_rate : Z) :
  within (fun e => e = ENOMEM \/
                   e = EOTHER (get_buffer_err host) /\ get_buffer_err host <> 0)
         (fun f => f = IntConversion)
         (fun s' => channels s' = channels s /\ segments s' = segments s /\
                    nb_channels s' = nb_channels s)
         (setup_delay host s nchan sample_rate).
Proof.
  unfold setup_delay. destruct (F64.to_int _) as [n|]; [|reflexivity].
  destruct (n <=? 0); [repeat split|].
  destruct (delay_frame_ok host); simpl; [|left; reflexivity].
  destruct (Z.eqb_spec (get_buffer_err host) 0); simpl; [repeat split|].
  right. split; [reflexivity|assumption].
Qed.

Lemma within_cut (E E' : averror -> Prop) (F F' : fault -> Prop) {A : Type}
    (P Q : A -> Prop) (r : result A) :
  (forall e, E e -> E' e) -> (forall f, F f -> F' f) -> (forall v, P v -> Q v) ->
  within E F P r -> within E' F' Q r.
Proof. destruct r; simpl; auto. Qed.

(** X19: whatever the options, the number of channels, the sample rate and the
    C library, the setup never reads or writes outside the channel array or
    the segment array: its only undefined behaviours are the NULL handed to
    [sscanf] and a delay that is no [int].  When it returns, the arrays have
    the sizes they were allocated with. *)
Theorem config_output_in_bounds (libm : Libm) (sscanf_f : string -> option spec_float)
    (sscanf_ff : string -> option (spec_float * spec_float)) (host : Host)
    (s : CompandContext) (nchan sample_rate : Z) :
  within (setup_error host) setup_fault
         (fun s' => nb_channels s' = nchan /\
                    Z.of_nat (length (channels s')) = nchan /\
                    Z.of_nat (length (segments s')) = (count_items (points s) + 4) * 2)
         (config_output libm sscanf_f sscanf_ff host s nchan sample_rate).
Proof.
  unfold config_output.
  destruct (Z.leb_spec nchan 0) as [|Hn]; [left; reflexivity|].
  destruct (Z.gtb_spec (count_items (attacks s)) nchan) as [|Ha]; [left; reflexivity|].
  destruct (Z.gtb_spec (count_items (decays s)) nchan) as [|Hd]; [left; reflexivity|].
  destruct (arrays_ok host); simpl; [|right; left; reflexivity].
  apply within_bind.
  eapply within_cut; [| | |apply (parse_times_tokens sscanf_f s nchan Ha Hd)].
  { intros e [-> _]. left. reflexivity. }
  { intros f [-> _]. left. reflexivity. }
  intros [[[na nd] chans] saveptr] (_ & _ & _ & _ & _ & _ & Hchans & _).
  destruct (na =? nd); simpl; [|left; reflexivity].
  apply within_bind.
  eapply within_cut; [| | |apply (parse_points_within sscanf_ff s saveptr)].
  { intros e ->. left. reflexivity. }
  { intros f ->. left. reflexivity. }
  intros [num segs0] (_ & -> & Hlen0 & Hzero).
  pose proof (count_items_pos (points s)) as Hpos.
  apply within_bind, returns_within.
  eapply returns_mono; [|apply build_curve_returns; [lia|exact Hlen0|exact Hzero]].
  intros segs Hlen.
  apply within_bind, returns_within.
  eapply returns_mono; [|apply read_returns; rewrite Hlen; lia]. intros first _.
  apply within_bind, returns_within.
  eapply returns_mono; [|apply init_channels_returns; lia]. intros chans' Hchans'.
  eapply within_cut; [| | |apply setup_delay_within].
  { intros e He. right. exact He. }
  { intros f ->. right. reflexivity. }
  intros s' (-> & -> & ->). simpl. split; [reflexivity|].
  split; [rewrite Hchans', Hchans; lia|rewrite Hlen; exact Hlen0].
Qed.

(** X20: a list of points with an empty item (two ['|'] side by side, or one at
    an end) is never taken: the setup fails with [EINVAL] or [ENOMEM], or it
    hands the NULL that [strtok_r] returns to [sscanf]. *)
Theorem empty_point_never_accepted (libm : Libm)
    (sscanf_f : string -> option spec_float)
    (sscanf_ff : string -> option (spec_float * spec_float)) (host : Host)
    (s : CompandContext) (nchan sample_rate : Z) :
  Exists (fun it => it = EmptyString) (items (points s)) ->
  within (fun e => e = EINVAL \/ e = ENOMEM) (fun f => f = NullString)
         (fun _ => False)
         (config_output libm sscanf_f sscanf_ff host s nchan sample_rate).
Proof.
  intros Hex.
  assert (Hnot : ~ Forall (fun it => it <> EmptyString) (items (points s))).
  { intros Hall. apply Exists_exists in Hex as (it & Hin & ->).
    rewrite Forall_forall in Hall. exact (Hall _ Hin eq_refl). }
  unfold config_output.
  destruct (Z.leb_spec nchan 0) as [|Hn]; [left; reflexivity|].
  destruct (Z.gtb_spec (count_items (attacks s)) nchan) as [|Ha]; [left; reflexivity|].
  destruct (Z.gtb_spec (count_items (decays s)) nchan) as [|Hd]; [left; reflexivity|].
  destruct (arrays_ok host); simpl; [|right; reflexivity].
  apply within_bind.
  eapply within_cut; [| | |apply (parse_times_tokens sscanf_f s nchan Ha Hd)].
  { intros e [-> _]. left. reflexivity. }
  { intros f [-> _]. reflexivity. }
  intros [[[na nd] chans] saveptr] _.
  destruct (na =? nd); simpl; [|left; reflexivity].
  apply within_bind.
  eapply within_cut; [| | |apply (parse_points_within sscanf_ff s saveptr)].
  { intros e ->. left. reflexivity. }
  { intros f ->. reflexivity. }
  intros [num segs0] (Hall & _). contradiction.
Qed.

Lemma empty_point_never_accepted_witness :
  let s := Reference.priv "0.3" "0.8" "-70/-70|-60/-20|" Reference.curve_default
             F64.zero F64.zero F64.zero in
  Exists (fun it => it = EmptyString) (items (points s)) /\
  within (fun e => e = EINVAL \/ e = ENOMEM) (fun f => f = NullString)
         (fun _ => False)
         (config_output Reference.libm Reference.sscanf_f Reference.sscanf_ff
            Reference.host s 1 44100).
Proof.
  cbv zeta.
  assert (Hex : Exists (fun it => it = EmptyString)
                  (items (points (Reference.priv "0.3" "0.8" "-70/-70|-60/-20|"
                                    Reference.curve_default F64.zero F64.zero F64.zero)))).
  { apply Exists_cons_tl, Exists_cons_tl, Exists_cons_hd. reflexivity. }
  split; [exact Hex|].
  apply (empty_point_never_accepted Reference.libm Reference.sscanf_f
           Reference.sscanf_ff Reference.host
           (Reference.priv "0.3" "0.8" "-70/-70|-60/-20|" Reference.curve_default
              F64.zero F64.zero F64.zero) 1 44100 Hex).
Defined.
